(** * Gmail MCP server: credential store, account registry, mailbox cache
      and interactive authorization, embedded shallowly.

    The development follows the TypeScript sources:
    - [src/auth/paths.ts]            -> [Module Paths]
    - [src/auth/tokenManager.ts]     -> [Module TokenManager]
    - [src/services/MailboxRegistry] -> [Module MailboxRegistry]
    - [src/auth/server.ts]           -> [Module AuthServer]
    - [src/handlers/BaseToolHandler] -> [Module BaseToolHandler]

    Conventions.  JavaScript values that travel through [JSON.parse] and
    [JSON.stringify] are values of [json]; a JS object used as a dictionary
    is a [gmap string json]; an insertion-ordered [Map] that the code
    iterates is an association list.  An [async] function is a function in
    the state-and-exception monad [M]: [Ok] is a fulfilled promise, [Throw]
    a rejected one and [Hang] a promise that never settles.  The numbers
    of the batch loop are binary64 values, the [spec_float] of the
    standard library. *)

From Stdlib Require Import String Ascii ZArith List Lia.
From Stdlib Require SpecFloat.
From stdpp Require Import gmap strings list sorting pretty.

Set Warnings "-register-all".
Local Open Scope string_scope.
Local Open Scope list_scope.

(** ** JavaScript values *)

Module Js.

Inductive json : Type :=
  | JNull
  | JBool (b : bool)
  | JNum (n : Z)
  | JStr (s : string)
  | JObj (fields : gmap string json).

(** Numbers are integers (expiry dates, counts); arrays do not occur in
    the token file and are not represented.  [undefined] is the absence
    of a value: [option json]. *)
Definition truthy (v : json) : bool :=
  match v with
  | JNull => false
  | JBool b => b
  | JNum n => negb (n =? 0)%Z
  | JStr s => negb (String.eqb s "")
  | JObj _ => true
  end.

Definition truthy_opt (v : option json) : bool :=
  match v with
  | Some j => truthy j
  | None => false
  end.

(** [a || b] *)
Definition js_or (a b : option json) : option json :=
  if truthy_opt a then a else b.

(** [typeof v === 'object'] (true for [null] as well). *)
Definition typeof_object (v : option json) : bool :=
  match v with
  | Some JNull | Some (JObj _) => true
  | _ => false
  end.

(** Own enumerable properties, as the spread [{...v}] copies them: the
    fields of an object, the indexed characters of a string, nothing for
    the other primitives and for [null]/[undefined]. *)
Definition string_props (s : string) : gmap string json :=
  list_to_map
    (imap (fun i c => (pretty i, JStr (String c EmptyString)))
          (list_ascii_of_string s)).

Definition own_props (v : option json) : gmap string json :=
  match v with
  | Some (JObj fields) => fields
  | Some (JStr s) => string_props s
  | _ => ∅
  end.

Record js_error : Type := mkError {
  err_name : string;            (* "Error", "SyntaxError", "TypeError" *)
  err_code : option string;     (* the [code] property of Node's fs errors *)
  err_message : string
}.

Definition Error (msg : string) : js_error := mkError "Error" None msg.
Definition TypeError (msg : string) : js_error := mkError "TypeError" None msg.
Definition SyntaxError (msg : string) : js_error := mkError "SyntaxError" None msg.
Definition fsError (code : string) (msg : string) : js_error :=
  mkError "Error" (Some code) msg.

(** [`${error}`] *)
Definition error_to_string (e : js_error) : string :=
  err_name e +:+ ": " +:+ err_message e.

(** ['code' in error && error.code === c] *)
Definition has_code (e : js_error) (c : string) : bool :=
  match err_code e with
  | Some c' => String.eqb c' c
  | None => false
  end.

(** ['code' in error && error.code !== c] *)
Definition has_other_code (e : js_error) (c : string) : bool :=
  match err_code e with
  | Some c' => negb (String.eqb c' c)
  | None => false
  end.

(** The settled (or not) state of a promise. *)
Inductive outcome (A : Type) : Type :=
  | Ok (a : A)
  | Throw (e : js_error)
  | Hang.
Arguments Ok {A} a.
Arguments Throw {A} e.
Arguments Hang {A}.

Definition settled {A} (r : outcome A) : bool :=
  match r with
  | Hang => false
  | _ => true
  end.

(** [obj[key]] for a non-null value: a field of an object, an index or
    [length] of a string, [undefined] otherwise.  On [null] the access
    throws. *)
Definition getProp (v : json) (key : string) : outcome (option json) :=
  match v with
  | JNull =>
      Throw (TypeError ("Cannot read properties of null (reading '" +:+ key +:+ "')"))
  | JObj fields => Ok (fields !! key)
  | JStr s =>
      if String.eqb key "length" then Ok (Some (JNum (Z.of_nat (String.length s))))
      else Ok (string_props s !! key)
  | _ => Ok None
  end.

(** [obj[key] = value] in strict mode (ES modules). *)
Definition setProp (v : json) (key : string) (value : json) : outcome json :=
  match v with
  | JObj fields => Ok (JObj (<[key := value]> fields))
  | JNull =>
      Throw (TypeError ("Cannot set properties of null (setting '" +:+ key +:+ "')"))
  | _ => Throw (TypeError ("Cannot create property '" +:+ key +:+ "'"))
  end.

(** [delete obj[key]] in strict mode. *)
Definition deleteProp (v : json) (key : string) : outcome json :=
  match v with
  | JObj fields => Ok (JObj (delete key fields))
  | JNull => Throw (TypeError "Cannot convert undefined or null to object")
  | JStr s =>
      if String.eqb key "length" || bool_decide (is_Some (string_props s !! key))
      then Throw (TypeError ("Cannot delete property '" +:+ key +:+ "'"))
      else Ok v
  | _ => Ok v
  end.

(** [Object.keys(v).length] *)
Definition keys_length (v : json) : nat :=
  match v with
  | JObj fields => size fields
  | JStr s => String.length s
  | _ => 0
  end.

Definition lower_ascii (c : ascii) : ascii :=
  let n := nat_of_ascii c in
  if (65 <=? n)%nat && (n <=? 90)%nat then ascii_of_nat (n + 32) else c.

(** [s.toLowerCase()] on the ASCII range. *)
Fixpoint toLowerCase (s : string) : string :=
  match s with
  | EmptyString => EmptyString
  | String c rest => String (lower_ascii c) (toLowerCase rest)
  end.

(** The double-quote and the newline characters. *)
Definition dq : string := String (ascii_of_nat 34) EmptyString.
Definition nl : string := String (ascii_of_nat 10) EmptyString.

End Js.
Export Js.

(** ** src/auth/paths.ts *)

Module Paths.

Definition RESERVED_NAMES : list string :=
  ["."; ".."; "con"; "prn"; "aux"; "nul"; "com1"; "com2"; "com3"; "com4";
   "lpt1"; "lpt2"; "lpt3"].

(** The character class [[a-z0-9_-]]. *)
Definition id_char (c : ascii) : bool :=
  let n := nat_of_ascii c in
  ((97 <=? n)%nat && (n <=? 122)%nat)
  || ((48 <=? n)%nat && (n <=? 57)%nat)
  || (n =? 95)%nat || (n =? 45)%nat.

(** [/^[a-z0-9_-]{1,64}$/.test(s)] *)
Definition id_regex_test (s : string) : bool :=
  (1 <=? String.length s)%nat && (String.length s <=? 64)%nat
  && forallb id_char (list_ascii_of_string s).

Definition format_message : string :=
  "Invalid account ID. Must be 1-64 characters: lowercase letters, numbers, dashes, underscores only.".

Definition reserved_message (accountId : string) : string :=
  "Account ID " +:+ dq +:+ accountId +:+ dq +:+ " is reserved and cannot be used.".

Definition validateAccountId (accountId : string) : outcome string :=
  if String.eqb accountId "" || (String.length accountId =? 0)%nat then
    Throw (Error format_message)
  else if bool_decide (accountId ∈ RESERVED_NAMES) then
    Throw (Error (reserved_message accountId))
  else if negb (id_regex_test accountId) then
    Throw (Error format_message)
  else Ok accountId.


(** The part of [process.env] that [getAccountMode] reads; a variable
    that is not set is [None]. *)
Record environment : Type := mkEnv {
  GMAIL_ACCOUNT_MODE : option string;
  NODE_ENV : option string
}.

Definition getAccountMode (env : environment) : outcome string :=
  match GMAIL_ACCOUNT_MODE env with
  | Some explicitMode => validateAccountId explicitMode
  | None =>
      match NODE_ENV env with
      | Some node_env => if String.eqb node_env "test" then Ok "test" else Ok "normal"
      | None => Ok "normal"
      end
  end.

End Paths.

(** ** Promises as computations

    An [async] body is a function from the state of its object to an
    [outcome] and a new state.  [p.then(f)] is [mbind], [p.catch(h)] is
    [promise_catch], [try { .. } catch (e) { .. }] is the same combinator. *)

Module Promise.

Definition M (S A : Type) : Type := S → outcome A * S.

#[export] Instance M_ret {S} : MRet (M S) := λ A a s, (Ok a, s).

#[export] Instance M_bind {S} : MBind (M S) := λ A B f m s,
  match m s with
  | (Ok a, s') => f a s'
  | (Throw e, s') => (Throw e, s')
  | (Hang, s') => (Hang, s')
  end.

Definition throw {S A} (e : js_error) : M S A := λ s, (Throw e, s).

(** A promise that never settles. *)
Definition never {S A} : M S A := λ s, (Hang, s).

(** [Promise.resolve()] *)
Definition resolve {S} : M S () := mret ().

Definition promise_catch {S A} (p : M S A) (handler : js_error → M S A) : M S A :=
  λ s, match p s with
       | (Throw e, s') => handler e s'
       | r => r
       end.

Definition gets {S A} (f : S → A) : M S A := λ s, (Ok (f s), s).
Definition modify {S} (f : S → S) : M S () := λ s, (Ok (), f s).

(** A synchronous expression that may throw. *)
Definition lift {S A} (r : outcome A) : M S A := λ s, (r, s).

End Promise.
Export Promise.

(** ** src/auth/tokenManager.ts *)

Module TokenManager.

(** *** The file system the store lives in *)

Inductive path : Type := TokenPath | LegacyPath.

(** The text of a file: either something [JSON.parse] rejects with the
    given message, or the serialization of a JSON value
    ([JSON.parse (JSON.stringify j) = j]). *)
Inductive file_text : Type :=
  | Unparseable (syntax_message : string)
  | JsonText (j : json).

Inductive file : Type :=
  | FAbsent
  | FUnreadable                 (* exists, [readFile] fails with EACCES *)
  | FContent (text : file_text).

Inductive fs_event : Type :=
  | EvMkdir
  | EvAccess (p : path)
  | EvReadFile (p : path)
  | EvWriteFile (p : path)
  | EvUnlink (p : path).

(** The [TokenManager] object together with the part of the world it
    acts on.  [accounts] is the [Map] of live client handles (only looked
    up and deleted from here), each handle represented by the credentials
    it holds; [oauth2Client] is the credentials of the base client. *)
Record tm : Type := mkTm {
  token_file : file;
  legacy_file : file;
  fs_writable : bool;           (* do [writeFile] and [unlink] succeed *)
  fs_log : list fs_event;       (* every call made to [fs], oldest first *)
  stderr : list string;
  tokenPath : string;
  legacyPath : string;
  accountMode : string;
  oauth2Client : json;
  accounts : gmap string json;
  node_env_test : bool          (* [process.env.NODE_ENV === 'test'] *)
}.

Definition with_token_file (f : file) (s : tm) : tm :=
  mkTm f (legacy_file s) (fs_writable s) (fs_log s) (stderr s) (tokenPath s)
       (legacyPath s) (accountMode s) (oauth2Client s) (accounts s) (node_env_test s).

Definition with_legacy_file (f : file) (s : tm) : tm :=
  mkTm (token_file s) f (fs_writable s) (fs_log s) (stderr s) (tokenPath s)
       (legacyPath s) (accountMode s) (oauth2Client s) (accounts s) (node_env_test s).

Definition with_fs_log (l : list fs_event) (s : tm) : tm :=
  mkTm (token_file s) (legacy_file s) (fs_writable s) l (stderr s) (tokenPath s)
       (legacyPath s) (accountMode s) (oauth2Client s) (accounts s) (node_env_test s).

Definition with_stderr (l : list string) (s : tm) : tm :=
  mkTm (token_file s) (legacy_file s) (fs_writable s) (fs_log s) l (tokenPath s)
       (legacyPath s) (accountMode s) (oauth2Client s) (accounts s) (node_env_test s).

Definition with_accountMode (mode : string) (s : tm) : tm :=
  mkTm (token_file s) (legacy_file s) (fs_writable s) (fs_log s) (stderr s) (tokenPath s)
       (legacyPath s) mode (oauth2Client s) (accounts s) (node_env_test s).

Definition with_oauth2Client (c : json) (s : tm) : tm :=
  mkTm (token_file s) (legacy_file s) (fs_writable s) (fs_log s) (stderr s) (tokenPath s)
       (legacyPath s) (accountMode s) c (accounts s) (node_env_test s).

Definition with_accounts (a : gmap string json) (s : tm) : tm :=
  mkTm (token_file s) (legacy_file s) (fs_writable s) (fs_log s) (stderr s) (tokenPath s)
       (legacyPath s) (accountMode s) (oauth2Client s) a (node_env_test s).

Definition file_at (p : path) (s : tm) : file :=
  match p with
  | TokenPath => token_file s
  | LegacyPath => legacy_file s
  end.

Definition with_file_at (p : path) (f : file) (s : tm) : tm :=
  match p with
  | TokenPath => with_token_file f s
  | LegacyPath => with_legacy_file f s
  end.

Definition path_name (p : path) (s : tm) : string :=
  match p with
  | TokenPath => tokenPath s
  | LegacyPath => legacyPath s
  end.

Definition Async (A : Type) : Type := M tm A.

Definition record_fs (ev : fs_event) : Async () :=
  modify (λ s, with_fs_log (fs_log s ++ [ev]) s).

(** [process.stderr.write(text)] *)
Definition stderr_write (text : string) : Async () :=
  modify (λ s, with_stderr (stderr s ++ [text]) s).

Definition ENOENT (p : path) : Async js_error :=
  name ← gets (path_name p);
  mret (fsError "ENOENT" ("ENOENT: no such file or directory, open '" +:+ name +:+ "'")).

Definition EACCES (p : path) : Async js_error :=
  name ← gets (path_name p);
  mret (fsError "EACCES" ("EACCES: permission denied, open '" +:+ name +:+ "'")).

(** [fs.readFile(p, 'utf-8')] *)
Definition readFile (p : path) : Async file_text :=
  record_fs (EvReadFile p);;
  f ← gets (file_at p);
  match f with
  | FAbsent => e ← ENOENT p; throw e
  | FUnreadable => e ← EACCES p; throw e
  | FContent text => mret text
  end.

(** [fs.writeFile(p, text, { mode: 0o600 })] *)
Definition writeFile (p : path) (text : file_text) : Async () :=
  record_fs (EvWriteFile p);;
  w ← gets fs_writable;
  if w : bool then modify (with_file_at p (FContent text))
  else e ← EACCES p; throw e.

(** [fs.unlink(p)] *)
Definition unlink (p : path) : Async () :=
  record_fs (EvUnlink p);;
  f ← gets (file_at p);
  match f with
  | FAbsent => e ← ENOENT p; throw e
  | _ =>
      w ← gets fs_writable;
      if w : bool then modify (with_file_at p FAbsent)
      else e ← EACCES p; throw e
  end.

(** [fs.access(p).then(() => true).catch(() => false)] *)
Definition access (p : path) : Async bool :=
  record_fs (EvAccess p);;
  f ← gets (file_at p);
  mret (match f with FAbsent => false | _ => true end).

Definition JSON_parse (text : file_text) : Async json :=
  match text with
  | Unparseable msg => throw (SyntaxError msg)
  | JsonText j => mret j
  end.

Definition JSON_stringify (j : json) : file_text := JsonText j.

(** The directory itself is not modelled: [mkdir] is recorded and its
    error, which the source swallows, never arises. *)
Definition ensureTokenDirectoryExists : Async () :=
  record_fs EvMkdir.

(** *** The write queue *)

(** [enqueueTokenWrite] returns [pendingWrite] and the new value of
    [this.writeQueue]. *)
Definition enqueueTokenWrite (writeQueue : Async ()) (operation : Async ())
  : Async () * Async () :=
  let pendingWrite :=
    promise_catch writeQueue (λ _, mret ()) ≫= (λ _, operation) in
  let writeQueue' :=
    promise_catch
      (promise_catch pendingWrite
         (λ error, stderr_write ("Error writing token file: " +:+ err_message error +:+ nl);;
                    throw error))
      (λ _, mret ()) in
  (pendingWrite, writeQueue').

(** The value of [this.writeQueue] seen by a caller.  The methods below
    are run one at a time, each from a settled queue ([Promise.resolve()]
    or a chain whose operations have all finished).  A caller that is
    itself the body of an enqueued operation ([queued = true]) reads the
    queue that [enqueueTokenWrite] assigned before starting that body: a
    promise that settles only after the body has returned.  Awaiting a
    write enqueued behind it therefore never returns: the body waits for
    the new [pendingWrite], which waits for the queue, which waits for
    the body. *)
Definition current_writeQueue (queued : bool) : Async () :=
  if queued then never else resolve.

(** [await this.enqueueTokenWrite(operation)]: the promise is run once;
    the caller receives the outcome of [pendingWrite], the state is the
    one the whole chain leaves. *)
Definition await_enqueueTokenWrite (queued : bool) (operation : Async ()) : Async () :=
  λ s,
    let '(pendingWrite, writeQueue') :=
      enqueueTokenWrite (current_writeQueue queued) operation in
    (fst (pendingWrite s), snd (writeQueue' s)).

(** Enqueue a list of operations one after the other, before any of them
    has run: the promises handed back, and the final [this.writeQueue]. *)
Fixpoint enqueue_all (writeQueue : Async ()) (operations : list (Async ()))
  : list (Async ()) * Async () :=
  match operations with
  | [] => ([], writeQueue)
  | operation :: rest =>
      let '(pendingWrite, writeQueue') := enqueueTokenWrite writeQueue operation in
      let '(pendings, final) := enqueue_all writeQueue' rest in
      (pendingWrite :: pendings, final)
  end.

(** Sequential execution, the reference [enqueue_all] is compared with:
    the operations run one after the other, each from the state its
    predecessor left; a failure is reported on [stderr] and the next
    operation runs; nothing runs after an operation that never settles. *)
Definition report_write_error (error : js_error) (s : tm) : tm :=
  with_stderr (stderr s ++ ["Error writing token file: " +:+ err_message error +:+ nl]) s.

Fixpoint run_in_order (operations : list (Async ())) (s : tm) : outcome () * tm :=
  match operations with
  | [] => (Ok (), s)
  | operation :: rest =>
      match operation s with
      | (Ok _, s') => run_in_order rest s'
      | (Throw error, s') => run_in_order rest (report_write_error error s')
      | (Hang, s') => (Hang, s')
      end
  end.

(** [this.writeQueue] always ends in [.catch(() => undefined)]. *)
Definition never_rejects (writeQueue : Async ()) : Prop :=
  ∀ s e, (writeQueue s).1 ≠ Throw e.

(** An operation started once [run_in_order] has completed. *)
Definition started_after (earlier : list (Async ())) (operation : Async ()) : Async () :=
  λ s, match run_in_order earlier s with
       | (Ok _, s') => operation s'
       | (_, s') => (Hang, s')
       end.

(** *** Reading and writing the store *)

Definition DEFAULT_ACCOUNT : string := "normal".

(** [parsed.access_token || parsed.refresh_token], as a boolean. *)
Definition legacy_shape (parsed : json) : outcome bool :=
  match getProp parsed "access_token" with
  | Ok a =>
      if truthy_opt a then Ok true
      else match getProp parsed "refresh_token" with
           | Ok r => Ok (truthy_opt r)
           | Throw e => Throw e
           | Hang => Hang
           end
  | Throw e => Throw e
  | Hang => Hang
  end.

Definition write_tokens (multiAccountTokens : json) : Async () :=
  ensureTokenDirectoryExists;;
  writeFile TokenPath (JSON_stringify multiAccountTokens).

(** [queued] tells whether the caller runs inside an operation of the
    write queue (see [current_writeQueue]). *)
Definition saveMultiAccountTokens (queued : bool) (multiAccountTokens : json) : Async () :=
  await_enqueueTokenWrite queued (write_tokens multiAccountTokens).

Definition loadMultiAccountTokens (queued : bool) : Async json :=
  promise_catch
    (fileContent ← readFile TokenPath;
     parsed ← JSON_parse fileContent;
     legacy ← lift (legacy_shape parsed);
     if legacy : bool then
       let multiAccountTokens := JObj {[ DEFAULT_ACCOUNT := parsed ]} in
       saveMultiAccountTokens queued multiAccountTokens;;
       mret multiAccountTokens
     else mret parsed)
    (λ error,
       if has_code error "ENOENT" then mret (JObj ∅) else throw error).

(** [{...currentTokens, ...newTokens,
      refresh_token: newTokens.refresh_token || currentTokens.refresh_token}]
    as [JSON.stringify] will write it: a property whose value is
    [undefined] is left out. *)
Definition merge_tokens (currentTokens : json) (newTokens : gmap string json)
  : outcome (gmap string json) :=
  match getProp currentTokens "refresh_token" with
  | Ok current_refresh =>
      let spread := newTokens ∪ own_props (Some currentTokens) in
      Ok (match js_or (newTokens !! "refresh_token") current_refresh with
          | Some v => <["refresh_token" := v]> spread
          | None => delete "refresh_token" spread
          end)
  | Throw e => Throw e
  | Hang => Hang
  end.

(** The operation the ['tokens'] listener enqueues. *)
Definition refresh_write (accountId : string) (newTokens : gmap string json) : Async () :=
  multiAccountTokens ← loadMultiAccountTokens true;
  stored ← lift (getProp multiAccountTokens accountId);
  let currentTokens := default (JObj ∅) (js_or stored (Some (JObj ∅))) in
  updatedTokens ← lift (merge_tokens currentTokens newTokens);
  multiAccountTokens' ← lift (setProp multiAccountTokens accountId (JObj updatedTokens));
  write_tokens multiAccountTokens'.

(** The listener that [setupTokenRefreshForAccount] attaches:
    [client.on('tokens', async (newTokens) => ...)]. *)
Definition on_tokens (accountId : string) (newTokens : gmap string json) : Async () :=
  promise_catch
    (await_enqueueTokenWrite false (refresh_write accountId newTokens);;
     test ← gets node_env_test;
     if test : bool then mret ()
     else stderr_write ("Tokens updated and saved for " +:+ accountId +:+ " account" +:+ nl))
    (λ error,
       stderr_write "Error saving updated tokens: ";;
       stderr_write (err_message error);;
       stderr_write nl).

Definition getAccountMode : Async string := gets accountMode.

Definition setAccountMode (mode : string) : Async () :=
  modify (with_accountMode mode).

(** [this.oauth2Client.setCredentials(tokens)] *)
Definition setCredentials (tokens : json) : Async () :=
  modify (with_oauth2Client tokens).

Definition save_write (tokens : gmap string json) (email : option string) : Async () :=
  multiAccountTokens ← loadMultiAccountTokens true;
  let cachedTokens :=
    match email with
    | Some address =>
        if truthy (JStr address) then <["cached_email" := JStr address]> tokens
        else tokens
    | None => tokens
    end in
  mode ← gets accountMode;
  multiAccountTokens' ← lift (setProp multiAccountTokens mode (JObj cachedTokens));
  write_tokens multiAccountTokens'.

Definition saveTokens (tokens : gmap string json) (email : option string) : Async () :=
  promise_catch
    (await_enqueueTokenWrite false (save_write tokens email);;
     setCredentials (JObj tokens);;
     mode ← gets accountMode;
     file_name ← gets tokenPath;
     stderr_write ("Tokens saved successfully for " +:+ mode +:+ " account to: "
                   +:+ file_name +:+ nl))
    (λ error,
       mode ← gets accountMode;
       stderr_write ("Error saving tokens for " +:+ mode +:+ " account: "
                     +:+ error_to_string error +:+ nl);;
       throw error).

Definition not_found_message (normalizedId : string) : string :=
  "Account " +:+ dq +:+ normalizedId +:+ dq +:+ " not found".

Definition remove_write (normalizedId : string) : Async () :=
  multiAccountTokens ← loadMultiAccountTokens true;
  stored ← lift (getProp multiAccountTokens normalizedId);
  if negb (truthy_opt stored) then throw (Error (not_found_message normalizedId))
  else
    multiAccountTokens' ← lift (deleteProp multiAccountTokens normalizedId);
    (if (keys_length multiAccountTokens' =? 0)%nat then
       unlink TokenPath;;
       stderr_write ("All tokens cleared, file deleted" +:+ nl)
     else
       write_tokens multiAccountTokens';;
       stderr_write ("Account " +:+ dq +:+ normalizedId +:+ dq
                     +:+ " removed successfully" +:+ nl));;
    modify (λ s, with_accounts (delete normalizedId (accounts s)) s).

Definition removeAccount (accountId : string) : Async () :=
  let normalizedId := toLowerCase accountId in
  await_enqueueTokenWrite false (remove_write normalizedId).

(** What the store file holds for an account, and the refresh token in
    that record. *)
Definition stored_record (accountId : string) (s : tm) : option json :=
  match token_file s with
  | FContent (JsonText (JObj multiAccountTokens)) => multiAccountTokens !! accountId
  | _ => None
  end.

Definition stored_refresh_token (accountId : string) (s : tm) : option json :=
  match stored_record accountId s with
  | Some (JObj record) => record !! "refresh_token"
  | _ => None
  end.

(** The calls to [fs] made between two states. *)
Definition fs_calls_since (before after : tm) : list fs_event :=
  drop (length (fs_log before)) (fs_log after).

(** *** Loading at start-up *)

Definition migrateLegacyTokens : Async bool :=
  promise_catch
    (legacyExists ← access LegacyPath;
     if negb legacyExists then mret false
     else
       text ← readFile LegacyPath;
       legacyTokens ← JSON_parse text;
       if negb (truthy legacyTokens) || negb (typeof_object (Some legacyTokens)) then
         stderr_write ("Invalid legacy token format, skipping migration" +:+ nl);;
         mret false
       else
         ensureTokenDirectoryExists;;
         legacy ← lift (legacy_shape legacyTokens);
         let tokensToSave :=
           if legacy : bool then JObj {[ DEFAULT_ACCOUNT := legacyTokens ]}
           else legacyTokens in
         writeFile TokenPath (JSON_stringify tokensToSave);;
         from ← gets legacyPath;
         to ← gets tokenPath;
         stderr_write ("Migrated tokens from legacy location: " +:+ from
                       +:+ " to: " +:+ to +:+ nl);;
         mret true)
    (λ error,
       stderr_write ("Error migrating legacy tokens: " +:+ error_to_string error +:+ nl);;
       mret false).

Definition loadSavedTokens : Async bool :=
  promise_catch
    (ensureTokenDirectoryExists;;
     tokenExists ← access TokenPath;
     available ← (if tokenExists : bool then mret true else migrateLegacyTokens);
     if negb available then
       file_name ← gets tokenPath;
       stderr_write ("No token file found at: " +:+ file_name +:+ nl);;
       mret false
     else
       multiAccountTokens ← loadMultiAccountTokens false;
       mode ← gets accountMode;
       tokens ← lift (getProp multiAccountTokens mode);
       if negb (truthy_opt tokens) || negb (typeof_object tokens) then
         file_name ← gets tokenPath;
         stderr_write ("No tokens found for " +:+ mode +:+ " account in file: "
                       +:+ file_name +:+ nl);;
         mret false
       else
         setCredentials (default JNull tokens);;
         stderr_write ("Loaded tokens for " +:+ mode +:+ " account" +:+ nl);;
         mret true)
    (λ error,
       mode ← gets accountMode;
       stderr_write ("Error loading tokens for " +:+ mode +:+ " account: ");;
       (if has_other_code error "ENOENT" then
          promise_catch
            (unlink TokenPath;;
             stderr_write ("Removed potentially corrupted token file" +:+ nl))
            (λ _, mret ())
        else mret ());;
       mret false).

(** *** Live client handles *)

Definition getClient (accountId : string) : Async json :=
  _ ← lift (Paths.validateAccountId accountId);
  client ← gets (λ s, accounts s !! accountId);
  match client with
  | Some c => mret c
  | None =>
      throw (Error ("Account " +:+ dq +:+ accountId +:+ dq
                    +:+ " not found. Please authenticate this account first."))
  end.

(** The object the store stands for: the parsed file, or [{}] when
    there is no file. *)
Definition store_object (fields : gmap string json) (st : tm) : Prop :=
  (token_file st = FAbsent ∧ fields = ∅)
  ∨ token_file st = FContent (JsonText (JObj fields)).

(** *** Clearing, switching and reloading *)

Definition clear_write : Async () :=
  multiAccountTokens ← loadMultiAccountTokens true;
  mode ← gets accountMode;
  multiAccountTokens' ← lift (deleteProp multiAccountTokens mode);
  if (keys_length multiAccountTokens' =? 0)%nat then
    unlink TokenPath;;
    stderr_write ("All tokens cleared, file deleted" +:+ nl)
  else
    write_tokens multiAccountTokens';;
    stderr_write ("Tokens cleared for " +:+ mode +:+ " account" +:+ nl).

Definition clearTokens : Async () :=
  promise_catch
    (setCredentials (JObj ∅);;
     await_enqueueTokenWrite false clear_write)
    (λ error,
       if has_code error "ENOENT" then
         stderr_write ("Token file already deleted" +:+ nl)
       else
         mode ← gets accountMode;
         stderr_write ("Error clearing tokens for " +:+ mode +:+ " account: "
                       +:+ error_to_string error +:+ nl)).

Definition switchAccount (newMode : string) : Async bool :=
  setAccountMode newMode;;
  loadSavedTokens.

(** [multiAccountTokens[accountId]] for a value that is not [null]. *)
Definition stored_under (multiAccountTokens : json) (accountId : string) : option json :=
  match getProp multiAccountTokens accountId with
  | Ok stored => stored
  | _ => None
  end.

(** [tokens] passes
    [!tokens || typeof tokens !== 'object' || !tokens.access_token]. *)
Definition usable_tokens (tokens : json) : bool :=
  match tokens with
  | JObj record => truthy_opt (record !! "access_token")
  | _ => false
  end.

(** An entry of [Object.entries(multiAccountTokens)] that gets a handle:
    its key passes [validateAccountId] and its tokens are usable. *)
Definition accepted_entry (entry : string * json) : bool :=
  match Paths.validateAccountId entry.1 with
  | Ok _ => usable_tokens entry.2
  | _ => false
  end.

(** [loadAllAccounts].  The two loops act on each key on its own, so the
    [Map] of handles is updated as a finite map; a handle is the
    credentials last given to [client.setCredentials].  The case [null]
    cannot arise ([loadMultiAccountTokens] throws on a file holding
    [null]); there the first property access throws.  The line written
    to [stderr] for a key that fails [validateAccountId] is not
    recorded: its place among the other lines follows the order of
    [Object.entries], which a finite map does not keep. *)
Definition loadAllAccounts : Async (gmap string json) :=
  promise_catch
    (multiAccountTokens ← loadMultiAccountTokens false;
     match multiAccountTokens with
     | JNull => throw (TypeError "Cannot convert undefined or null to object")
     | _ =>
         modify (λ s,
           with_accounts
             (filter (λ entry, truthy_opt (stored_under multiAccountTokens entry.1) = true)
                     (accounts s)) s);;
         modify (λ s,
           with_accounts
             (filter (λ entry, accepted_entry entry = true)
                     (own_props (Some multiAccountTokens)) ∪ accounts s) s);;
         gets accounts
     end)
    (λ error, if has_code error "ENOENT" then mret ∅ else throw error).


(** *** Refreshing and validating *)

(** [try { body } finally { finalizer }]: the finalizer runs once the
    body has settled, and not before. *)
Definition try_finally {A} (body : Async A) (finalizer : Async ()) : Async A :=
  λ s,
    match body s with
    | (Hang, s') => (Hang, s')
    | (o, s') =>
        match finalizer s' with
        | (Ok _, s'') => (o, s'')
        | (Throw e, s'') => (Throw e, s'')
        | (Hang, s'') => (Hang, s'')
        end
    end.

(** The number that a truthy [expiry_date] stands for in
    [expiryDate - 5 * 60 * 1000]; [None] is [NaN]. *)
Definition to_number (string_to_number : string → option Z) (v : json) : option Z :=
  match v with
  | JNull => Some 0%Z
  | JBool b => Some (if b then 1 else 0)%Z
  | JNum n => Some n
  | JStr s => string_to_number s
  | JObj _ => None
  end.

(** [!this.oauth2Client.credentials ||
     !this.oauth2Client.credentials.access_token] *)
Definition lacks_access_token (credentials : json) : bool :=
  negb (truthy credentials) || negb (truthy_opt (stored_under credentials "access_token")).

Section Validation.

(** The collaborators: [Date.now()]; the conversion of a string to a
    number; [this.oauth2Client.refreshAccessToken()], from the client's
    credentials to [response.credentials]; and the test
    [refreshError instanceof GaxiosError &&
     refreshError.response?.data?.error === 'invalid_grant'].  The
    ['tokens'] event that the library emits after a refresh reaches the
    listener [on_tokens] on its own. *)
Variable now : Z.
Variable string_to_number : string → option Z.
Variable refreshAccessToken : json → outcome json.
Variable invalid_grant : js_error → bool.

Definition refreshTokensIfNeeded : Async bool :=
  credentials ← gets oauth2Client;
  expiryDate ← lift (getProp credentials "expiry_date");
  isExpired ←
    (if truthy_opt expiryDate then
       mret (match to_number string_to_number (default JNull expiryDate) with
             | Some expiry => (expiry - 5 * 60 * 1000 <=? now)%Z
             | None => false
             end)
     else
       access_token ← lift (getProp credentials "access_token");
       mret (negb (truthy_opt access_token)));
  refresh_token ← lift (getProp credentials "refresh_token");
  if isExpired && truthy_opt refresh_token then
    test ← gets node_env_test;
    mode ← gets accountMode;
    (if test : bool then mret ()
     else stderr_write ("Auth token expired or nearing expiry for " +:+ mode
                        +:+ " account, refreshing..." +:+ nl));;
    promise_catch
      (newTokens ← lift (refreshAccessToken credentials);
       access_token ← lift (getProp newTokens "access_token");
       if negb (truthy_opt access_token) then
         throw (Error "Received invalid tokens during refresh")
       else
         setCredentials newTokens;;
         (if test : bool then mret ()
          else stderr_write ("Token refreshed successfully for " +:+ mode
                             +:+ " account" +:+ nl));;
         mret true)
      (λ refreshError,
         if invalid_grant refreshError then
           stderr_write ("Error refreshing auth token for " +:+ mode
                         +:+ " account: Invalid grant. Token likely expired or revoked. Please re-authenticate."
                         +:+ nl);;
           mret false
         else
           stderr_write ("Error refreshing auth token for " +:+ mode +:+ " account: ");;
           stderr_write (err_message refreshError);;
           stderr_write nl;;
           mret false)
  else
    access_token ← lift (getProp credentials "access_token");
    if negb (truthy_opt access_token) && negb (truthy_opt refresh_token) then
      mode ← gets accountMode;
      stderr_write ("No access or refresh token available for " +:+ mode
                    +:+ " account. Please re-authenticate." +:+ nl);;
      mret false
    else mret true.

(** The [try] block of [validateTokens] after the account mode has
    been set. *)
Definition validate_current : Async bool :=
  credentials ← gets oauth2Client;
  if lacks_access_token credentials then
    loaded ← loadSavedTokens;
    if negb loaded then mret false
    else
      credentials ← gets oauth2Client;
      if lacks_access_token credentials then mret false
      else refreshTokensIfNeeded
  else refreshTokensIfNeeded.

(** [validateTokens(accountMode?)]; [requested] is the argument. *)
Definition validateTokens (requested : option string) : Async bool :=
  currentMode ← gets accountMode;
  let modeToValidate :=
    if truthy_opt (JStr <$> requested) then default "" requested else currentMode in
  try_finally
    ((if String.eqb modeToValidate currentMode then mret ()
      else setAccountMode modeToValidate);;
     validate_current)
    (if String.eqb modeToValidate currentMode then mret ()
     else setAccountMode currentMode).

End Validation.

End TokenManager.

(** ** src/services/MailboxRegistry.ts *)

Module MailboxRegistry.

Record MailboxInfo : Type := mkMailbox {
  accountId : string;
  email : string;
  messagesTotal : option Z;
  threadsTotal : option Z;
  historyId : option string
}.

(** [response.data] of [users.getProfile]. *)
Record profile : Type := mkProfile {
  emailAddress : option string;
  profile_messagesTotal : option Z;
  profile_threadsTotal : option Z;
  profile_historyId : option string
}.

Inductive remote_call : Type :=
  | GetProfile (account : string)
  | MessagesGet (account : string) (messageId : string).

Definition CACHE_TTL : Z := 5 * 60 * 1000.

(** The default comparison of [Array.prototype.sort]: code units, in
    lexicographic order. *)
Definition string_le (a b : string) : Prop := String.leb a b = true.

#[export] Instance string_le_dec a b : Decision (string_le a b).
Proof. unfold string_le. apply _. Defined.

(** [Array.from(accounts.keys()).sort().join(',')] *)
Definition cache_key {Client} (accounts : list (string * Client)) : string :=
  String.concat "," (merge_sort string_le (accounts.*1)).

(** [s || undefined] on an optional string, [n || undefined] on an
    optional number. *)
Definition nonempty (s : option string) : option string :=
  match s with
  | Some text => if String.eqb text "" then None else Some text
  | None => None
  end.

Definition nonzero (n : option Z) : option Z :=
  match n with
  | Some z => if (z =? 0)%Z then None else Some z
  | None => None
  end.

Section Registry.

(** A live client handle, and the mail provider behind it:
    [users_getProfile c] is [None] when the call rejects,
    [users_messages_get c id] tells whether
    [messages.get({ id, format: 'minimal' })] resolves. *)
Context {Client : Type}.
Variable users_getProfile : Client → option profile.
Variable users_messages_get : Client → string → bool.

(** A promise created by [fetchMailboxes] is named by its rank of
    creation; [pending_fetches] holds what it was called with until it
    settles. *)
Record registry : Type := mkRegistry {
  cache : gmap string (list MailboxInfo * Z);
  inFlightRequests : gmap string nat;
  pending_fetches : gmap nat (string * list (string * Client));
  fetches_issued : nat;
  remote_calls : list remote_call
}.

Definition empty_registry : registry := mkRegistry ∅ ∅ ∅ 0 [].

(** What [getMailboxes] hands to its caller before the first [await]
    returns. *)
Inductive mailboxes_promise : Type :=
  | InFlight (p : nat)          (* the promise already registered *)
  | Cached (data : list MailboxInfo)
  | Fetching (p : nat).         (* a new call to [fetchMailboxes] *)

Definition pending_promise (r : mailboxes_promise) : option nat :=
  match r with
  | InFlight p | Fetching p => Some p
  | Cached _ => None
  end.

(** [fetchMailboxes] up to its [await]: one [getProfile] request per
    account is sent. *)
Definition fetchMailboxes (accounts : list (string * Client)) (cacheKey : string)
    (st : registry) : nat * registry :=
  let p := fetches_issued st in
  (p, mkRegistry (cache st) (inFlightRequests st)
        (<[p := (cacheKey, accounts)]> (pending_fetches st))
        (S p)
        (remote_calls st ++ map GetProfile (accounts.*1))).

Definition getMailboxes (accounts : list (string * Client)) (now : Z)
    (st : registry) : mailboxes_promise * registry :=
  let cacheKey := cache_key accounts in
  match inFlightRequests st !! cacheKey with
  | Some inFlight => (InFlight inFlight, st)
  | None =>
      let fresh :=
        match cache st !! cacheKey with
        | Some (data, timestamp) =>
            if (now - timestamp <? CACHE_TTL)%Z then Some data else None
        | None => None
        end in
      match fresh with
      | Some data => (Cached data, st)
      | None =>
          let '(requestPromise, st1) := fetchMailboxes accounts cacheKey st in
          (Fetching requestPromise,
           mkRegistry (cache st1) (<[cacheKey := requestPromise]> (inFlightRequests st1))
             (pending_fetches st1) (fetches_issued st1) (remote_calls st1))
      end
  end.

Definition mailbox_of (entry : string * Client) : MailboxInfo :=
  match users_getProfile entry.2 with
  | Some data =>
      mkMailbox entry.1 (default "unknown" (nonempty (emailAddress data)))
        (nonzero (profile_messagesTotal data)) (nonzero (profile_threadsTotal data))
        (nonempty (profile_historyId data))
  | None => mkMailbox entry.1 "unknown" None None None
  end.

(** The responses of fetch [p] arrive at time [now]: [fetchMailboxes]
    fills the cache, then the [finally] of the caller that issued it
    removes the in-flight entry. *)
Definition fetch_settles (p : nat) (now : Z) (st : registry)
  : option (list MailboxInfo) * registry :=
  match pending_fetches st !! p with
  | None => (None, st)
  | Some (cacheKey, accounts) =>
      let mailboxes := map mailbox_of accounts in
      (Some mailboxes,
       mkRegistry (<[cacheKey := (mailboxes, now)]> (cache st))
         (delete cacheKey (inFlightRequests st))
         (delete p (pending_fetches st))
         (fetches_issued st) (remote_calls st))
  end.

Definition clearCache (st : registry) : registry :=
  mkRegistry ∅ ∅ (pending_fetches st) (fetches_issued st) (remote_calls st).

Definition record_call (c : remote_call) (st : registry) : registry :=
  mkRegistry (cache st) (inFlightRequests st) (pending_fetches st)
    (fetches_issued st) (remote_calls st ++ [c]).

(** The existence probes sent for [messageId] to the given accounts. *)
Definition probes (messageId : string) (accounts : list (string * Client))
  : list remote_call :=
  map (λ entry, MessagesGet entry.1 messageId) accounts.

(** The [for ... of accounts] loop of [findAccountForMessage]. *)
Fixpoint probe_accounts (messageId : string) (accounts : list (string * Client))
    (st : registry) : option (string * Client) * registry :=
  match accounts with
  | [] => (None, st)
  | (account, client) :: rest =>
      let st' := record_call (MessagesGet account messageId) st in
      if users_messages_get client messageId then (Some (account, client), st')
      else probe_accounts messageId rest st'
  end.

Definition findAccountForMessage (messageId : string)
    (accounts : list (string * Client)) (st : registry)
  : option (string * Client) * registry :=
  match accounts with
  | [entry] => (Some entry, st)
  | _ => probe_accounts messageId accounts st
  end.

End Registry.

End MailboxRegistry.

(** ** src/auth/server.ts *)

Module AuthServer.

Definition GMAIL_SCOPES : list string :=
  ["https://www.googleapis.com/auth/gmail.modify";
   "https://www.googleapis.com/auth/gmail.settings.basic";
   "https://mail.google.com/"].

Record AuthStartResult : Type := mkResult {
  success : bool;
  authUrl : option string;
  callbackUrl : option string;
  error : option string
}.

Record credentials : Type := mkCredentials {
  client_id : string;
  client_secret : string;
  redirect_uris : list string
}.

(** The listener created by [startCallbackServer]: the authorization
    flow it serves (target account, redirect URI, client) and whether
    [listen] succeeded. *)
Record http_server : Type := mkServer {
  flow_account : string;
  flow_callbackUrl : string;
  flow_client : credentials;
  listening : bool
}.

(** [setTimeout(callback, delay)]; the only callback is [cleanup]. *)
Record timer : Type := mkTimer { delay_ms : Z }.

Record auth_server : Type := mkAuthServer {
  server : option http_server;
  authTimeout : option timer;
  port : nat;
  auth_stderr : list string
}.

Definition already_running_message : string :=
  "Authentication server is already running. Please complete the current authentication or wait for it to timeout.".

Section Server.

(** The collaborators: [loadCredentials()], the URL that
    [generateAuthUrl] builds, and the outcome of [server.listen(port)]
    ([Throw e] is the ['error'] event). *)
Variable loadCredentials : outcome credentials.
Variable generateAuthUrl : credentials → string → list string → string.
Variable listen : nat → outcome ().

Definition startCallbackServer (authClient : credentials) (callback : string)
    (account : string) : M auth_server () :=
  λ st,
    let timer := mkTimer (5 * 60 * 1000) in
    match listen (port st) with
    | Ok _ =>
        (Ok (),
         mkAuthServer (Some (mkServer account callback authClient true)) (Some timer)
           (port st)
           (auth_stderr st ++ ["Auth callback server listening on port "
                               +:+ pretty (port st) +:+ nl]))
    | Throw err =>
        let st' := mkAuthServer (Some (mkServer account callback authClient false))
                     (Some timer) (port st) (auth_stderr st) in
        if has_code err "EADDRINUSE" then
          (Throw (Error ("Port " +:+ pretty (port st)
                         +:+ " is already in use. Please try again later or use a different port.")),
           st')
        else (Throw err, st')
    | Hang =>
        (Hang,
         mkAuthServer (Some (mkServer account callback authClient false)) (Some timer)
           (port st) (auth_stderr st))
    end.

Definition failure (message : string) : AuthStartResult :=
  mkResult false None None (Some message).

Definition startForMcpTool (account : string) : M auth_server AuthStartResult :=
  st ← gets id;
  match server st with
  | Some _ => mret (failure already_running_message)
  | None =>
      promise_catch
        (credentials ← lift loadCredentials;
         let callback := "http://localhost:" +:+ pretty (port st) +:+ "/oauth2callback" in
         let authClient :=
           mkCredentials (client_id credentials) (client_secret credentials) [callback] in
         let url := generateAuthUrl authClient callback GMAIL_SCOPES in
         startCallbackServer authClient callback account;;
         mret (mkResult true (Some url) (Some callback) None))
        (λ err, mret (failure (err_message err)))
  end.

(** [cleanup]: cancel the timeout, close the listener. *)
Definition cleanup (st : auth_server) : auth_server :=
  let st1 :=
    match authTimeout st with
    | Some _ => mkAuthServer (server st) None (port st) (auth_stderr st)
    | None => st
    end in
  match server st1 with
  | Some _ =>
      mkAuthServer None (authTimeout st1) (port st1)
        (auth_stderr st1 ++ ["Auth callback server closed" +:+ nl])
  | None => st1
  end.

Definition isRunning (st : auth_server) : bool :=
  match server st with
  | Some _ => true
  | None => false
  end.

Definition stop (st : auth_server) : auth_server := cleanup st.

End Server.

End AuthServer.

(** ** src/handlers/BaseToolHandler.ts *)

Module BaseToolHandler.

Inductive ErrorCode : Type := InvalidRequest | InternalError.

(** [new McpError(code, message)] *)
Record McpError : Type := mkMcpError {
  code : ErrorCode;
  message : string
}.

Definition no_accounts_message : string :=
  "No authenticated accounts available. Please run authentication first using manage-accounts with action "
  +:+ dq +:+ "add" +:+ dq +:+ ".".

Section Handler.

Context {Client : Type}.

(** [accounts.get(key)] on a [Map] held as an association list. *)
Fixpoint map_get (key : string) (accounts : list (string * Client)) : option Client :=
  match accounts with
  | [] => None
  | (k, client) :: rest => if String.eqb k key then Some client else map_get key rest
  end.

(** [Array.from(accounts.keys()).join(', ')] *)
Definition availableAccounts (accounts : list (string * Client)) : string :=
  String.concat ", " (accounts.*1).

Definition normalizeAccountId (accountId : string) : string := toLowerCase accountId.

(** [accountId] is [None] when the argument is [undefined]. *)
Definition getClientForAccount (accountId : option string)
    (accounts : list (string * Client)) : McpError + (Client * string) :=
  if (length accounts =? 0)%nat then inl (mkMcpError InvalidRequest no_accounts_message)
  else
    if truthy_opt (JStr <$> accountId) then
      let normalizedId := normalizeAccountId (default "" accountId) in
      match Paths.validateAccountId normalizedId with
      | Ok _ =>
          match map_get normalizedId accounts with
          | Some client => inr (client, normalizedId)
          | None =>
              inl (mkMcpError InvalidRequest
                     ("Account " +:+ dq +:+ normalizedId +:+ dq
                      +:+ " not found. Available accounts: "
                      +:+ availableAccounts accounts))
          end
      | Throw error => inl (mkMcpError InvalidRequest (err_message error))
      | Hang => inl (mkMcpError InvalidRequest "Invalid account ID")
      end
    else
      match accounts with
      | [(accId, client)] => inr (client, accId)
      | _ =>
          inl (mkMcpError InvalidRequest
                 ("Multiple accounts available (" +:+ availableAccounts accounts
                  +:+ "). You must specify the 'account' parameter to indicate which account to use."))
      end.

(** [accounts.get(sortedAccountIds[0])] is [accounts.get(undefined)]
    when there is no first id, which is never a client. *)
Definition getClientForAccountOrFirst (accountId : option string)
    (accounts : list (string * Client)) : McpError + (Client * string) :=
  if (length accounts =? 0)%nat then inl (mkMcpError InvalidRequest no_accounts_message)
  else
    if truthy_opt (JStr <$> accountId) then
      let normalizedId := normalizeAccountId (default "" accountId) in
      match Paths.validateAccountId normalizedId with
      | Ok _ =>
          match map_get normalizedId accounts with
          | Some client => inr (client, normalizedId)
          | None =>
              inl (mkMcpError InvalidRequest
                     ("Account " +:+ dq +:+ normalizedId +:+ dq
                      +:+ " not found. Available accounts: "
                      +:+ availableAccounts accounts))
          end
      | Throw error => inl (mkMcpError InvalidRequest (err_message error))
      | Hang => inl (mkMcpError InvalidRequest "Invalid account ID")
      end
    else
      let sortedAccountIds :=
        @merge_sort _ MailboxRegistry.string_le MailboxRegistry.string_le_dec (accounts.*1) in
      match sortedAccountIds with
      | firstAccountId :: _ =>
          match map_get firstAccountId accounts with
          | Some client => inr (client, firstAccountId)
          | None => inl (mkMcpError InternalError "Failed to retrieve OAuth client")
          end
      | [] => inl (mkMcpError InternalError "Failed to retrieve OAuth client")
      end.

(** The [account] argument of a tool: [string | string[] | undefined]. *)
Inductive account_arg : Type :=
  | NoAccount
  | OneAccount (accountId : string)
  | ManyAccounts (accountIds : list string).

Definition normalizeAccountIds (accountIds : account_arg) : list string :=
  match accountIds with
  | NoAccount => []
  | OneAccount accountId => if String.eqb accountId "" then [] else [accountId]
  | ManyAccounts ids => ids
  end.

(** [result.set(key, client)]: a key already present keeps its place. *)
Fixpoint map_set (key : string) (client : Client) (result : list (string * Client))
  : list (string * Client) :=
  match result with
  | [] => [(key, client)]
  | (k, c) :: rest =>
      if String.eqb k key then (k, client) :: rest else (k, c) :: map_set key client rest
  end.

(** The [for (const id of ids)] loop of [getClientsForAccounts]. *)
Fixpoint select_accounts (ids : list string) (accounts result : list (string * Client))
  : McpError + list (string * Client) :=
  match ids with
  | [] => inr result
  | id :: rest =>
      let normalizedId := normalizeAccountId id in
      match Paths.validateAccountId normalizedId with
      | Ok _ =>
          match map_get normalizedId accounts with
          | Some client => select_accounts rest accounts (map_set normalizedId client result)
          | None =>
              inl (mkMcpError InvalidRequest
                     ("Account " +:+ dq +:+ normalizedId +:+ dq
                      +:+ " not found. Available accounts: "
                      +:+ availableAccounts accounts))
          end
      | Throw error => inl (mkMcpError InvalidRequest (err_message error))
      | Hang => inl (mkMcpError InvalidRequest "Invalid account ID")
      end
  end.

Definition getClientsForAccounts (accountIds : account_arg)
    (accounts : list (string * Client)) : McpError + list (string * Client) :=
  if (length accounts =? 0)%nat then inl (mkMcpError InvalidRequest no_accounts_message)
  else
    let ids := normalizeAccountIds accountIds in
    if (length ids =? 0)%nat then inr accounts
    else select_accounts ids accounts [].

End Handler.

End BaseToolHandler.

(** ** src/handlers: the tools that act on one message *)

Module MessageHandlers.

Import MailboxRegistry BaseToolHandler.

Section Resolution.

Context {Client : Type}.
Variable users_messages_get : Client → string → bool.

(** The first block of [runTool] in [DeleteEmailHandler],
    [ModifyEmailHandler] and [DownloadAttachmentHandler]: which account
    the request goes to.  [account] is [args.account]. *)
Definition resolveAccount (account : option string) (messageId : string)
    (accounts : list (string * Client)) (st : @registry Client)
  : (McpError + (Client * string)) * @registry Client :=
  if truthy_opt (JStr <$> account) then (getClientForAccount account accounts, st)
  else
    match findAccountForMessage users_messages_get messageId accounts st with
    | (Some (accountId, client), st') => (inr (client, accountId), st')
    | (None, st') => (getClientForAccount None accounts, st')
    end.

End Resolution.

(** *** BatchDeleteEmailsHandler *)

(** A JavaScript number is an IEEE 754 binary64 value: the standard
    library's [spec_float] with a mantissa of 53 bits, and its
    operations rounding to nearest, ties to even.  [number_of_Z] is the
    number that an integer literal or the length of an array denotes. *)
Definition number : Type := SpecFloat.spec_float.

Definition number_of_Z (z : Z) : number := SpecFloat.binary_normalize 53 1024 z 0 false.

(** [x + y] and [x < y] on numbers. *)
Definition number_add (x y : number) : number := SpecFloat.SFadd 53 1024 x y.

Definition number_lessThan (x y : number) : bool := SpecFloat.SFltb x y.

(** [ToBoolean]: [NaN], [+0] and [-0] are the falsy numbers. *)
Definition ToBoolean_number (x : number) : bool :=
  match x with
  | SpecFloat.S754_zero _ | SpecFloat.S754_nan => false
  | _ => true
  end.

(** [ToIntegerOrInfinity]: [NaN] and the zeros give 0, an infinity
    itself, any other number its integer part (truncation towards
    zero). *)
Inductive integer_or_infinity : Type :=
  | MinusInfinity
  | Integer (z : Z)
  | PlusInfinity.

Definition ToIntegerOrInfinity (x : number) : integer_or_infinity :=
  match x with
  | SpecFloat.S754_nan | SpecFloat.S754_zero _ => Integer 0
  | SpecFloat.S754_infinity s => if s then MinusInfinity else PlusInfinity
  | SpecFloat.S754_finite s m e => Integer (SpecFloat.cond_Zopp s (Z.shiftl (Z.pos m) e))
  end.

(** The index that a relative start or end of [slice] stands for in an
    array of [len] elements. *)
Definition relative_index (len : Z) (relative : integer_or_infinity) : Z :=
  match relative with
  | MinusInfinity => 0%Z
  | Integer r => if (r <? 0)%Z then Z.max (len + r) 0 else Z.min r len
  | PlusInfinity => len
  end.

(** [array.slice(start, end)] *)
Definition slice {A : Type} (array : list A) (start stop : number) : list A :=
  let len := Z.of_nat (length array) in
  let k := relative_index len (ToIntegerOrInfinity start) in
  let final := relative_index len (ToIntegerOrInfinity stop) in
  take (Z.to_nat (final - k)) (drop (Z.to_nat k) array).

Record BatchOperationResult : Type := mkBatchResult {
  batch_success : bool;
  successCount : nat;
  failureCount : nat;
  failures : option (list (string * string));
  batch_accountId : string;
  batch_message : string
}.

(** What the loop has done so far: the ids requested, in the order of
    the requests, and the two arrays. *)
Record progress : Type := mkProgress {
  requested : list string;
  successes : list string;
  failed : list (string * string)
}.

Section Batch.

Context {Client : Type}.

(** [gmail.users.messages.delete({ userId: 'me', id })] with the given
    client: [None] when it resolves, the message of the error when it
    rejects. *)
Variable users_messages_delete : Client → string → option string.

(** [Promise.all(batch.map(..))]: one request per id of the batch.  The
    requests of a batch run concurrently; the arrays are filled here in
    the order of the batch. *)
Definition delete_batch (client : Client) (batch : list string) (so_far : progress)
  : progress :=
  foldl (λ acc messageId,
           match users_messages_delete client messageId with
           | None =>
               mkProgress (requested acc ++ [messageId]) (successes acc ++ [messageId])
                 (failed acc)
           | Some error =>
               mkProgress (requested acc ++ [messageId]) (successes acc)
                 (failed acc ++ [(messageId, error)])
           end)
        so_far batch.

(** [for (let i = 0; i < messageIds.length; i += batchSize)], one turn
    per unit of fuel.  The boolean tells whether the loop condition has
    failed, that is whether the loop has ended, within the fuel; the
    progress is what has been done by then. *)
Fixpoint delete_batches (fuel : nat) (client : Client) (messageIds : list string)
    (batchSize i : number) (so_far : progress) : bool * progress :=
  match fuel with
  | 0 => (false, so_far)
  | S fuel' =>
      if number_lessThan i (number_of_Z (Z.of_nat (length messageIds))) then
        let batch := slice messageIds i (number_add i batchSize) in
        delete_batches fuel' client messageIds batchSize (number_add i batchSize)
          (delete_batch client batch so_far)
      else (true, so_far)
  end.

(** [args.batchSize || 50]; [batchSize] is [None] when the argument is
    [undefined], and a number otherwise, as [BatchDeleteEmailsArgs] has
    it. *)
Definition effective_batchSize (batchSize : option number) : number :=
  match batchSize with
  | Some n => if ToBoolean_number n then n else number_of_Z 50
  | None => number_of_Z 50
  end.

(** [BatchDeleteEmailsHandler.runTool]: the response, and the ids whose
    deletion was requested; [None] when the loop does not end within the
    fuel. *)
Definition BatchDeleteEmailsHandler_runTool (fuel : nat) (account : option string)
    (messageIds : list string) (batchSize : option number)
    (accounts : list (string * Client))
  : option (McpError + BatchOperationResult * list string) :=
  match getClientForAccount account accounts with
  | inl error => Some (inl error)
  | inr (client, accountId) =>
      match delete_batches fuel client messageIds (effective_batchSize batchSize)
              (number_of_Z 0) (mkProgress [] [] []) with
      | (false, _) => None
      | (true, final) =>
          Some (inr (mkBatchResult
                       (length (failed final) =? 0)%nat
                       (length (successes final))
                       (length (failed final))
                       (if (0 <? length (failed final))%nat then Some (failed final) else None)
                       accountId
                       ("Batch delete complete: " +:+ pretty (length (successes final))
                        +:+ " succeeded, " +:+ pretty (length (failed final)) +:+ " failed"),
                     requested final))
      end
  end.

End Batch.

(** *** Attachments: ReadEmailHandler and DownloadAttachmentHandler *)

Record part_body : Type := mkBody {
  attachmentId : option string;
  body_size : option Z;
  body_data : option string
}.

Inductive GmailMessagePart : Type :=
  | Part (mimeType filename : option string) (body : option part_body)
         (parts : option (list GmailMessagePart)).

Record EmailAttachment : Type := mkAttachment {
  attachment_id : string;
  attachment_filename : string;
  attachment_mimeType : string;
  attachment_size : Z
}.

(** [s || fallback] on an optional string. *)
Definition string_or (s : option string) (fallback : string) : string :=
  match s with
  | Some text => if String.eqb text "" then fallback else text
  | None => fallback
  end.

(** The first statement of [processAttachmentParts]: what a part with a
    truthy [body.attachmentId] pushes for itself. *)
Definition own_attachment (mimeType filename : option string) (body : option part_body)
  : list EmailAttachment :=
  match body with
  | Some b =>
      match attachmentId b with
      | Some id =>
          if String.eqb id "" then []
          else [mkAttachment id (string_or filename ("attachment-" +:+ id))
                  (string_or mimeType "application/octet-stream")
                  (default 0%Z (body_size b))]
      | None => []
      end
  | None => []
  end.

(** [processAttachmentParts] of [extractAttachments], returning what it
    pushes: the part itself, then its subparts from left to right. *)
Fixpoint processAttachmentParts (part : GmailMessagePart) : list EmailAttachment :=
  match part with
  | Part mimeType filename body parts =>
      own_attachment mimeType filename body
      ++ match parts with
         | Some subparts => concat (map processAttachmentParts subparts)
         | None => []
         end
  end.

(** [extractAttachments(response.data.payload)]; the payload may be
    missing. *)
Definition extractAttachments (messagePart : option GmailMessagePart)
  : list EmailAttachment :=
  match messagePart with
  | Some part => processAttachmentParts part
  | None => []
  end.

(** [findAttachment] of [DownloadAttachmentHandler.runTool], for the
    requested [args.attachmentId]. *)
Fixpoint findAttachment (wanted : string) (part : GmailMessagePart) : option string :=
  match part with
  | Part mimeType filename body parts =>
      let here :=
        match body with
        | Some b =>
            match attachmentId b with
            | Some id => String.eqb id wanted
            | None => false
            end
        | None => false
        end in
      if here then Some (string_or filename ("attachment-" +:+ wanted))
      else
        match parts with
        | Some subparts =>
            (fix first_found (subparts : list GmailMessagePart) : option string :=
               match subparts with
               | [] => None
               | subpart :: rest =>
                   match findAttachment wanted subpart with
                   | Some found =>
                       if String.eqb found "" then first_found rest else Some found
                   | None => first_found rest
                   end
               end) subparts
        | None => None
        end
  end.

End MessageHandlers.

(** ** Sample states *)

Module Examples.

Import TokenManager.

(** A [TokenManager] for account [normal] over the given token file, on
    a writable file system. *)
Definition manager (f : file) : tm :=
  mkTm f FAbsent true [] [] "/home/u/.config/gmail-mcp/tokens.json"
    "/home/u/.gmail-mcp/credentials.json" "normal" (JObj ∅) ∅ false.

Definition full_record : json :=
  JObj {[ "access_token" := JStr "ya29.old"; "refresh_token" := JStr "1//refresh" ]}.

(** [{ "normal": { access_token, refresh_token } }] *)
Definition one_account : tm :=
  manager (FContent (JsonText (JObj {[ "normal" := full_record ]}))).

(** A refreshed access token, without a refresh token. *)
Definition access_only : gmap string json :=
  {[ "access_token" := JStr "ya29.new" ]}.

(** [{ "refresh_token": { access_token, refresh_token } }]: one account,
    whose identifier is [refresh_token]. *)
Definition account_named_refresh_token : tm :=
  manager (FContent (JsonText (JObj {[ "refresh_token" := full_record ]}))).

(** The same store on a file system that refuses writes. *)
Definition read_only_store : tm :=
  mkTm (FContent (JsonText (JObj {[ "normal" := full_record ]}))) FAbsent false [] []
    "/home/u/.config/gmail-mcp/tokens.json" "/home/u/.gmail-mcp/credentials.json"
    "normal" (JObj ∅) ∅ false.

(** The same store, in a manager that still holds a handle for [work]. *)
Definition handle_for_work : tm :=
  with_accounts {[ "work" := full_record ]} one_account.

(** A store whose record for [work] has lost its access token, in a
    manager that holds a handle for [work]. *)
Definition work_without_access_token : tm :=
  with_accounts {[ "work" := full_record ]}
    (manager (FContent (JsonText (JObj
       {[ "normal" := full_record;
          "work" := JObj {[ "refresh_token" := JStr "1//other" ]} ]})))).

(** No token file yet, and the single-account file of an older version
    at the legacy path. *)
Definition legacy_only : tm :=
  mkTm FAbsent (FContent (JsonText full_record)) true [] []
    "/home/u/.config/gmail-mcp/tokens.json" "/home/u/.gmail-mcp/credentials.json"
    "normal" (JObj ∅) ∅ false.

(** A store with the records of two accounts, in a manager for
    [normal] whose client has no credentials yet. *)
Definition two_accounts : tm :=
  manager (FContent (JsonText (JObj
    {[ "normal" := full_record;
       "work" := JObj {[ "access_token" := JStr "ya29.work" ]} ]}))).

(** A token file that is not JSON. *)
Definition corrupted : tm :=
  manager (FContent (Unparseable "Unexpected token n in JSON at position 1")).

(** The legacy single-account file. *)
Definition legacy : tm := manager (FContent (JsonText full_record)).

Definition two_mailboxes : list (string * bool) := [("a", false); ("b", true)].

(** An authorization session waiting for the callback of account [home]. *)
Definition session_for_home : AuthServer.auth_server :=
  AuthServer.mkAuthServer
    (Some (AuthServer.mkServer "home" "http://localhost:3000/oauth2callback"
             (AuthServer.mkCredentials "id" "secret"
                ["http://localhost:3000/oauth2callback"]) true))
    (Some (AuthServer.mkTimer (5 * 60 * 1000))) 3000
    ["Auth callback server listening on port 3000" +:+ nl].

(** A message of two parts: the text, and a PDF that comes without a
    file name. *)
Definition message_with_attachment : MessageHandlers.GmailMessagePart :=
  MessageHandlers.Part (Some "multipart/mixed") None None
    (Some [MessageHandlers.Part (Some "text/plain") None
             (Some (MessageHandlers.mkBody None (Some 5%Z) (Some "aGVsbG8="))) None;
           MessageHandlers.Part (Some "application/pdf") (Some "")
             (Some (MessageHandlers.mkBody (Some "att-1") (Some 1024%Z) None)) None]).

(** Three writes: the second one fails. *)
Definition three_writes : list (Async ()) :=
  [writeFile TokenPath (JsonText (JNum 1));
   throw (Error "disk full");
   (text ← readFile TokenPath; writeFile LegacyPath text)].

End Examples.

(** ** Running the monadic code in proofs *)

Ltac run :=
  unfold TokenManager.loadMultiAccountTokens, TokenManager.saveMultiAccountTokens,
    TokenManager.await_enqueueTokenWrite, TokenManager.enqueueTokenWrite,
    TokenManager.current_writeQueue, TokenManager.write_tokens,
    TokenManager.ensureTokenDirectoryExists, TokenManager.readFile,
    TokenManager.writeFile, TokenManager.unlink, TokenManager.access,
    TokenManager.JSON_parse, TokenManager.JSON_stringify, TokenManager.ENOENT,
    TokenManager.EACCES, TokenManager.record_fs, TokenManager.stderr_write,
    TokenManager.setCredentials,
    promise_catch, never, resolve, throw, lift, gets, modify,
    mbind, M_bind, mret, M_ret;
  cbn.

(** * Properties *)

(** ** Account identifiers *)


Lemma empty_string_eqb (s : string) :
  String.eqb s "" || (String.length s =? 0)%nat = false ↔ s ≠ "".
Proof.
  destruct s as [| c s]; simpl; split; done.
Qed.

(** What [validateAccountId] accepts, in one boolean. *)
Lemma validateAccountId_spec (accountId : string) :
  Paths.validateAccountId accountId =
    if bool_decide (accountId ≠ "")
       && negb (bool_decide (accountId ∈ Paths.RESERVED_NAMES))
       && Paths.id_regex_test accountId
    then Ok accountId
    else Throw (if bool_decide (accountId ≠ "")
                   && bool_decide (accountId ∈ Paths.RESERVED_NAMES)
                then Error (Paths.reserved_message accountId)
                else Error Paths.format_message).
Proof.
  unfold Paths.validateAccountId.
  destruct (String.eqb accountId "" || (String.length accountId =? 0)%nat) eqn:Hempty.
  - assert (accountId = "") as ->.
    { destruct accountId; [done | simpl in Hempty; done]. }
    reflexivity.
  - apply empty_string_eqb in Hempty.
    rewrite (bool_decide_eq_true_2 _ Hempty). simpl.
    destruct (bool_decide (accountId ∈ Paths.RESERVED_NAMES)); simpl; [done |].
    by destruct (Paths.id_regex_test accountId).
Qed.

Lemma validateAccountId_Ok (accountId result : string) :
  Paths.validateAccountId accountId = Ok result →
  result = accountId ∧ accountId ≠ "" ∧ (accountId ∉ Paths.RESERVED_NAMES)
  ∧ Paths.id_regex_test accountId = true.
Proof.
  rewrite validateAccountId_spec.
  destruct (bool_decide (accountId ≠ "")) eqn:H1; simpl; [| by destruct (bool_decide _)].
  destruct (bool_decide (accountId ∈ Paths.RESERVED_NAMES)) eqn:H2; simpl; [done |].
  destruct (Paths.id_regex_test accountId) eqn:H3; [| done].
  intros [= <-]. apply bool_decide_eq_true in H1. apply bool_decide_eq_false in H2.
  done.
Qed.






(** Conversely every other string is accepted and returned unchanged. *)
Lemma validateAccountId_accepts (accountId : string) :
  accountId ≠ "" → (String.length accountId ≤ 64)%nat →
  (∀ c, c ∈ list_ascii_of_string accountId → Paths.id_char c = true) →
  accountId ∉ Paths.RESERVED_NAMES →
  Paths.validateAccountId accountId = Ok accountId.
Proof.
  intros Hne Hlen Hclass Hres. rewrite validateAccountId_spec.
  rewrite (bool_decide_eq_true_2 _ Hne), (bool_decide_eq_false_2 _ Hres). simpl.
  assert (Paths.id_regex_test accountId = true) as ->; [| done].
  unfold Paths.id_regex_test. repeat (apply andb_true_intro; split).
  - apply Nat.leb_le. destruct accountId; [done | simpl; lia].
  - by apply Nat.leb_le.
  - apply forallb_forall. intros c Hc. by apply Hclass, list_elem_of_In.
Qed.

(** The identifiers of the spec's examples. *)
Example validateAccountId_examples :
  Paths.validateAccountId "work" = Ok "work"
  ∧ Paths.validateAccountId "refresh_token" = Ok "refresh_token"
  ∧ Paths.validateAccountId "con" = Throw (Error (Paths.reserved_message "con"))
  ∧ Paths.validateAccountId "Work!" = Throw (Error Paths.format_message)
  ∧ Paths.validateAccountId "" = Throw (Error Paths.format_message).
Proof. repeat split; reflexivity. Qed.

(** [RESERVED_NAMES] stops at [com4] and [lpt3]. *)
Example validateAccountId_com5 : Paths.validateAccountId "com5" = Ok "com5".
Proof. reflexivity. Qed.

(** An empty string is no identifier for the handlers: it is treated as
    an omitted argument and never reaches the validation. *)
Example getClientForAccount_empty_string :
  BaseToolHandler.getClientForAccount (Some "") [("work", true)] = inr (true, "work").
Proof. reflexivity. Qed.

(** ** Locating the account of a message *)

Section Locator.

Import MailboxRegistry.
Context {Client : Type}.
Variable users_messages_get : Client → string → bool.

(** The loop stops at the first account whose probe succeeds, having
    probed exactly the accounts before it and that one; it gives up only
    when all have been probed in vain. *)
Lemma probe_accounts_first (messageId : string) (accounts : list (string * Client))
    (st : @registry Client) :
  match probe_accounts users_messages_get messageId accounts st with
  | (Some entry, st') =>
      ∃ before after,
        accounts = before ++ entry :: after
        ∧ Forall (λ e, users_messages_get e.2 messageId = false) before
        ∧ users_messages_get entry.2 messageId = true
        ∧ remote_calls st' = remote_calls st ++ MailboxRegistry.probes messageId (before ++ [entry])
  | (None, st') =>
      Forall (λ e, users_messages_get e.2 messageId = false) accounts
      ∧ remote_calls st' = remote_calls st ++ MailboxRegistry.probes messageId accounts
  end.
Proof.
  revert st. induction accounts as [| [account client] rest IH]; intros st; simpl.
  - split; [constructor | by rewrite app_nil_r].
  - destruct (users_messages_get client messageId) eqn:Hprobe.
    + exists [], rest. simpl. repeat split; [constructor | done ].
    + specialize (IH (record_call (MessagesGet account messageId) st)).
      destruct (probe_accounts _ _ rest _) as [[entry |] st'].
      * destruct IH as (before & after & -> & Hbefore & Hentry & Hcalls).
        exists ((account, client) :: before), after. repeat split; [| done |].
        -- by constructor.
        -- rewrite Hcalls. simpl. by rewrite <- app_assoc.
      * destruct IH as [Hall Hcalls]. split; [by constructor |].
        rewrite Hcalls. simpl. by rewrite <- app_assoc.
Qed.

End Locator.

(** C6 (amended).  On a map that does not hold exactly one account,
    [findAccountForMessage] probes the accounts one after the other in
    iteration order and returns the first whose probe succeeds, and it
    returns not-found only after every account has been probed in vain. *)
Theorem findAccountForMessage_probes_in_order {Client : Type}
    (users_messages_get : Client → string → bool) (messageId : string)
    (accounts : list (string * Client)) (st : @MailboxRegistry.registry Client) :
  length accounts ≠ 1 →
  match MailboxRegistry.findAccountForMessage users_messages_get messageId accounts st with
  | (Some entry, st') =>
      ∃ before after,
        accounts = before ++ entry :: after
        ∧ Forall (λ e, users_messages_get e.2 messageId = false) before
        ∧ users_messages_get entry.2 messageId = true
        ∧ MailboxRegistry.remote_calls st' =
            MailboxRegistry.remote_calls st ++ MailboxRegistry.probes messageId (before ++ [entry])
  | (None, st') =>
      Forall (λ e, users_messages_get e.2 messageId = false) accounts
      ∧ MailboxRegistry.remote_calls st' =
          MailboxRegistry.remote_calls st ++ MailboxRegistry.probes messageId accounts
  end.
Proof.
  intros Hsize.
  assert (MailboxRegistry.findAccountForMessage users_messages_get messageId accounts st
          = MailboxRegistry.probe_accounts users_messages_get messageId accounts st) as ->.
  { destruct accounts as [| e [| e' rest]]; [done | | done]. by destruct Hsize. }
  apply probe_accounts_first.
Qed.

Lemma findAccountForMessage_probes_in_order_witness :
  MailboxRegistry.findAccountForMessage (λ holds _, holds) "42" Examples.two_mailboxes
    MailboxRegistry.empty_registry
  = (Some ("b", true),
     MailboxRegistry.mkRegistry ∅ ∅ ∅ 0
       [MailboxRegistry.MessagesGet "a" "42"; MailboxRegistry.MessagesGet "b" "42"])
  ∧ ∃ before after,
      Examples.two_mailboxes = before ++ ("b", true) :: after
      ∧ Forall (λ e : string * bool, e.2 = false) before.
Proof.
  split; [reflexivity |].
  pose proof (findAccountForMessage_probes_in_order (λ (holds : bool) (_ : string), holds)
                "42" Examples.two_mailboxes MailboxRegistry.empty_registry) as H.
  simpl in H. destruct H as (before & after & Heq & Hbefore & _); [lia |].
  by exists before, after.
Defined.

(** C6 as stated fails on a map of one account: the account is returned
    although its probe would report that the message does not exist. *)
Lemma findAccountForMessage_lone_account_unprobed :
  ¬ (∀ (users_messages_get : () → string → bool) (messageId : string)
       (accounts : list (string * ())) (st : MailboxRegistry.registry) entry,
       (MailboxRegistry.findAccountForMessage users_messages_get messageId accounts st).1
         = Some entry →
       users_messages_get entry.2 messageId = true).
Proof.
  intros Hclaim.
  specialize (Hclaim (λ _ _, false) "42" [("a", ())] MailboxRegistry.empty_registry
                ("a", ()) eq_refl).
  discriminate Hclaim.
Qed.

(** C10.  When the map holds exactly one account, that account and its
    client are returned and the registry, its log of remote calls
    included, is unchanged: no probe is made and not-found is never
    returned, whatever the probe would have answered. *)
Theorem findAccountForMessage_single {Client : Type}
    (users_messages_get : Client → string → bool) (messageId account : string)
    (client : Client) (st : @MailboxRegistry.registry Client) :
  MailboxRegistry.findAccountForMessage users_messages_get messageId [(account, client)] st
  = (Some (account, client), st).
Proof. reflexivity. Qed.

(** ** The mailbox cache *)

Lemma string_leb_trans (a b c : string) :
  String.leb a b = true → String.leb b c = true → String.leb a c = true.
Proof.
  unfold String.leb. revert b c.
  induction a as [| x a IH]; intros [| y b] [| z c]; simpl; try done.
  unfold Ascii.compare.
  destruct (N.compare_spec (N_of_ascii x) (N_of_ascii y)) as [Hxy | Hxy | Hxy];
    [| | done];
    (destruct (N.compare_spec (N_of_ascii y) (N_of_ascii z)) as [Hyz | Hyz | Hyz];
     [| | done]); intros Hab Hbc.
  - rewrite Hxy, Hyz, N.compare_refl. by apply (IH b c).
  - rewrite Hxy. by apply N.compare_lt_iff in Hyz as ->.
  - rewrite <- Hyz. by apply N.compare_lt_iff in Hxy as ->.
  - assert (N_of_ascii x < N_of_ascii z)%N as Hxz by lia.
    by apply N.compare_lt_iff in Hxz as ->.
Qed.

#[local] Instance string_le_trans : Transitive MailboxRegistry.string_le.
Proof. intros a b c. apply string_leb_trans. Qed.

#[local] Instance string_le_antisymm : AntiSymm eq MailboxRegistry.string_le.
Proof. intros a b. apply String.leb_antisym. Qed.

#[local] Instance string_le_total : Total MailboxRegistry.string_le.
Proof. intros a b. apply String.leb_total. Qed.

(** The cache key depends on the set of account ids only, not on the
    order in which the [Map] holds them. *)
Lemma cache_key_permutation {Client : Type} (accounts1 accounts2 : list (string * Client)) :
  accounts1.*1 ≡ₚ accounts2.*1 →
  MailboxRegistry.cache_key accounts1 = MailboxRegistry.cache_key accounts2.
Proof.
  intros Hperm. unfold MailboxRegistry.cache_key. f_equal.
  apply (Sorted_unique MailboxRegistry.string_le).
  - apply (Sorted_merge_sort _).
  - apply (Sorted_merge_sort _).
  - by rewrite !merge_sort_Permutation.
Qed.

(** While a promise is pending for a key, every lookup of that key
    returns this promise and changes nothing. *)
Lemma getMailboxes_shares_pending {Client : Type}
    (accounts1 accounts2 : list (string * Client)) (now1 now2 : Z)
    (st st1 : @MailboxRegistry.registry Client) r (p : nat) :
  accounts1.*1 ≡ₚ accounts2.*1 →
  MailboxRegistry.getMailboxes accounts1 now1 st = (r, st1) →
  MailboxRegistry.pending_promise r = Some p →
  MailboxRegistry.getMailboxes accounts2 now2 st1 = (MailboxRegistry.InFlight p, st1).
Proof.
  intros Hperm Hcall Hp.
  assert (MailboxRegistry.inFlightRequests st1 !! MailboxRegistry.cache_key accounts2
          = Some p) as Hin.
  { rewrite <- (cache_key_permutation _ _ Hperm).
    unfold MailboxRegistry.getMailboxes in Hcall.
    destruct (MailboxRegistry.inFlightRequests st !! _) as [q |] eqn:Hq.
    - injection Hcall as <- <-. simpl in Hp. by injection Hp as <-.
    - destruct (match MailboxRegistry.cache st !! _ with Some _ => _ | None => _ end).
      + injection Hcall as <- <-. discriminate Hp.
      + simpl in Hcall. injection Hcall as <- <-. simpl in *.
        injection Hp as <-. apply lookup_insert_eq. }
  unfold MailboxRegistry.getMailboxes. by rewrite Hin.
Qed.

(** C7.  Starting from a registry with no pending fetch and no fresh
    cache entry for the key, a lookup issues one fetch (one [getProfile]
    request per account) and registers its promise; a second lookup for
    the same account set, made before that fetch settles, receives the
    same promise and sends nothing. *)
Theorem getMailboxes_deduplicates {Client : Type}
    (accounts1 accounts2 : list (string * Client)) (now1 now2 : Z)
    (st : @MailboxRegistry.registry Client) :
  accounts1.*1 ≡ₚ accounts2.*1 →
  MailboxRegistry.inFlightRequests st !! MailboxRegistry.cache_key accounts1 = None →
  (∀ data timestamp,
     MailboxRegistry.cache st !! MailboxRegistry.cache_key accounts1 = Some (data, timestamp) →
     (MailboxRegistry.CACHE_TTL ≤ now1 - timestamp)%Z) →
  ∃ p st1,
    MailboxRegistry.getMailboxes accounts1 now1 st = (MailboxRegistry.Fetching p, st1)
    ∧ MailboxRegistry.getMailboxes accounts2 now2 st1 = (MailboxRegistry.InFlight p, st1)
    ∧ MailboxRegistry.fetches_issued st1 = S (MailboxRegistry.fetches_issued st)
    ∧ MailboxRegistry.remote_calls st1 =
        MailboxRegistry.remote_calls st ++ map MailboxRegistry.GetProfile (accounts1.*1).
Proof.
  intros Hperm Hidle Hstale.
  destruct (MailboxRegistry.getMailboxes accounts1 now1 st) as [r st1] eqn:Hcall.
  assert (r = MailboxRegistry.Fetching (MailboxRegistry.fetches_issued st)
          ∧ MailboxRegistry.fetches_issued st1 = S (MailboxRegistry.fetches_issued st)
          ∧ MailboxRegistry.remote_calls st1 =
              MailboxRegistry.remote_calls st
              ++ map MailboxRegistry.GetProfile (accounts1.*1)) as (-> & Hcount & Hcalls).
  { unfold MailboxRegistry.getMailboxes in Hcall. rewrite Hidle in Hcall.
    destruct (MailboxRegistry.cache st !! _) as [[data timestamp] |] eqn:Hcache.
    - specialize (Hstale data timestamp eq_refl).
      assert ((now1 - timestamp <? MailboxRegistry.CACHE_TTL)%Z = false) as Hlt
        by (apply Z.ltb_ge; lia).
      rewrite Hlt in Hcall. simpl in Hcall. by injection Hcall as <- <-.
    - simpl in Hcall. by injection Hcall as <- <-. }
  exists (MailboxRegistry.fetches_issued st), st1. split; [done |]. split; [| done].
  by eapply getMailboxes_shares_pending.
Qed.

Lemma getMailboxes_deduplicates_witness :
  ∃ p st1,
    MailboxRegistry.getMailboxes [("work", ()); ("home", ())] 1000
      MailboxRegistry.empty_registry = (MailboxRegistry.Fetching p, st1)
    ∧ MailboxRegistry.getMailboxes [("home", ()); ("work", ())] 1001 st1
      = (MailboxRegistry.InFlight p, st1)
    ∧ MailboxRegistry.fetches_issued st1 = 1
    ∧ MailboxRegistry.remote_calls st1 =
        [MailboxRegistry.GetProfile "work"; MailboxRegistry.GetProfile "home"].
Proof.
  apply (getMailboxes_deduplicates [("work", ()); ("home", ())]
           [("home", ()); ("work", ())] 1000 1001 MailboxRegistry.empty_registry).
  - simpl. apply Permutation_swap.
  - reflexivity.
  - intros data timestamp Hcache. discriminate Hcache.
Defined.

(** X16.  Once the fetch has settled, its result is served from the
    cache for the next five minutes, again without a remote call. *)
Lemma getMailboxes_cached_after_fetch {Client : Type}
    (users_getProfile : Client → option MailboxRegistry.profile)
    (accounts : list (string * Client)) (now1 now2 now3 : Z)
    (st : @MailboxRegistry.registry Client) :
  MailboxRegistry.inFlightRequests st !! MailboxRegistry.cache_key accounts = None →
  MailboxRegistry.cache st !! MailboxRegistry.cache_key accounts = None →
  (now3 - now2 < MailboxRegistry.CACHE_TTL)%Z →
  let st1 := (MailboxRegistry.getMailboxes accounts now1 st).2 in
  let settled :=
    MailboxRegistry.fetch_settles users_getProfile (MailboxRegistry.fetches_issued st)
      now2 st1 in
  let mailboxes := map (MailboxRegistry.mailbox_of users_getProfile) accounts in
  settled.1 = Some mailboxes
  ∧ MailboxRegistry.getMailboxes accounts now3 settled.2
    = (MailboxRegistry.Cached mailboxes, settled.2).
Proof.
  intros Hidle Hmiss Hfresh.
  assert (MailboxRegistry.getMailboxes accounts now1 st =
          (MailboxRegistry.Fetching (MailboxRegistry.fetches_issued st),
           MailboxRegistry.mkRegistry (MailboxRegistry.cache st)
             (<[MailboxRegistry.cache_key accounts := MailboxRegistry.fetches_issued st]>
                (MailboxRegistry.inFlightRequests st))
             (<[MailboxRegistry.fetches_issued st :=
                  (MailboxRegistry.cache_key accounts, accounts)]>
                (MailboxRegistry.pending_fetches st))
             (S (MailboxRegistry.fetches_issued st))
             (MailboxRegistry.remote_calls st
              ++ map MailboxRegistry.GetProfile (accounts.*1)))) as Hcall.
  { unfold MailboxRegistry.getMailboxes. by rewrite Hidle, Hmiss. }
  cbn zeta. rewrite Hcall. cbn [snd].
  unfold MailboxRegistry.fetch_settles. cbn [MailboxRegistry.pending_fetches].
  rewrite lookup_insert_eq. cbn [fst snd]. split; [done |].
  unfold MailboxRegistry.getMailboxes.
  cbn [MailboxRegistry.inFlightRequests MailboxRegistry.cache].
  rewrite lookup_delete_eq, lookup_insert_eq.
  by rewrite (proj2 (Z.ltb_lt _ _) Hfresh).
Qed.

(** ** The write queue *)

Section WriteQueue.

Import TokenManager.

Lemma resolve_never_rejects : never_rejects resolve.
Proof. intros s e. discriminate. Qed.

(** One call: [pendingWrite] is the operation started when the queue has
    settled, the new queue is the old one followed by the operation with
    its failure swallowed. *)
Lemma enqueueTokenWrite_step (writeQueue operation : Async ()) (s : tm) :
  never_rejects writeQueue →
  (enqueueTokenWrite writeQueue operation).1 s =
    match writeQueue s with
    | (Ok _, s') => operation s'
    | (_, s') => (Hang, s')
    end
  ∧ (enqueueTokenWrite writeQueue operation).2 s =
    match writeQueue s with
    | (Ok _, s') => run_in_order [operation] s'
    | (_, s') => (Hang, s')
    end.
Proof.
  intros Hq. specialize (Hq s).
  unfold enqueueTokenWrite, promise_catch, mbind, M_bind, stderr_write, modify, throw, mret, M_ret.
  simpl. destruct (writeQueue s) as [[[] | e |] s'] eqn:Hrun; simpl.
  - split; [done |]. by destruct (operation s') as [[[] | e |] s''].
  - by destruct (Hq e).
  - done.
Qed.

Lemma enqueueTokenWrite_never_rejects (writeQueue operation : Async ()) :
  never_rejects writeQueue →
  never_rejects (enqueueTokenWrite writeQueue operation).2.
Proof.
  intros Hq s e. destruct (enqueueTokenWrite_step writeQueue operation s Hq) as [_ ->].
  destruct (writeQueue s) as [[[] | e' |] s']; simpl; [| done | done].
  by destruct (operation s') as [[[] | e' |] s''].
Qed.

Lemma enqueue_all_cons (writeQueue first : Async ()) (rest : list (Async ())) :
  enqueue_all writeQueue (first :: rest) =
    ((enqueueTokenWrite writeQueue first).1
       :: (enqueue_all (enqueueTokenWrite writeQueue first).2 rest).1,
     (enqueue_all (enqueueTokenWrite writeQueue first).2 rest).2).
Proof.
  cbn [enqueue_all]. destruct (enqueueTokenWrite writeQueue first) as [p q].
  cbn [fst snd]. by destruct (enqueue_all q rest).
Qed.

Lemma enqueue_all_spec (operations : list (Async ())) :
  ∀ (writeQueue : Async ()) (s : tm),
    never_rejects writeQueue →
    (enqueue_all writeQueue operations).2 s =
      match writeQueue s with
      | (Ok _, s') => run_in_order operations s'
      | (_, s') => (Hang, s')
      end
    ∧ ∀ k operation,
        operations !! k = Some operation →
        ∃ pendingWrite,
          (enqueue_all writeQueue operations).1 !! k = Some pendingWrite
          ∧ pendingWrite s =
              match writeQueue s with
              | (Ok _, s') => started_after (take k operations) operation s'
              | (_, s') => (Hang, s')
              end.
Proof.
  induction operations as [| first rest IH]; intros writeQueue s Hq.
  - split; [| by intros k operation Hk].
    simpl. specialize (Hq s).
    destruct (writeQueue s) as [[[] | e |] s']; [done | by destruct (Hq e) | done].
  - pose proof (enqueueTokenWrite_step writeQueue first s Hq) as [Hpending Hqueue].
    pose proof (enqueueTokenWrite_never_rejects writeQueue first Hq) as Hq'.
    specialize (IH (enqueueTokenWrite writeQueue first).2 s Hq') as [IHq IHp].
    rewrite enqueue_all_cons. cbn [fst snd]. split.
    + rewrite IHq, Hqueue. cbn [run_in_order].
      destruct (writeQueue s) as [[[] | e |] s']; [| done | done].
      by destruct (first s') as [[[] | e |] s''].
    + intros [| k] operation Hk.
      * injection Hk as <-. eexists. split; [reflexivity |].
        rewrite Hpending. by destruct (writeQueue s) as [[[] | e |] s'].
      * destruct (IHp k operation Hk) as (pw & Hpw & Hrun).
        exists pw. split; [exact Hpw |]. rewrite Hrun, Hqueue.
        unfold started_after. cbn [take run_in_order].
        destruct (writeQueue s) as [[[] | e |] s']; [| done | done].
        by destruct (first s') as [[[] | e |] s''].
Qed.

(** When every operation settles, by success or by failure, the whole
    sequence completes: no failure keeps a later operation from running. *)
Lemma run_in_order_settles (operations : list (Async ())) (s : tm) :
  Forall (λ operation : Async (), ∀ s', settled (operation s').1 = true) operations →
  (run_in_order operations s).1 = Ok ().
Proof.
  intros Hall. revert s.
  induction Hall as [| operation rest Hop _ IH]; intros s; [done |].
  cbn [run_in_order]. specialize (Hop s).
  destruct (operation s) as [[[] | e |] s']; [apply IH | apply IH | discriminate Hop].
Qed.

End WriteQueue.

(** C2.  Operations enqueued one after the other on a settled queue run
    in the order of their enqueueing: the queue as a whole behaves as
    [run_in_order], the promise returned for the k-th operation is that
    operation started in the state the k earlier ones left once all of
    them had settled, and an earlier failure only adds a line to
    [stderr]. *)
Theorem enqueueTokenWrite_serializes (operations : list (TokenManager.Async ()))
    (s : TokenManager.tm) :
  (TokenManager.enqueue_all resolve operations).2 s = TokenManager.run_in_order operations s
  ∧ ∀ k operation,
      operations !! k = Some operation →
      ∃ pendingWrite,
        (TokenManager.enqueue_all resolve operations).1 !! k = Some pendingWrite
        ∧ pendingWrite s = TokenManager.started_after (take k operations) operation s.
Proof.
  destruct (enqueue_all_spec operations resolve s resolve_never_rejects) as [Hq Hp].
  split; [exact Hq |]. exact Hp.
Qed.

(** Three writes enqueued at once on an empty store: the third one,
    enqueued behind a failing one, still runs and reads what the first
    one wrote. *)
Lemma enqueueTokenWrite_serializes_witness :
  (TokenManager.enqueue_all resolve Examples.three_writes).2
    (Examples.manager TokenManager.FAbsent)
  = TokenManager.run_in_order Examples.three_writes (Examples.manager TokenManager.FAbsent)
  ∧ ∃ pendingWrite,
      (TokenManager.enqueue_all resolve Examples.three_writes).1 !! 2 = Some pendingWrite
      ∧ (pendingWrite (Examples.manager TokenManager.FAbsent)).1 = Ok ()
      ∧ TokenManager.legacy_file (pendingWrite (Examples.manager TokenManager.FAbsent)).2
        = TokenManager.FContent (TokenManager.JsonText (JNum 1)).
Proof.
  destruct (enqueueTokenWrite_serializes Examples.three_writes
              (Examples.manager TokenManager.FAbsent)) as [Hqueue Hpending].
  split; [exact Hqueue |].
  destruct (Hpending 2 _ eq_refl) as (pendingWrite & Hlookup & Hrun).
  exists pendingWrite. split; [exact Hlookup |].
  rewrite Hrun. split; reflexivity.
Defined.

(** ** The credential store *)

Section Store.

Import TokenManager.

#[local] Arguments legacy_shape : simpl never.
#[local] Arguments merge_tokens : simpl never.
#[local] Arguments js_or : simpl never.

Lemma legacy_shape_object (fields : gmap string json) :
  legacy_shape (JObj fields) =
    Ok (truthy_opt (fields !! "access_token") || truthy_opt (fields !! "refresh_token")).
Proof.
  unfold legacy_shape. simpl. by destruct (truthy_opt (fields !! "access_token")).
Qed.

Lemma legacy_shape_wrapped (parsed : json) :
  legacy_shape (JObj {[ DEFAULT_ACCOUNT := parsed ]}) = Ok false.
Proof. by rewrite legacy_shape_object. Qed.

(** A file that is not in the legacy shape is returned as it is; only
    the read is recorded. *)
Lemma loadMultiAccountTokens_current (queued : bool) (parsed : json) (st : tm) :
  token_file st = FContent (JsonText parsed) →
  legacy_shape parsed = Ok false →
  loadMultiAccountTokens queued st
  = (Ok parsed, with_fs_log (fs_log st ++ [EvReadFile TokenPath]) st).
Proof.
  intros Hfile Hshape. run. rewrite Hfile. cbn. by rewrite Hshape.
Qed.

(** From inside an operation of the write queue, the conversion waits for
    the queue, which waits for that operation: the load never returns,
    and nothing is written. *)
Lemma loadMultiAccountTokens_legacy_queued (parsed : json) (st : tm) :
  token_file st = FContent (JsonText parsed) →
  legacy_shape parsed = Ok true →
  loadMultiAccountTokens true st
  = (Hang, with_fs_log (fs_log st ++ [EvReadFile TokenPath]) st).
Proof.
  intros Hfile Hshape. run. rewrite Hfile. cbn. by rewrite Hshape.
Qed.

Lemma loadMultiAccountTokens_absent (queued : bool) (st : tm) :
  token_file st = FAbsent →
  loadMultiAccountTokens queued st
  = (Ok (JObj ∅), with_fs_log (fs_log st ++ [EvReadFile TokenPath]) st).
Proof. intros Hfile. run. by rewrite Hfile. Qed.

Lemma loadMultiAccountTokens_unparseable (queued : bool) (message : string) (st : tm) :
  token_file st = FContent (Unparseable message) →
  loadMultiAccountTokens queued st
  = (Throw (SyntaxError message), with_fs_log (fs_log st ++ [EvReadFile TokenPath]) st).
Proof. intros Hfile. run. by rewrite Hfile. Qed.

(** A token file in the legacy shape (a truthy top-level [access_token]
    or [refresh_token]) is loaded, from outside the write queue and with a
    writable file, as the mapping with the single entry [normal]; that
    mapping is on disk when the load returns, the only calls to [fs] being
    one read, [mkdir] and one write; loading again returns the same
    mapping after one read and no write. *)
Lemma loadMultiAccountTokens_outside_queue (parsed : json) (st : tm) :
  token_file st = FContent (JsonText parsed) →
  legacy_shape parsed = Ok true →
  fs_writable st = true →
  let converted := JObj {[ DEFAULT_ACCOUNT := parsed ]} in
  ∃ st',
    loadMultiAccountTokens false st = (Ok converted, st')
    ∧ token_file st' = FContent (JsonText converted)
    ∧ fs_calls_since st st' = [EvReadFile TokenPath; EvMkdir; EvWriteFile TokenPath]
    ∧ ∃ st'',
        loadMultiAccountTokens false st' = (Ok converted, st'')
        ∧ token_file st'' = token_file st'
        ∧ fs_calls_since st' st'' = [EvReadFile TokenPath].
Proof.
  intros Hfile Hshape Hwritable converted.
  eexists. split.
  { run. rewrite Hfile. cbn. rewrite Hshape. cbn. rewrite Hwritable. cbn.
    reflexivity. }
  split; [reflexivity |].
  split.
  { unfold fs_calls_since. cbn. rewrite <- !app_assoc.
    by rewrite drop_app_length. }
  eexists. split.
  { apply loadMultiAccountTokens_current; [reflexivity |].
    apply legacy_shape_wrapped. }
  split; [reflexivity |].
  unfold fs_calls_since. cbn. by rewrite drop_app_length.
Qed.

(** An operation of the write queue that starts with a load
    ([saveTokens], [clearTokens], [removeAccount], the ['tokens']
    listener) never settles on a file in the legacy shape, and leaves the
    file as it was. *)
Lemma await_enqueueTokenWrite_legacy_shape (parsed : json) (st : tm)
    (continuation : json → Async ()) :
  token_file st = FContent (JsonText parsed) →
  legacy_shape parsed = Ok true →
  await_enqueueTokenWrite false
    (multiAccountTokens ← loadMultiAccountTokens true; continuation multiAccountTokens) st
  = (Hang, with_fs_log (fs_log st ++ [EvReadFile TokenPath]) st).
Proof.
  intros Hfile Hshape.
  unfold await_enqueueTokenWrite, enqueueTokenWrite, current_writeQueue.
  run. rewrite Hfile. cbn. by rewrite Hshape.
Qed.

(** C3.  A token file in the legacy shape (a truthy top-level
    [access_token] or [refresh_token]) is converted by a load made outside
    the write queue, with a writable file: the load returns the mapping
    with the single entry [normal], that mapping is on disk when it
    returns (one read, [mkdir], one write), and loading again returns the
    same mapping after one read and no write.  A load made inside an
    operation of the write queue does not: the conversion waits for the
    queue, which waits for that operation, so the load never returns and
    the file is left in the legacy shape after one read; [saveTokens],
    which loads that way, never returns either and saves nothing. *)
Theorem loadMultiAccountTokens_converts_unless_queued (parsed : json) (st : tm) :
  token_file st = FContent (JsonText parsed) →
  legacy_shape parsed = Ok true →
  fs_writable st = true →
  let converted := JObj {[ DEFAULT_ACCOUNT := parsed ]} in
  (∃ st',
     loadMultiAccountTokens false st = (Ok converted, st')
     ∧ token_file st' = FContent (JsonText converted)
     ∧ fs_calls_since st st' = [EvReadFile TokenPath; EvMkdir; EvWriteFile TokenPath]
     ∧ ∃ st'',
         loadMultiAccountTokens false st' = (Ok converted, st'')
         ∧ token_file st'' = token_file st'
         ∧ fs_calls_since st' st'' = [EvReadFile TokenPath])
  ∧ (∃ st',
       loadMultiAccountTokens true st = (Hang, st')
       ∧ token_file st' = token_file st
       ∧ fs_calls_since st st' = [EvReadFile TokenPath])
  ∧ ∀ (tokens : gmap string json) (email : option string),
      ∃ st',
        saveTokens tokens email st = (Hang, st')
        ∧ token_file st' = token_file st
        ∧ oauth2Client st' = oauth2Client st
        ∧ fs_calls_since st st' = [EvReadFile TokenPath].
Proof.
  intros Hfile Hshape Hwritable converted.
  split; [by apply loadMultiAccountTokens_outside_queue |].
  split.
  { eexists. split; [by apply (loadMultiAccountTokens_legacy_queued parsed) |].
    split; [reflexivity |].
    unfold fs_calls_since. cbn. by rewrite drop_app_length. }
  intros tokens email. eexists. split.
  { unfold saveTokens, promise_catch, save_write.
    unfold mbind at 1, M_bind at 1.
    rewrite (await_enqueueTokenWrite_legacy_shape parsed st _ Hfile Hshape).
    reflexivity. }
  split; [reflexivity |]. split; [reflexivity |].
  unfold fs_calls_since. cbn. by rewrite drop_app_length.
Qed.

Lemma loadMultiAccountTokens_converts_unless_queued_witness :
  (∃ st',
     loadMultiAccountTokens false Examples.legacy
     = (Ok (JObj {[ "normal" := Examples.full_record ]}), st')
     ∧ token_file st' =
         FContent (JsonText (JObj {[ "normal" := Examples.full_record ]}))
     ∧ fs_calls_since Examples.legacy st' =
         [EvReadFile TokenPath; EvMkdir; EvWriteFile TokenPath]
     ∧ ∃ st'',
         loadMultiAccountTokens false st'
         = (Ok (JObj {[ "normal" := Examples.full_record ]}), st'')
         ∧ token_file st'' = token_file st'
         ∧ fs_calls_since st' st'' = [EvReadFile TokenPath])
  ∧ (∃ st',
       loadMultiAccountTokens true Examples.legacy = (Hang, st')
       ∧ token_file st' = token_file Examples.legacy
       ∧ fs_calls_since Examples.legacy st' = [EvReadFile TokenPath])
  ∧ ∀ (tokens : gmap string json) (email : option string),
      ∃ st',
        saveTokens tokens email Examples.legacy = (Hang, st')
        ∧ token_file st' = token_file Examples.legacy
        ∧ oauth2Client st' = oauth2Client Examples.legacy
        ∧ fs_calls_since Examples.legacy st' = [EvReadFile TokenPath].
Proof.
  exact (loadMultiAccountTokens_converts_unless_queued Examples.full_record
           Examples.legacy eq_refl eq_refl eq_refl).
Defined.


Lemma js_or_some (a : option json) (d : json) :
  ∃ v, js_or a (Some d) = Some v ∧ (truthy d = true → truthy v = true).
Proof.
  unfold js_or. destruct a as [j |]; simpl; [destruct (truthy j) eqn:Hj |]; eauto.
Qed.

(** The listener's operation, on a store that is an object not in the
    legacy shape: the merged record replaces the account's entry. *)
Lemma on_tokens_writes (accountId : string) (newTokens fields : gmap string json)
    (st : tm) :
  token_file st = FContent (JsonText (JObj fields)) →
  legacy_shape (JObj fields) = Ok false →
  fs_writable st = true →
  ∃ updatedTokens,
    merge_tokens (default (JObj ∅) (js_or (fields !! accountId) (Some (JObj ∅)))) newTokens
      = Ok updatedTokens
    ∧ token_file (on_tokens accountId newTokens st).2 =
        FContent (JsonText (JObj (<[accountId := JObj updatedTokens]> fields))).
Proof.
  intros Hfile Hshape Hwritable.
  destruct (js_or_some (fields !! accountId) (JObj ∅)) as (currentTokens & Hcurrent & Htruthy).
  specialize (Htruthy eq_refl). rewrite Hcurrent. cbn [default].
  assert (∃ updatedTokens, merge_tokens currentTokens newTokens = Ok updatedTokens)
    as [updatedTokens Hmerge].
  { unfold merge_tokens. destruct currentTokens; try done; simpl; eauto. }
  exists updatedTokens. split; [done |].
  unfold on_tokens, refresh_write. run.
  rewrite Hfile. cbn. rewrite Hshape. cbn. rewrite Hcurrent. cbn.
  rewrite Hmerge. cbn. rewrite Hwritable. cbn.
  by destruct (node_env_test st).
Qed.


Lemma stored_refresh_token_inv (accountId : string) (rt : json) (st : tm) :
  stored_refresh_token accountId st = Some rt →
  ∃ fields record,
    token_file st = FContent (JsonText (JObj fields))
    ∧ fields !! accountId = Some (JObj record)
    ∧ record !! "refresh_token" = Some rt.
Proof.
  unfold stored_refresh_token, stored_record. intros H.
  destruct (token_file st) as [| | [message | [| | | | fields]]]; try discriminate H.
  destruct (fields !! accountId) as [[| | | | record] |] eqn:Hrecord; try discriminate H.
  by exists fields, record.
Qed.

(** C1 (amended).  When the store holds a record with a refresh token
    for an account and the ['tokens'] listener of that account receives
    an update without one, the record in the store still holds that
    refresh token afterwards, whatever the outcome of the write. *)
Theorem on_tokens_keeps_refresh_token (accountId : string)
    (newTokens : gmap string json) (rt : json) (st : tm) :
  stored_refresh_token accountId st = Some rt →
  truthy_opt (newTokens !! "refresh_token") = false →
  stored_refresh_token accountId (on_tokens accountId newTokens st).2 = Some rt.
Proof.
  intros Hstored Hlacks.
  destruct (stored_refresh_token_inv _ _ _ Hstored)
    as (fields & record & Hfile & Hrecord & Hrt).
  destruct (truthy_opt (fields !! "access_token") || truthy_opt (fields !! "refresh_token"))
    eqn:Hlegacy.
  - (* taken for the legacy shape: the listener never completes *)
    assert (token_file (on_tokens accountId newTokens st).2 = token_file st) as Hsame.
    { unfold on_tokens, refresh_write. run. rewrite Hfile. cbn.
      rewrite legacy_shape_object, Hlegacy. cbn. exact Hfile. }
    unfold stored_refresh_token, stored_record in *. by rewrite Hsame.
  - destruct (fs_writable st) eqn:Hwritable.
    + destruct (on_tokens_writes accountId newTokens fields st Hfile)
        as (updatedTokens & Hmerge & Hwritten); [| done |].
      { by rewrite legacy_shape_object, Hlegacy. }
      unfold stored_refresh_token, stored_record. rewrite Hwritten, lookup_insert_eq.
      rewrite Hrecord in Hmerge. unfold js_or in Hmerge. cbn in Hmerge.
      unfold merge_tokens in Hmerge. cbn in Hmerge. rewrite Hrt in Hmerge.
      unfold js_or in Hmerge. rewrite Hlacks in Hmerge. injection Hmerge as <-.
      apply lookup_insert_eq.
    + assert (token_file (on_tokens accountId newTokens st).2 = token_file st) as Hsame.
      { unfold on_tokens, refresh_write. run. rewrite Hfile. cbn.
        rewrite legacy_shape_object, Hlegacy. cbn. rewrite Hrecord. cbn.
        unfold merge_tokens. cbn. rewrite Hwritable. cbn. exact Hfile. }
      unfold stored_refresh_token, stored_record in *. by rewrite Hsame.
Qed.

Lemma on_tokens_keeps_refresh_token_witness :
  stored_refresh_token "normal"
    (on_tokens "normal" Examples.access_only Examples.one_account).2
  = Some (JStr "1//refresh").
Proof.
  apply (on_tokens_keeps_refresh_token "normal" Examples.access_only
           (JStr "1//refresh") Examples.one_account); reflexivity.
Defined.

(** [saveTokens] on a store that is an object not in the legacy shape:
    the update, with the email when one is given, becomes the record of
    the current account as it is. *)
Lemma saveTokens_replaces_record (tokens fields : gmap string json)
    (email : option string) (st : tm) :
  token_file st = FContent (JsonText (JObj fields)) →
  legacy_shape (JObj fields) = Ok false →
  fs_writable st = true →
  (saveTokens tokens email st).1 = Ok ()
  ∧ stored_record (accountMode st) (saveTokens tokens email st).2 =
      Some (JObj (match email with
                  | Some address =>
                      if truthy (JStr address)
                      then <["cached_email" := JStr address]> tokens else tokens
                  | None => tokens
                  end)).
Proof.
  intros Hfile Hshape Hwritable.
  unfold saveTokens, save_write, stored_record. run.
  rewrite Hfile. cbn. rewrite Hshape. cbn. rewrite Hwritable. cbn.
  split; [done |]. apply lookup_insert_eq.
Qed.

(** C1 as stated fails for [saveTokens]: saving an update without a
    refresh token drops the one the store held for that account. *)
Lemma saveTokens_erases_refresh_token :
  ¬ (∀ (tokens : gmap string json) (email : option string) (rt : json) (st : tm),
       stored_refresh_token (accountMode st) st = Some rt →
       truthy_opt (tokens !! "refresh_token") = false →
       stored_refresh_token (accountMode st) (saveTokens tokens email st).2 = Some rt).
Proof.
  intros Hclaim.
  specialize (Hclaim Examples.access_only None (JStr "1//refresh") Examples.one_account
                eq_refl eq_refl).
  vm_compute in Hclaim. discriminate Hclaim.
Qed.


(** On a writable file system and a store file holding an object that
    has no truthy top-level [access_token] or [refresh_token]: when the
    object has a record under the lower-cased account id, [removeAccount]
    succeeds, deletes the file if that was the only entry and otherwise
    leaves the file with exactly the other entries, and drops the live
    handle; when it has none, [removeAccount] fails with the not-found
    error and the file is as before.  The account id is of ASCII
    characters, on which [toLowerCase] is the one of JavaScript, and its
    lower-case form is not [constructor] or [__proto__], which every
    object inherits and [getProp] leaves out. *)
Lemma removeAccount_deletes_record (accountId : string) (fields : gmap string json)
    (st : tm) :
  token_file st = FContent (JsonText (JObj fields)) →
  legacy_shape (JObj fields) = Ok false →
  fs_writable st = true →
  (∀ c, c ∈ list_ascii_of_string accountId → (nat_of_ascii c < 128)%nat) →
  toLowerCase accountId ≠ "constructor" →
  toLowerCase accountId ≠ "__proto__" →
  let normalizedId := toLowerCase accountId in
  let st' := (removeAccount accountId st).2 in
  if truthy_opt (fields !! normalizedId) then
    (removeAccount accountId st).1 = Ok ()
    ∧ token_file st' =
        match size (delete normalizedId fields) with
        | 0 => FAbsent
        | S _ => FContent (JsonText (JObj (delete normalizedId fields)))
        end
    ∧ accounts st' = delete normalizedId (accounts st)
  else
    (removeAccount accountId st).1 = Throw (Error (not_found_message normalizedId))
    ∧ token_file st' = token_file st
    ∧ accounts st' = accounts st.
Proof.
  intros Hfile Hshape Hwritable _ _ _ normalizedId st'. subst st'.
  unfold removeAccount, remove_write. fold normalizedId. run.
  rewrite Hfile. cbn. rewrite Hshape. cbn.
  destruct (truthy_opt (fields !! normalizedId)) eqn:Hpresent; cbn.
  - destruct (size (delete normalizedId fields)) as [| n] eqn:Hsize; cbn.
    + rewrite Hfile. cbn. rewrite Hwritable. cbn. done.
    + rewrite Hwritable. cbn. done.
  - done.
Qed.

Example removeAccount_last_account :
  (removeAccount "Normal" Examples.one_account).1 = Ok ()
  ∧ token_file (removeAccount "Normal" Examples.one_account).2 = FAbsent
  ∧ accounts (removeAccount "Normal" Examples.one_account).2 = ∅.
Proof. repeat split; reflexivity. Qed.

(** Without a token file every account is unknown. *)
Lemma removeAccount_no_file (accountId : string) (st : tm) :
  token_file st = FAbsent →
  (removeAccount accountId st).1 = Throw (Error (not_found_message (toLowerCase accountId)))
  ∧ token_file (removeAccount accountId st).2 = FAbsent.
Proof.
  intros Hfile. unfold removeAccount, remove_write. run. rewrite Hfile. cbn. done.
Qed.

(** C4 (what the code does).  [removeAccount] loads the store with
    [loadMultiAccountTokens], from inside the operation it has put on the
    write queue.  On a store file with a truthy top-level [access_token]
    or [refresh_token] (the legacy shape, and also a multi-account file
    with an account of that name) the load starts the conversion, which
    waits for the queue, which waits for the operation: [removeAccount]
    never returns, whether the account is in the store or not; no record
    is deleted, the file and the live handles are as before, and the one
    call to [fs] is the read. *)
Theorem removeAccount_never_returns_on_legacy_shape (accountId : string) (parsed : json)
    (st : tm) :
  token_file st = FContent (JsonText parsed) →
  legacy_shape parsed = Ok true →
  let st' := (removeAccount accountId st).2 in
  (removeAccount accountId st).1 = Hang
  ∧ token_file st' = token_file st
  ∧ (∀ id, stored_record id st' = stored_record id st)
  ∧ accounts st' = accounts st
  ∧ fs_calls_since st st' = [EvReadFile TokenPath].
Proof.
  intros Hfile Hshape st'. subst st'.
  unfold removeAccount, remove_write.
  rewrite (await_enqueueTokenWrite_legacy_shape parsed st _ Hfile Hshape).
  cbn. repeat split.
  unfold fs_calls_since. cbn. by rewrite drop_app_length.
Qed.

Lemma removeAccount_never_returns_on_legacy_shape_witness :
  Paths.validateAccountId "refresh_token" = Ok "refresh_token"
  ∧ stored_record "refresh_token" Examples.account_named_refresh_token
    = Some Examples.full_record
  ∧ (removeAccount "refresh_token" Examples.account_named_refresh_token).1 = Hang
  ∧ stored_record "refresh_token"
      (removeAccount "refresh_token" Examples.account_named_refresh_token).2
    = Some Examples.full_record.
Proof.
  split; [reflexivity |]. split; [reflexivity |].
  destruct (removeAccount_never_returns_on_legacy_shape "refresh_token"
              (JObj {[ "refresh_token" := Examples.full_record ]})
              Examples.account_named_refresh_token eq_refl eq_refl)
    as (Hhang & _ & Hrecords & _).
  split; [exact Hhang |]. rewrite Hrecords. reflexivity.
Defined.

(** So removing an account that is in the store does not always remove
    it: [refresh_token] is a valid identifier. *)
Lemma removeAccount_legacy_shaped_store :
  ¬ (∀ (accountId : string) (record : json) (st : tm),
       Paths.validateAccountId accountId = Ok accountId →
       stored_record accountId st = Some record →
       stored_record accountId (removeAccount accountId st).2 = None).
Proof.
  intros Hclaim.
  specialize (Hclaim "refresh_token" Examples.full_record
                Examples.account_named_refresh_token eq_refl eq_refl).
  vm_compute in Hclaim. discriminate Hclaim.
Qed.


(** C5 (what the code does).  A token file that [JSON.parse] rejects is
    not deleted: the [SyntaxError] has no [code] property, so the guard
    before [unlink] in [loadSavedTokens] is false; [loadSavedTokens]
    answers [false], makes no call to [unlink] and leaves the file, and
    [loadMultiAccountTokens] throws the same error on that file again. *)
Theorem loadSavedTokens_keeps_unparseable_file (message : string) (st : tm) :
  token_file st = FContent (Unparseable message) →
  let st' := (loadSavedTokens st).2 in
  (loadSavedTokens st).1 = Ok false
  ∧ token_file st' = FContent (Unparseable message)
  ∧ fs_calls_since st st' = [EvMkdir; EvAccess TokenPath; EvReadFile TokenPath]
  ∧ (loadMultiAccountTokens false st').1 = Throw (SyntaxError message).
Proof.
  intros Hfile st'. subst st'.
  unfold loadSavedTokens, migrateLegacyTokens. run. rewrite Hfile. cbn.
  rewrite Hfile. cbn. rewrite Hfile. cbn.
  repeat split; try done.
  unfold fs_calls_since. cbn. rewrite <- !app_assoc. by rewrite drop_app_length.
Qed.

Lemma loadSavedTokens_keeps_unparseable_file_witness :
  (loadSavedTokens Examples.corrupted).1 = Ok false
  ∧ token_file (loadSavedTokens Examples.corrupted).2 = token_file Examples.corrupted
  ∧ fs_calls_since Examples.corrupted (loadSavedTokens Examples.corrupted).2
    = [EvMkdir; EvAccess TokenPath; EvReadFile TokenPath]
  ∧ (loadMultiAccountTokens false (loadSavedTokens Examples.corrupted).2).1
    = Throw (SyntaxError "Unexpected token n in JSON at position 1").
Proof.
  exact (loadSavedTokens_keeps_unparseable_file
           "Unexpected token n in JSON at position 1" Examples.corrupted eq_refl).
Defined.

(** The deletion in [loadSavedTokens] is reached by errors that carry a
    [code] other than ENOENT, such as the EACCES of an unreadable file. *)
Lemma loadSavedTokens_deletes_unreadable_file (st : tm) :
  token_file st = FUnreadable →
  fs_writable st = true →
  (loadSavedTokens st).1 = Ok false
  ∧ token_file (loadSavedTokens st).2 = FAbsent.
Proof.
  intros Hfile Hwritable.
  unfold loadSavedTokens, migrateLegacyTokens. run. rewrite Hfile. cbn.
  rewrite Hfile. cbn. rewrite Hfile. cbn. rewrite Hwritable. cbn. done.
Qed.


End Store.

(** ** The interactive authorization session *)

(** C9.  While a session is active ([this.server] is set),
    [startForMcpTool] answers at once with the already-running failure,
    for any account, and the server, its timeout and the flow it serves
    are exactly as before. *)
Theorem startForMcpTool_already_running
    (loadCredentials : outcome AuthServer.credentials)
    (generateAuthUrl : AuthServer.credentials → string → list string → string)
    (listen : nat → outcome ()) (account : string)
    (active : AuthServer.http_server) (st : AuthServer.auth_server) :
  AuthServer.server st = Some active →
  AuthServer.startForMcpTool loadCredentials generateAuthUrl listen account st
  = (Ok (AuthServer.failure AuthServer.already_running_message), st).
Proof.
  intros Hactive.
  unfold AuthServer.startForMcpTool, gets, mbind, M_bind, mret, M_ret. cbn.
  by rewrite Hactive.
Qed.

Lemma startForMcpTool_already_running_witness :
  AuthServer.startForMcpTool (Throw (Error "no credentials")) (λ _ url _, url)
    (λ _, Ok ()) "work" Examples.session_for_home
  = (Ok (AuthServer.failure AuthServer.already_running_message),
     Examples.session_for_home).
Proof.
  exact (startForMcpTool_already_running (Throw (Error "no credentials"))
           (λ _ url _, url) (λ _, Ok ()) "work" _ Examples.session_for_home eq_refl).
Defined.

(** From the idle state a start with good credentials and a free port
    opens the session that later calls run into. *)
Lemma startForMcpTool_opens_session
    (generateAuthUrl : AuthServer.credentials → string → list string → string)
    (credentials : AuthServer.credentials) (account : string)
    (st : AuthServer.auth_server) :
  AuthServer.server st = None →
  ∃ result st',
    AuthServer.startForMcpTool (Ok credentials) generateAuthUrl (λ _, Ok ()) account st
    = (Ok result, st')
    ∧ AuthServer.success result = true
    ∧ AuthServer.isRunning st' = true
    ∧ AuthServer.authTimeout st' = Some (AuthServer.mkTimer (5 * 60 * 1000)).
Proof.
  intros Hidle.
  unfold AuthServer.startForMcpTool, AuthServer.startCallbackServer, promise_catch,
    lift, gets, mbind, M_bind, mret, M_ret.
  cbn. rewrite Hidle. cbn. eauto 10.
Qed.

(** ** More on the credential store *)

Section StoreOperations.

Import TokenManager.

#[local] Arguments legacy_shape : simpl never.
#[local] Arguments merge_tokens : simpl never.
#[local] Arguments js_or : simpl never.

Lemma merge_tokens_total (currentTokens : json) (newTokens : gmap string json) :
  truthy currentTokens = true →
  ∃ updatedTokens, merge_tokens currentTokens newTokens = Ok updatedTokens.
Proof.
  intros Htruthy. unfold merge_tokens.
  destruct currentTokens; try done; simpl; eauto.
Qed.

(** [parsed.access_token] throws on [null] only, and a [TypeError] has
    no [code]. *)
Lemma legacy_shape_cases (parsed : json) :
  (∃ legacy, legacy_shape parsed = Ok legacy ∧ parsed ≠ JNull)
  ∨ (∃ e, legacy_shape parsed = Throw e ∧ parsed = JNull ∧ err_code e = None).
Proof.
  unfold legacy_shape.
  destruct parsed as [| b | n | s | fields]; simpl.
  - right. eauto.
  - left. eauto.
  - left. eauto.
  - left. destruct (truthy_opt (string_props s !! "access_token")); eauto.
  - left. destruct (truthy_opt (fields !! "access_token")); eauto.
Qed.

(** Whatever happens, the listener either leaves the token file as it
    was or replaces the entry of its own account in the stored object. *)
Lemma on_tokens_file (accountId : string) (newTokens : gmap string json) (st : tm) :
  token_file (on_tokens accountId newTokens st).2 = token_file st
  ∨ ∃ fields updatedTokens,
      store_object fields st
      ∧ token_file (on_tokens accountId newTokens st).2 =
          FContent (JsonText (JObj (<[accountId := JObj updatedTokens]> fields))).
Proof.
  unfold on_tokens, refresh_write. run.
  destruct (token_file st) as [| | [message | parsed]] eqn:Hfile; cbn.
  - destruct (js_or_some None (JObj ∅)) as (currentTokens & Hcurrent & Htruthy).
    specialize (Htruthy eq_refl).
    destruct (merge_tokens_total currentTokens newTokens Htruthy) as [updated Hmerge].
    rewrite lookup_empty, Hcurrent. cbn. rewrite Hmerge. cbn.
    destruct (fs_writable st) eqn:Hw; cbn.
    + right. exists ∅, updated. split; [by left |]. by destruct (node_env_test st).
    + left. done.
  - by left.
  - by left.
  - destruct (legacy_shape_cases parsed) as [(legacy & Hshape & Hnull) | (e & Hshape & _ & He)];
      rewrite Hshape; cbn;
      [| unfold has_code; rewrite He; cbn; by left].
    destruct legacy; cbn; [by left |].
    destruct parsed as [| b | n | s | fields]; cbn; try by left.
    + destruct (String.eqb accountId "length"); cbn.
      * destruct (js_or_some (Some (JNum (Z.of_nat (String.length s)))) (JObj ∅))
          as (currentTokens & Hcurrent & Htruthy).
        specialize (Htruthy eq_refl).
        destruct (merge_tokens_total currentTokens newTokens Htruthy) as [updated Hmerge].
        rewrite Hcurrent. cbn. rewrite Hmerge. cbn. by left.
      * destruct (js_or_some (string_props s !! accountId) (JObj ∅))
          as (currentTokens & Hcurrent & Htruthy).
        specialize (Htruthy eq_refl).
        destruct (merge_tokens_total currentTokens newTokens Htruthy) as [updated Hmerge].
        rewrite Hcurrent. cbn. rewrite Hmerge. cbn. by left.
    + destruct (js_or_some (fields !! accountId) (JObj ∅))
        as (currentTokens & Hcurrent & Htruthy).
      specialize (Htruthy eq_refl).
      destruct (merge_tokens_total currentTokens newTokens Htruthy) as [updated Hmerge].
      rewrite Hcurrent. cbn. rewrite Hmerge. cbn.
      destruct (fs_writable st) eqn:Hw; cbn.
      * right. exists fields, updated. split; [by right |]. by destruct (node_env_test st).
      * by left.
Qed.

Lemma stored_record_file (accountId : string) (st st' : tm) :
  token_file st' = token_file st →
  stored_record accountId st' = stored_record accountId st.
Proof. unfold stored_record. by intros ->. Qed.

Lemma stored_record_store_object (accountId : string) (fields : gmap string json)
    (st : tm) :
  store_object fields st → stored_record accountId st = fields !! accountId.
Proof.
  unfold stored_record. intros [[-> ->] | ->]; [by rewrite lookup_empty | done].
Qed.

(** X1.  The listener of one account never changes what the store holds
    for another account, whatever the token file contains and whether
    or not the write succeeds. *)
Theorem on_tokens_other_accounts_untouched (accountId other : string)
    (newTokens : gmap string json) (st : tm) :
  accountId ≠ other →
  stored_record other (on_tokens accountId newTokens st).2 = stored_record other st.
Proof.
  intros Hother.
  destruct (on_tokens_file accountId newTokens st)
    as [Hsame | (fields & updated & Hstore & Hfile)].
  - by apply stored_record_file.
  - rewrite (stored_record_store_object _ _ _ Hstore).
    unfold stored_record. rewrite Hfile. by apply lookup_insert_ne.
Qed.

Lemma on_tokens_other_accounts_untouched_witness :
  stored_record "normal"
    (on_tokens "work" Examples.access_only Examples.one_account).2
  = Some Examples.full_record.
Proof.
  rewrite (on_tokens_other_accounts_untouched "work" "normal" Examples.access_only
             Examples.one_account); [reflexivity | discriminate].
Defined.

(** X2.  A failed write in the listener is not propagated: on a
    read-only file system the listener fulfils, the token file is as
    before, and the failure only shows as lines on [stderr]. *)
Theorem on_tokens_swallows_write_failure (accountId : string)
    (newTokens fields : gmap string json) (st : tm) :
  store_object fields st →
  legacy_shape (JObj fields) = Ok false →
  fs_writable st = false →
  let st' := (on_tokens accountId newTokens st).2 in
  (on_tokens accountId newTokens st).1 = Ok ()
  ∧ token_file st' = token_file st
  ∧ ∃ message,
      stderr st' = stderr st ++
        ["Error writing token file: " +:+ message +:+ nl;
         "Error saving updated tokens: "; message; nl].
Proof.
  intros Hstore Hshape Hwritable st'. subst st'.
  destruct (js_or_some (fields !! accountId) (JObj ∅))
    as (currentTokens & Hcurrent & Htruthy).
  specialize (Htruthy eq_refl).
  destruct (merge_tokens_total currentTokens newTokens Htruthy) as [updated Hmerge].
  unfold on_tokens, refresh_write. run.
  destruct Hstore as [[Hfile ->] | Hfile]; rewrite Hfile; cbn.
  - rewrite lookup_empty in Hcurrent. rewrite lookup_empty, Hcurrent. cbn.
    rewrite Hmerge. cbn. rewrite Hwritable. cbn.
    repeat split; [done |]. eexists. by rewrite <- !app_assoc.
  - rewrite Hshape. cbn. rewrite Hcurrent. cbn. rewrite Hmerge. cbn.
    rewrite Hwritable. cbn.
    repeat split; [done |]. eexists. by rewrite <- !app_assoc.
Qed.

Lemma on_tokens_swallows_write_failure_witness :
  (on_tokens "normal" Examples.access_only Examples.read_only_store).1 = Ok ()
  ∧ token_file (on_tokens "normal" Examples.access_only Examples.read_only_store).2
    = token_file Examples.read_only_store
  ∧ ∃ message,
      stderr (on_tokens "normal" Examples.access_only Examples.read_only_store).2 =
        ["Error writing token file: " +:+ message +:+ nl;
         "Error saving updated tokens: "; message; nl].
Proof.
  exact (on_tokens_swallows_write_failure "normal" Examples.access_only
           {[ "normal" := Examples.full_record ]} Examples.read_only_store
           (or_intror eq_refl) eq_refl eq_refl).
Defined.


(** X3.  For an account the store does not know yet, the listener
    stores the update as that account's record, creating the token file
    when there is none, and keeps every other entry.  (The update either
    carries a refresh token or has no such property.  The account is not
    [__proto__]: the embedding reads and writes own properties only, and
    for that one key JavaScript reads and sets the prototype instead.) *)
Theorem on_tokens_creates_record (accountId : string)
    (newTokens fields : gmap string json) (st : tm) :
  store_object fields st →
  legacy_shape (JObj fields) = Ok false →
  fs_writable st = true →
  fields !! accountId = None →
  accountId ≠ "__proto__" →
  newTokens !! "refresh_token" = None
  ∨ truthy_opt (newTokens !! "refresh_token") = true →
  (on_tokens accountId newTokens st).1 = Ok ()
  ∧ token_file (on_tokens accountId newTokens st).2 =
      FContent (JsonText (JObj (<[accountId := JObj newTokens]> fields))).
Proof.
  intros Hstore Hshape Hwritable Hnew _ Hrefresh.
  assert (merge_tokens (JObj ∅) newTokens = Ok newTokens) as Hmerge.
  { unfold merge_tokens. cbn. rewrite lookup_empty, (right_id_L ∅ (∪)).
    unfold js_or. f_equal.
    destruct Hrefresh as [Hnone | Hsome].
    - rewrite Hnone. cbn. apply delete_id, Hnone.
    - rewrite Hsome. destruct (newTokens !! "refresh_token") as [v |] eqn:Hv; [| done].
      apply insert_id, Hv. }
  unfold on_tokens, refresh_write. run.
  destruct Hstore as [[Hfile ->] | Hfile]; rewrite Hfile; cbn.
  - rewrite lookup_empty. change (js_or None (Some (JObj ∅))) with (Some (JObj ∅)).
    cbn. rewrite Hmerge. cbn. rewrite Hwritable. cbn. by destruct (node_env_test st).
  - rewrite Hshape. cbn. rewrite Hnew.
    change (js_or None (Some (JObj ∅))) with (Some (JObj ∅)).
    cbn. rewrite Hmerge. cbn. rewrite Hwritable. cbn. by destruct (node_env_test st).
Qed.

Lemma on_tokens_creates_record_witness :
  (on_tokens "work" Examples.access_only (Examples.manager FAbsent)).1 = Ok ()
  ∧ token_file (on_tokens "work" Examples.access_only (Examples.manager FAbsent)).2 =
      FContent (JsonText (JObj (<["work" := JObj Examples.access_only]> ∅))).
Proof.
  apply (on_tokens_creates_record "work" Examples.access_only ∅
           (Examples.manager FAbsent));
    [by left | reflexivity | reflexivity | reflexivity | discriminate | by left].
Defined.

(** X4.  [saveTokens] reports a failed write to its caller: the error of
    [writeFile] is rethrown, the credentials of the client are not
    replaced, and the token file is as before. *)
Theorem saveTokens_rethrows_write_failure (tokens fields : gmap string json)
    (email : option string) (st : tm) :
  store_object fields st →
  legacy_shape (JObj fields) = Ok false →
  fs_writable st = false →
  let st' := (saveTokens tokens email st).2 in
  (∃ message, (saveTokens tokens email st).1 = Throw (fsError "EACCES" message))
  ∧ oauth2Client st' = oauth2Client st
  ∧ token_file st' = token_file st.
Proof.
  intros Hstore Hshape Hwritable st'. subst st'.
  unfold saveTokens, save_write. run.
  destruct Hstore as [[Hfile ->] | Hfile]; rewrite Hfile; cbn.
  - rewrite Hwritable. cbn. eauto.
  - rewrite Hshape. cbn. rewrite Hwritable. cbn. eauto.
Qed.

Lemma saveTokens_rethrows_write_failure_witness :
  (∃ message,
     (saveTokens Examples.access_only None Examples.read_only_store).1
     = Throw (fsError "EACCES" message))
  ∧ oauth2Client (saveTokens Examples.access_only None Examples.read_only_store).2
    = JObj ∅
  ∧ token_file (saveTokens Examples.access_only None Examples.read_only_store).2
    = token_file Examples.read_only_store.
Proof.
  exact (saveTokens_rethrows_write_failure Examples.access_only
           {[ "normal" := Examples.full_record ]} None Examples.read_only_store
           (or_intror eq_refl) eq_refl eq_refl).
Defined.


(** The record [saveTokens] writes: the tokens, with [cached_email]
    when a non-empty address is given. *)
Lemma legacy_shape_insert (mode : string) (record : gmap string json)
    (fields : gmap string json) :
  mode ≠ "access_token" → mode ≠ "refresh_token" →
  legacy_shape (JObj fields) = Ok false →
  legacy_shape (JObj (<[mode := JObj record]> fields)) = Ok false.
Proof.
  intros Ha Hr. rewrite !legacy_shape_object.
  by rewrite !lookup_insert_ne.
Qed.

(** X5.  What [saveTokens] stores, [loadSavedTokens] finds again: after
    a successful save for the current account (any account but
    [access_token] and [refresh_token], which make the store look like a
    legacy file, and [__proto__], which JavaScript does not store as a
    property), [loadSavedTokens] answers [true] and the client holds the
    saved tokens together with the cached email. *)
Theorem saveTokens_then_loadSavedTokens (tokens fields : gmap string json)
    (email : string) (st : tm) :
  store_object fields st →
  legacy_shape (JObj fields) = Ok false →
  fs_writable st = true →
  accountMode st ≠ "access_token" → accountMode st ≠ "refresh_token" →
  accountMode st ≠ "__proto__" →
  email ≠ "" →
  let saved := (saveTokens tokens (Some email) st).2 in
  (saveTokens tokens (Some email) st).1 = Ok ()
  ∧ (loadSavedTokens saved).1 = Ok true
  ∧ oauth2Client (loadSavedTokens saved).2 =
      JObj (<["cached_email" := JStr email]> tokens).
Proof.
  intros Hstore Hshape Hwritable Ha Hr _ Hemail saved.
  assert (negb (String.eqb email "") = true) as Htruthy.
  { destruct email; [done | reflexivity]. }
  pose proof (legacy_shape_insert (accountMode st)
                (<["cached_email" := JStr email]> tokens) fields Ha Hr Hshape) as Hnew.
  assert ((saveTokens tokens (Some email) st).1 = Ok ()
          ∧ token_file saved =
              FContent (JsonText (JObj (<[accountMode st :=
                 JObj (<["cached_email" := JStr email]> tokens)]> fields)))
          ∧ accountMode saved = accountMode st) as (Hok & Hfile & Hmode).
  { subst saved. unfold saveTokens, save_write. run. rewrite Htruthy.
    destruct Hstore as [[Hfile ->] | Hfile]; rewrite Hfile; cbn.
    - rewrite Hwritable. cbn. done.
    - rewrite Hshape. cbn. rewrite Hwritable. cbn. done. }
  split; [done |].
  unfold loadSavedTokens. run. rewrite Hfile. cbn. rewrite Hfile. cbn.
  rewrite Hnew. cbn. rewrite Hmode, lookup_insert_eq. cbn. done.
Qed.

Lemma saveTokens_then_loadSavedTokens_witness :
  (saveTokens Examples.access_only (Some "me@example.com") (Examples.manager FAbsent)).1
  = Ok ()
  ∧ (loadSavedTokens
       (saveTokens Examples.access_only (Some "me@example.com")
          (Examples.manager FAbsent)).2).1 = Ok true
  ∧ oauth2Client
      (loadSavedTokens
         (saveTokens Examples.access_only (Some "me@example.com")
            (Examples.manager FAbsent)).2).2
    = JObj (<["cached_email" := JStr "me@example.com"]> Examples.access_only).
Proof.
  apply (saveTokens_then_loadSavedTokens Examples.access_only ∅ "me@example.com"
           (Examples.manager FAbsent)); try done.
  by left.
Defined.


(** X6.  [clearTokens] forgets the current account: the client's
    credentials become [{}], the account's entry leaves the store, the
    other entries stay, and the file is deleted when no entry is left
    (also when there was no file to begin with). *)
Theorem clearTokens_forgets_account (fields : gmap string json) (st : tm) :
  store_object fields st →
  legacy_shape (JObj fields) = Ok false →
  fs_writable st = true →
  let st' := (clearTokens st).2 in
  (clearTokens st).1 = Ok ()
  ∧ oauth2Client st' = JObj ∅
  ∧ token_file st' =
      match size (delete (accountMode st) fields) with
      | 0 => FAbsent
      | S _ => FContent (JsonText (JObj (delete (accountMode st) fields)))
      end.
Proof.
  intros Hstore Hshape Hwritable st'. subst st'.
  unfold clearTokens, clear_write. run.
  destruct Hstore as [[Hfile ->] | Hfile]; rewrite Hfile; cbn.
  - rewrite delete_empty, map_size_empty. cbn. rewrite Hfile. cbn. done.
  - rewrite Hshape. cbn.
    destruct (size (delete (accountMode st) fields)) as [| n] eqn:Hsize; cbn.
    + rewrite Hfile. cbn. rewrite Hwritable. cbn. done.
    + rewrite Hwritable. cbn. done.
Qed.

Lemma clearTokens_forgets_account_witness :
  (clearTokens Examples.one_account).1 = Ok ()
  ∧ oauth2Client (clearTokens Examples.one_account).2 = JObj ∅
  ∧ token_file (clearTokens Examples.one_account).2 = FAbsent.
Proof.
  exact (clearTokens_forgets_account {[ "normal" := Examples.full_record ]}
           Examples.one_account (or_intror eq_refl) eq_refl eq_refl).
Defined.

(** X7.  [clearTokens] hides a failed deletion from its caller: on a
    read-only file system it still fulfils and empties the client's
    credentials, while the tokens stay in the file. *)
Theorem clearTokens_swallows_write_failure (fields : gmap string json) (st : tm) :
  token_file st = FContent (JsonText (JObj fields)) →
  legacy_shape (JObj fields) = Ok false →
  fs_writable st = false →
  let st' := (clearTokens st).2 in
  (clearTokens st).1 = Ok ()
  ∧ oauth2Client st' = JObj ∅
  ∧ token_file st' = token_file st.
Proof.
  intros Hfile Hshape Hwritable st'. subst st'.
  unfold clearTokens, clear_write. run. rewrite Hfile. cbn. rewrite Hshape. cbn.
  destruct (size (delete (accountMode st) fields)) as [| n] eqn:Hsize; cbn.
  - rewrite Hfile. cbn. rewrite Hwritable. cbn. done.
  - rewrite Hwritable. cbn. done.
Qed.

Lemma clearTokens_swallows_write_failure_witness :
  (clearTokens Examples.read_only_store).1 = Ok ()
  ∧ oauth2Client (clearTokens Examples.read_only_store).2 = JObj ∅
  ∧ stored_refresh_token "normal" (clearTokens Examples.read_only_store).2
    = Some (JStr "1//refresh").
Proof.
  destruct (clearTokens_swallows_write_failure {[ "normal" := Examples.full_record ]}
              Examples.read_only_store eq_refl eq_refl eq_refl) as (Hok & Hclient & Hfile).
  split; [exact Hok |]. split; [exact Hclient |].
  unfold stored_refresh_token, stored_record. rewrite Hfile. reflexivity.
Defined.


End StoreOperations.

Section StartUp.

Import TokenManager.

#[local] Arguments legacy_shape : simpl never.
#[local] Arguments truthy_opt : simpl never.
#[local] Arguments typeof_object : simpl never.

(** [!tokens || typeof tokens !== 'object'] is false for objects only. *)
Lemma object_tokens (tokens : option json) :
  negb (truthy_opt tokens) || negb (typeof_object tokens) = false →
  ∃ record, tokens = Some (JObj record).
Proof.
  destruct tokens as [[| b | n | s | record] |]; cbn; try done.
  - by rewrite orb_true_r.
  - by rewrite orb_true_r.
  - by rewrite orb_true_r.
  - eauto.
Qed.

(** The own properties of a string are one-character strings. *)
Lemma string_props_char (s key : string) (v : json) :
  string_props s !! key = Some v → ∃ c, v = JStr (String c EmptyString).
Proof.
  unfold string_props. intros H. apply elem_of_list_to_map_2 in H.
  apply elem_of_lookup_imap in H as (i & c & Heq & _).
  injection Heq as _ ->. by exists c.
Qed.

Lemma legacy_shape_settles (parsed : json) : legacy_shape parsed ≠ Hang.
Proof.
  by destruct (legacy_shape_cases parsed) as [(legacy & -> & _) | (e & -> & _)].
Qed.

(** A load from outside the write queue settles; it touches neither the
    account mode nor the client nor the handles, and what it returns is
    what the token file then holds ([{}] for no file). *)
Lemma loadMultiAccountTokens_outcome (st : tm) :
  let r := loadMultiAccountTokens false st in
  accountMode r.2 = accountMode st
  ∧ oauth2Client r.2 = oauth2Client st
  ∧ accounts r.2 = accounts st
  ∧ legacy_file r.2 = legacy_file st
  ∧ match r.1 with
    | Ok multiAccountTokens =>
        multiAccountTokens ≠ JNull
        ∧ (token_file r.2 = FContent (JsonText multiAccountTokens)
           ∨ (multiAccountTokens = JObj ∅ ∧ token_file r.2 = FAbsent))
    | Throw e => token_file r.2 = token_file st
    | Hang => False
    end.
Proof.
  run. destruct (token_file st) as [| | [message | parsed]] eqn:Hfile; cbn.
  - rewrite Hfile. repeat split; try done. by right.
  - rewrite Hfile. done.
  - rewrite Hfile. done.
  - destruct (legacy_shape_cases parsed)
      as [(legacy & Hshape & Hnull) | (e & Hshape & _ & He)]; rewrite Hshape; cbn.
    + destruct legacy; cbn.
      * destruct (fs_writable st) eqn:Hwritable; cbn; [| by rewrite Hfile].
        repeat split; try done. by left.
      * rewrite Hfile. repeat split; try done. by left.
    + unfold has_code. rewrite He. cbn. by rewrite Hfile.
Qed.

(** [migrateLegacyTokens] never throws; it leaves the legacy file, the
    account mode and the client alone. *)
Lemma migrateLegacyTokens_outcome (st : tm) :
  let r := migrateLegacyTokens st in
  (∃ migrated, r.1 = Ok migrated)
  ∧ accountMode r.2 = accountMode st
  ∧ oauth2Client r.2 = oauth2Client st
  ∧ legacy_file r.2 = legacy_file st.
Proof.
  unfold migrateLegacyTokens. run.
  destruct (legacy_file st) as [| | [message | legacyTokens]] eqn:Hlegacy; cbn;
    rewrite ?Hlegacy; cbn; eauto 10.
  destruct (negb (truthy legacyTokens) || negb (typeof_object (Some legacyTokens)));
    cbn; rewrite ?Hlegacy; eauto 10.
  destruct (legacy_shape_cases legacyTokens)
    as [(legacy & Hshape & Hnull) | (e & Hshape & _ & He)]; rewrite Hshape; cbn;
    [| rewrite ?Hlegacy; by eauto 10].
  destruct (fs_writable st); cbn; rewrite ?Hlegacy; eauto 10.
Qed.

#[local] Arguments loadMultiAccountTokens : simpl never.
#[local] Arguments migrateLegacyTokens : simpl never.

Ltac run_start_up :=
  unfold loadSavedTokens, switchAccount, setAccountMode, ensureTokenDirectoryExists,
    access, unlink, ENOENT, EACCES, record_fs, stderr_write, setCredentials,
    promise_catch, throw, lift, gets, modify, mbind, M_bind, mret, M_ret;
  cbn.

(** The second half of [loadSavedTokens], from the load on: [s1] is the
    state the load starts in, [mode] and [client] what must be kept. *)
Ltac load_and_install s1 Hmode1 Hclient1 :=
  let Hmode2 := fresh "Hmode2" in
  let Hclient2 := fresh "Hclient2" in
  let Hload := fresh "Hload" in
  destruct (loadMultiAccountTokens_outcome s1) as (Hmode2 & Hclient2 & _ & _ & Hload);
  destruct (loadMultiAccountTokens false s1) as [[multiAccountTokens | e |] s2];
  cbn in Hmode2, Hclient2, Hload; cbn; [| | done];
  [ destruct Hload as [Hnull Hheld];
    assert (getProp multiAccountTokens (accountMode s2)
            = Ok (stored_under multiAccountTokens (accountMode s2))) as ->
      by (unfold stored_under;
          by destruct multiAccountTokens; cbn; try destruct (String.eqb _ _));
    cbn;
    destruct (negb (truthy_opt (stored_under multiAccountTokens (accountMode s2)))
              || negb (typeof_object (stored_under multiAccountTokens (accountMode s2))))
      eqn:Hcond; cbn;
    [ exists false; by rewrite Hmode2, Hmode1, Hclient2, Hclient1
    | apply object_tokens in Hcond as [record Hrecord];
      exists true; split; [done |]; split; [congruence |];
      exists record; rewrite Hrecord; split; [| done];
      unfold stored_record; cbn;
      destruct Hheld as [Hheld | [-> _]];
      [| unfold stored_under in Hrecord; cbn in Hrecord;
         rewrite lookup_empty in Hrecord; discriminate Hrecord];
      rewrite Hheld; unfold stored_under in Hrecord;
      destruct multiAccountTokens as [| b | n | s | fields]; cbn in Hrecord |- *;
      try discriminate Hrecord;
      [ destruct (String.eqb _ _); [discriminate Hrecord |];
        apply string_props_char in Hrecord as [c Hc]; discriminate Hc
      | congruence ] ]
  | exists false;
    destruct (has_other_code e "ENOENT"); cbn; [| split; [done | split; congruence]];
    destruct (token_file s2); cbn; try (split; [done | split; congruence]);
    destruct (fs_writable s2); cbn; split; try done; split; congruence ].

(** [loadSavedTokens] settles with a boolean; [true] comes with the
    stored record installed in the client, [false] with the client as it
    was. *)
Lemma start_up_settles (st : tm) :
  ∃ loaded,
    (loadSavedTokens st).1 = Ok loaded
    ∧ accountMode (loadSavedTokens st).2 = accountMode st
    ∧ if loaded : bool then
        ∃ record,
          stored_record (accountMode st) (loadSavedTokens st).2 = Some (JObj record)
          ∧ oauth2Client (loadSavedTokens st).2 = JObj record
      else oauth2Client (loadSavedTokens st).2 = oauth2Client st.
Proof.
  run_start_up.
  set (s0 := with_fs_log ((fs_log st ++ [EvMkdir]) ++ [EvAccess TokenPath])
               (with_fs_log (fs_log st ++ [EvMkdir]) st)).
  assert (accountMode s0 = accountMode st) as Hmode0 by done.
  assert (oauth2Client s0 = oauth2Client st) as Hclient0 by done.
  clearbody s0.
  destruct (token_file st) eqn:Hfile; cbn.
  - destruct (migrateLegacyTokens_outcome s0) as ([migrated Hm] & Hmode1 & Hclient1 & _).
    destruct (migrateLegacyTokens s0) as [started s1]. cbn in Hm, Hmode1, Hclient1.
    subst started. rewrite Hmode0 in Hmode1. rewrite Hclient0 in Hclient1.
    destruct migrated; cbn; [| exists false; by rewrite Hmode1, Hclient1].
    load_and_install s1 Hmode1 Hclient1.
  - load_and_install s0 Hmode0 Hclient0.
  - load_and_install s0 Hmode0 Hclient0.
Qed.

(** X8.  [loadSavedTokens] never throws and never changes the account
    mode.  It answers [true] exactly when it has given the client the
    record that the token file now holds for the current account;
    otherwise the client's credentials are those it had.  (The account
    is not [__proto__]: for that one key JavaScript answers with the
    prototype object, which the embedding of property reads leaves out.) *)
Theorem loadSavedTokens_outcome (st : tm) :
  accountMode st ≠ "__proto__" →
  let st' := (loadSavedTokens st).2 in
  ∃ loaded,
    (loadSavedTokens st).1 = Ok loaded
    ∧ accountMode st' = accountMode st
    ∧ if loaded : bool then
        ∃ record,
          stored_record (accountMode st) st' = Some (JObj record)
          ∧ oauth2Client st' = JObj record
      else oauth2Client st' = oauth2Client st.
Proof.
  intros _. exact (start_up_settles st).
Qed.

Lemma loadSavedTokens_outcome_witness :
  ∃ loaded,
    (loadSavedTokens Examples.one_account).1 = Ok loaded
    ∧ accountMode (loadSavedTokens Examples.one_account).2 = "normal"
    ∧ if loaded : bool then
        ∃ record,
          stored_record "normal" (loadSavedTokens Examples.one_account).2
          = Some (JObj record)
          ∧ oauth2Client (loadSavedTokens Examples.one_account).2 = JObj record
      else oauth2Client (loadSavedTokens Examples.one_account).2
           = oauth2Client Examples.one_account.
Proof.
  apply (loadSavedTokens_outcome Examples.one_account). discriminate.
Defined.

(** X9.  A switch that finds no tokens leaves the manager between two
    accounts: [switchAccount] answers [false], the account mode is the
    new one, and the client still holds the credentials of the account
    it was switched away from. *)
Theorem switchAccount_keeps_credentials_on_failure (newMode : string) (st : tm) :
  newMode ≠ "__proto__" →
  (switchAccount newMode st).1 = Ok false →
  accountMode (switchAccount newMode st).2 = newMode
  ∧ oauth2Client (switchAccount newMode st).2 = oauth2Client st.
Proof.
  intros _. unfold switchAccount, setAccountMode, modify, mbind, M_bind. cbn.
  destruct (start_up_settles (with_accountMode newMode st))
    as (loaded & Hloaded & Hmode & Hclient).
  rewrite Hloaded. intros [= ->]. split; [exact Hmode | exact Hclient].
Qed.

Lemma switchAccount_keeps_credentials_on_failure_witness :
  let signed_in := (loadSavedTokens Examples.one_account).2 in
  accountMode (switchAccount "work" signed_in).2 = "work"
  ∧ oauth2Client (switchAccount "work" signed_in).2 = Examples.full_record.
Proof.
  apply (switchAccount_keeps_credentials_on_failure "work"
           (loadSavedTokens Examples.one_account).2); [discriminate | reflexivity].
Defined.

(** The import of a legacy single-account file: what
    [migrateLegacyTokens] leaves behind. *)
Lemma migrateLegacyTokens_wraps (record : gmap string json) (st : tm) :
  legacy_file st = FContent (JsonText (JObj record)) →
  legacy_shape (JObj record) = Ok true →
  fs_writable st = true →
  ∃ st',
    migrateLegacyTokens st = (Ok true, st')
    ∧ token_file st' = FContent (JsonText (JObj {[ DEFAULT_ACCOUNT := JObj record ]}))
    ∧ legacy_file st' = legacy_file st
    ∧ accountMode st' = accountMode st
    ∧ oauth2Client st' = oauth2Client st.
Proof.
  intros Hlegacy Hshape Hwritable. unfold migrateLegacyTokens. run.
  rewrite Hlegacy. cbn. rewrite Hlegacy. cbn. unfold typeof_object. cbn.
  rewrite Hshape. cbn. rewrite Hwritable. cbn. eexists. split; [reflexivity |]. cbn.
  repeat split; exact Hlegacy || reflexivity.
Qed.

(** X14.  With no token file and a legacy single-account file, a
    start-up on a writable file system imports the legacy tokens as the
    record of account [normal], whatever the current account is, and
    keeps the legacy file.  So [loadSavedTokens] answers [true], with
    the legacy tokens as the client's credentials, for account [normal]
    only; for any other account it answers [false] and the client is as
    it was.  (The account is not [__proto__], for which JavaScript
    answers with the prototype object.) *)
Theorem loadSavedTokens_imports_legacy_file (record : gmap string json) (st : tm) :
  token_file st = FAbsent →
  legacy_file st = FContent (JsonText (JObj record)) →
  legacy_shape (JObj record) = Ok true →
  fs_writable st = true →
  accountMode st ≠ "__proto__" →
  let st' := (loadSavedTokens st).2 in
  (loadSavedTokens st).1 = Ok (String.eqb (accountMode st) "normal")
  ∧ token_file st' = FContent (JsonText (JObj {[ "normal" := JObj record ]}))
  ∧ legacy_file st' = legacy_file st
  ∧ oauth2Client st' =
      if String.eqb (accountMode st) "normal" then JObj record else oauth2Client st.
Proof.
  intros Hfile Hlegacy Hshape Hwritable _ st'. subst st'.
  run_start_up. rewrite Hfile. cbn.
  set (s0 := with_fs_log ((fs_log st ++ [EvMkdir]) ++ [EvAccess TokenPath])
               (with_fs_log (fs_log st ++ [EvMkdir]) st)).
  destruct (migrateLegacyTokens_wraps record s0 Hlegacy Hshape Hwritable)
    as (s1 & -> & Hfile1 & Hlegacy1 & Hmode1 & Hclient1).
  cbn.
  rewrite (loadMultiAccountTokens_current false _ s1 Hfile1 (legacy_shape_wrapped _)).
  cbn. rewrite Hmode1. change (accountMode s0) with (accountMode st).
  destruct (String.eqb_spec (accountMode st) "normal") as [-> | Hother].
  - rewrite lookup_insert_eq. unfold typeof_object, truthy_opt. cbn.
    rewrite Hfile1, Hlegacy1. done.
  - rewrite lookup_insert_ne, lookup_empty by done. unfold typeof_object, truthy_opt. cbn.
    rewrite Hfile1, Hlegacy1, Hclient1. done.
Qed.

Lemma loadSavedTokens_imports_legacy_file_witness :
  (loadSavedTokens Examples.legacy_only).1 = Ok true
  ∧ token_file (loadSavedTokens Examples.legacy_only).2
    = FContent (JsonText (JObj {[ "normal" := Examples.full_record ]}))
  ∧ legacy_file (loadSavedTokens Examples.legacy_only).2
    = FContent (JsonText Examples.full_record)
  ∧ oauth2Client (loadSavedTokens Examples.legacy_only).2 = Examples.full_record.
Proof.
  apply (loadSavedTokens_imports_legacy_file
           {[ "access_token" := JStr "ya29.old"; "refresh_token" := JStr "1//refresh" ]}
           Examples.legacy_only);
    [reflexivity | reflexivity | reflexivity | reflexivity | discriminate].
Defined.

End StartUp.

(** ** The handles of [loadAllAccounts] *)

Section AccountHandles.
Import TokenManager.

#[local] Arguments legacy_shape : simpl never.
#[local] Arguments loadMultiAccountTokens : simpl never.
#[local] Arguments Paths.validateAccountId : simpl never.

(** On a store in the current format, [loadAllAccounts] returns the
    manager's own map: the accepted entries of the store, over the old
    handles of the keys whose stored value is truthy. *)
Lemma loadAllAccounts_handles (fields : gmap string json) (st : tm) :
  store_object fields st →
  legacy_shape (JObj fields) = Ok false →
  let handles :=
    filter (λ entry, accepted_entry entry = true) fields
    ∪ filter (λ entry, truthy_opt (fields !! entry.1) = true) (accounts st) in
  (loadAllAccounts st).1 = Ok handles
  ∧ accounts (loadAllAccounts st).2 = handles
  ∧ token_file (loadAllAccounts st).2 = token_file st.
Proof.
  intros Hstore Hshape handles. subst handles.
  assert (loadMultiAccountTokens false st
          = (Ok (JObj fields), with_fs_log (fs_log st ++ [EvReadFile TokenPath]) st))
    as Hload.
  { destruct Hstore as [[Hfile ->] | Hfile].
    - by apply loadMultiAccountTokens_absent.
    - by apply loadMultiAccountTokens_current. }
  unfold loadAllAccounts, promise_catch, modify, gets, mbind, M_bind.
  rewrite Hload. cbn. done.
Qed.

(** X10.  After [loadAllAccounts], [getClient] answers for every entry
    of the store whose key is a valid account id and whose record has a
    truthy [access_token], with exactly that record as credentials,
    whatever handle the account had before. *)
Theorem loadAllAccounts_then_getClient (accountId : string)
    (fields record : gmap string json) (st : tm) :
  store_object fields st →
  legacy_shape (JObj fields) = Ok false →
  fields !! accountId = Some (JObj record) →
  Paths.validateAccountId accountId = Ok accountId →
  truthy_opt (record !! "access_token") = true →
  (∃ handles, (loadAllAccounts st).1 = Ok handles
              ∧ handles !! accountId = Some (JObj record))
  ∧ (getClient accountId (loadAllAccounts st).2).1 = Ok (JObj record).
Proof.
  intros Hstore Hshape Hrecord Hvalid Husable.
  destruct (loadAllAccounts_handles fields st Hstore Hshape) as (Hok & Haccounts & _).
  assert ((filter (λ entry, accepted_entry entry = true) fields
           ∪ filter (λ entry, truthy_opt (fields !! entry.1) = true) (accounts st))
          !! accountId = Some (JObj record)) as Hhandle.
  { apply lookup_union_Some_l, map_lookup_filter_Some. split; [exact Hrecord |].
    unfold accepted_entry. cbn. by rewrite Hvalid. }
  split; [eexists; split; [exact Hok | exact Hhandle] |].
  unfold getClient, lift, gets, mbind, M_bind, mret, M_ret. rewrite Hvalid. cbn.
  by rewrite Haccounts, Hhandle.
Qed.

Lemma loadAllAccounts_then_getClient_witness :
  (∃ handles, (loadAllAccounts Examples.one_account).1 = Ok handles
              ∧ handles !! "normal" = Some Examples.full_record)
  ∧ (getClient "normal" (loadAllAccounts Examples.one_account).2).1
    = Ok Examples.full_record.
Proof.
  apply (loadAllAccounts_then_getClient "normal" {[ "normal" := Examples.full_record ]}
           _ Examples.one_account);
    [by right | reflexivity | reflexivity | reflexivity | reflexivity].
Defined.

(** X11.  An account that has left the store loses its handle: after
    [loadAllAccounts], [getClient] throws for a valid account id with no
    entry in the store, also when the manager held a handle for it.
    (The ids [constructor] and [__proto__] are left out: for these two
    keys JavaScript answers with a member of [Object.prototype], which
    the embedding of property reads leaves out.) *)
Theorem loadAllAccounts_drops_removed_account (accountId : string)
    (fields : gmap string json) (st : tm) :
  store_object fields st →
  legacy_shape (JObj fields) = Ok false →
  fields !! accountId = None →
  Paths.validateAccountId accountId = Ok accountId →
  accountId ≠ "constructor" → accountId ≠ "__proto__" →
  accounts (loadAllAccounts st).2 !! accountId = None
  ∧ ∃ e, (getClient accountId (loadAllAccounts st).2).1 = Throw e.
Proof.
  intros Hstore Hshape Hnone Hvalid _ _.
  destruct (loadAllAccounts_handles fields st Hstore Hshape) as (_ & Haccounts & _).
  assert (accounts (loadAllAccounts st).2 !! accountId = None) as Hhandle.
  { rewrite Haccounts. apply lookup_union_None. split.
    - apply map_lookup_filter_None. left. exact Hnone.
    - apply map_lookup_filter_None. right. intros client _. cbn.
      rewrite Hnone. discriminate. }
  split; [exact Hhandle |].
  unfold getClient, lift, gets, mbind, M_bind, mret, M_ret, throw. rewrite Hvalid. cbn.
  rewrite Hhandle. eauto.
Qed.

Lemma loadAllAccounts_drops_removed_account_witness :
  accounts Examples.handle_for_work !! "work" = Some Examples.full_record
  ∧ accounts (loadAllAccounts Examples.handle_for_work).2 !! "work" = None
  ∧ ∃ e, (getClient "work" (loadAllAccounts Examples.handle_for_work).2).1 = Throw e.
Proof.
  split; [reflexivity |].
  apply (loadAllAccounts_drops_removed_account "work"
           {[ "normal" := Examples.full_record ]} Examples.handle_for_work);
    [by right | reflexivity | reflexivity | reflexivity | discriminate | discriminate].
Defined.

(** X12.  A stored value that is truthy but carries no usable tokens
    neither creates nor removes a handle: the account keeps the handle,
    and with it the credentials, that the manager had before
    [loadAllAccounts]. *)
Theorem loadAllAccounts_keeps_stale_handle (accountId : string) (tokens : json)
    (fields : gmap string json) (st : tm) :
  store_object fields st →
  legacy_shape (JObj fields) = Ok false →
  fields !! accountId = Some tokens →
  truthy tokens = true →
  usable_tokens tokens = false →
  accounts (loadAllAccounts st).2 !! accountId = accounts st !! accountId.
Proof.
  intros Hstore Hshape Htokens Htruthy Hunusable.
  destruct (loadAllAccounts_handles fields st Hstore Hshape) as (_ & -> & _).
  rewrite lookup_union_r.
  - destruct (accounts st !! accountId) as [client |] eqn:Hclient.
    + apply map_lookup_filter_Some. split; [exact Hclient |]. cbn.
      by rewrite Htokens.
    + apply map_lookup_filter_None. by left.
  - apply map_lookup_filter_None. right. intros tokens' Htokens'.
    rewrite Htokens in Htokens'. injection Htokens' as <-.
    unfold accepted_entry. cbn. rewrite Hunusable.
    by destruct (Paths.validateAccountId accountId).
Qed.

Lemma loadAllAccounts_keeps_stale_handle_witness :
  accounts (loadAllAccounts Examples.work_without_access_token).2 !! "work"
  = Some Examples.full_record.
Proof.
  rewrite (loadAllAccounts_keeps_stale_handle "work"
             (JObj {[ "refresh_token" := JStr "1//other" ]})
             {[ "normal" := Examples.full_record;
                "work" := JObj {[ "refresh_token" := JStr "1//other" ]} ]}
             Examples.work_without_access_token);
    [reflexivity | by right | reflexivity | reflexivity | reflexivity | reflexivity].
Defined.

(** X13.  A token file that does not parse makes [loadAllAccounts]
    reject with the [SyntaxError] of [JSON.parse]; no handle is added or
    removed and the file is not touched. *)
Theorem loadAllAccounts_rethrows_parse_error (message : string) (st : tm) :
  token_file st = FContent (Unparseable message) →
  (loadAllAccounts st).1 = Throw (SyntaxError message)
  ∧ accounts (loadAllAccounts st).2 = accounts st
  ∧ token_file (loadAllAccounts st).2 = token_file st.
Proof.
  intros Hfile.
  unfold loadAllAccounts, promise_catch, modify, gets, mbind, M_bind.
  rewrite (loadMultiAccountTokens_unparseable false message st Hfile). cbn. done.
Qed.

Lemma loadAllAccounts_rethrows_parse_error_witness :
  (loadAllAccounts Examples.corrupted).1
  = Throw (SyntaxError "Unexpected token n in JSON at position 1")
  ∧ accounts (loadAllAccounts Examples.corrupted).2 = ∅
  ∧ token_file (loadAllAccounts Examples.corrupted).2
    = FContent (Unparseable "Unexpected token n in JSON at position 1").
Proof.
  exact (loadAllAccounts_rethrows_parse_error _ Examples.corrupted eq_refl).
Defined.

End AccountHandles.

(** ** More on the authorization session *)

Section AuthorizationSession.
Import AuthServer.

(** X15.  A listener that fails to bind is not cleaned up: when
    [listen] reports an error, [startForMcpTool] answers with a failure
    but leaves [this.server] and the timeout set, so every further start
    is refused as already running, whatever its collaborators would do,
    until [stop] (or the timeout) clears the session; after that a start
    on a free port succeeds. *)
Theorem startForMcpTool_failed_listen_blocks_retry
    (found : credentials) (loadCredentials' : outcome credentials)
    (generateAuthUrl : credentials → string → list string → string)
    (listen listen' : nat → outcome ()) (account account' : string)
    (e : js_error) (st : auth_server) :
  server st = None →
  listen (port st) = Throw e →
  let first := startForMcpTool (Ok found) generateAuthUrl listen account st in
  (∃ message, first.1 = Ok (failure message))
  ∧ isRunning first.2 = true
  ∧ authTimeout first.2 = Some (mkTimer (5 * 60 * 1000))
  ∧ startForMcpTool loadCredentials' generateAuthUrl listen' account' first.2
    = (Ok (failure already_running_message), first.2)
  ∧ ∃ result,
      (startForMcpTool (Ok found) generateAuthUrl (λ _, Ok ()) account'
         (stop first.2)).1 = Ok result
      ∧ success result = true.
Proof.
  intros Hidle Hlisten first. subst first.
  unfold startForMcpTool, startCallbackServer, stop, cleanup, promise_catch, lift, gets,
    mbind, M_bind, mret, M_ret.
  cbn. rewrite Hidle. cbn. rewrite Hlisten.
  destruct (has_code e "EADDRINUSE"); cbn; eauto 10.
Qed.

Lemma startForMcpTool_failed_listen_blocks_retry_witness :
  let busy :=
    λ _ : nat, Throw (fsError "EADDRINUSE" "listen EADDRINUSE: address already in use") in
  let first :=
    startForMcpTool (Ok (mkCredentials "id" "secret" [])) (λ _ url _, url) busy "home"
      (mkAuthServer None None 3000 []) in
  (∃ message, first.1 = Ok (failure message))
  ∧ isRunning first.2 = true
  ∧ authTimeout first.2 = Some (mkTimer (5 * 60 * 1000))
  ∧ startForMcpTool (Ok (mkCredentials "id" "secret" [])) (λ _ url _, url) (λ _, Ok ())
      "home" first.2
    = (Ok (failure already_running_message), first.2)
  ∧ ∃ result,
      (startForMcpTool (Ok (mkCredentials "id" "secret" [])) (λ _ url _, url)
         (λ _, Ok ()) "home" (stop first.2)).1 = Ok result
      ∧ success result = true.
Proof.
  exact (startForMcpTool_failed_listen_blocks_retry (mkCredentials "id" "secret" [])
           (Ok (mkCredentials "id" "secret" [])) (λ _ url _, url)
           (λ _, Throw (fsError "EADDRINUSE" "listen EADDRINUSE: address already in use"))
           (λ _, Ok ()) "home" "home" _ (mkAuthServer None None 3000 [])
           eq_refl eq_refl).
Defined.

(** A start that cannot load the client credentials fails before
    the listener is created: the failure carries the error's message and
    the server stays idle, so the call can be repeated. *)
Theorem startForMcpTool_without_credentials
    (generateAuthUrl : credentials → string → list string → string)
    (listen : nat → outcome ()) (account : string) (e : js_error)
    (st : auth_server) :
  server st = None →
  startForMcpTool (Throw e) generateAuthUrl listen account st
  = (Ok (failure (err_message e)), st).
Proof.
  intros Hidle.
  unfold startForMcpTool, promise_catch, lift, gets, mbind, M_bind, mret, M_ret.
  cbn. rewrite Hidle. cbn. done.
Qed.

Lemma startForMcpTool_without_credentials_witness :
  startForMcpTool (Throw (Error "no credentials")) (λ _ url _, url) (λ _, Ok ()) "home"
    (mkAuthServer None None 3000 [])
  = (Ok (failure "no credentials"), mkAuthServer None None 3000 []).
Proof.
  exact (startForMcpTool_without_credentials (λ _ url _, url) (λ _, Ok ()) "home"
           (Error "no credentials") (mkAuthServer None None 3000 []) eq_refl).
Defined.

End AuthorizationSession.

(** ** More on the mailbox cache *)

Section MailboxCache.
Import MailboxRegistry.

Context {Client : Type}.
Variable users_getProfile : Client → option profile.

(** The registry right after a lookup that had to fetch. *)
Lemma getMailboxes_fetching (accounts : list (string * Client)) (now : Z)
    (st : @registry Client) :
  inFlightRequests st !! cache_key accounts = None →
  cache st !! cache_key accounts = None →
  getMailboxes accounts now st =
    (Fetching (fetches_issued st),
     mkRegistry (cache st)
       (<[cache_key accounts := fetches_issued st]> (inFlightRequests st))
       (<[fetches_issued st := (cache_key accounts, accounts)]> (pending_fetches st))
       (S (fetches_issued st))
       (remote_calls st ++ map GetProfile (accounts.*1))).
Proof. intros Hidle Hmiss. unfold getMailboxes. by rewrite Hidle, Hmiss. Qed.

(** X17.  [clearCache] does not cancel a fetch that is under way.  A
    lookup made after the clearing no longer finds the pending promise
    and sends the profile requests a second time; when the first fetch
    settles, its result enters the cleared cache all the same and its
    [finally] removes the registration of the second fetch, so the next
    lookup is served the first result from the cache while the second
    fetch is still pending. *)
Theorem clearCache_keeps_fetch_under_way (accounts : list (string * Client))
    (now1 now2 now3 now4 : Z) (st : @registry Client) :
  inFlightRequests st !! cache_key accounts = None →
  cache st !! cache_key accounts = None →
  (now4 - now3 < CACHE_TTL)%Z →
  let first := fetches_issued st in
  let cleared := clearCache (getMailboxes accounts now1 st).2 in
  let again := getMailboxes accounts now2 cleared in
  let settled := fetch_settles users_getProfile first now3 again.2 in
  let mailboxes := map (mailbox_of users_getProfile) accounts in
  again.1 = Fetching (S first)
  ∧ remote_calls again.2 =
      (remote_calls st ++ map GetProfile (accounts.*1)) ++ map GetProfile (accounts.*1)
  ∧ settled.1 = Some mailboxes
  ∧ pending_fetches settled.2 !! S first = Some (cache_key accounts, accounts)
  ∧ getMailboxes accounts now4 settled.2 = (Cached mailboxes, settled.2).
Proof.
  intros Hidle Hmiss Hfresh. cbn zeta.
  rewrite (getMailboxes_fetching accounts now1 st Hidle Hmiss). cbn [snd].
  unfold clearCache.
  cbn [pending_fetches fetches_issued remote_calls cache inFlightRequests].
  rewrite getMailboxes_fetching by apply lookup_empty.
  cbn [fst snd pending_fetches fetches_issued remote_calls cache inFlightRequests].
  split; [done |]. split; [done |].
  unfold fetch_settles. cbn [pending_fetches].
  rewrite lookup_insert_ne, lookup_insert_eq by lia.
  cbn [fst snd pending_fetches fetches_issued remote_calls cache inFlightRequests].
  split; [done |]. split.
  - rewrite lookup_delete_ne, lookup_insert_eq by lia. done.
  - unfold getMailboxes. cbn [cache inFlightRequests].
    rewrite lookup_delete_eq, lookup_insert_eq.
    by rewrite (proj2 (Z.ltb_lt _ _) Hfresh).
Qed.

End MailboxCache.

Lemma clearCache_keeps_fetch_under_way_witness :
  let accounts := [("home", ()); ("work", ())] in
  let cleared :=
    MailboxRegistry.clearCache
      (MailboxRegistry.getMailboxes accounts 1000 MailboxRegistry.empty_registry).2 in
  let again := MailboxRegistry.getMailboxes accounts 2000 cleared in
  let settled := MailboxRegistry.fetch_settles (λ _, None) 0 3000 again.2 in
  let mailboxes := map (MailboxRegistry.mailbox_of (λ _, None)) accounts in
  again.1 = MailboxRegistry.Fetching 1
  ∧ MailboxRegistry.remote_calls again.2 =
      [MailboxRegistry.GetProfile "home"; MailboxRegistry.GetProfile "work";
       MailboxRegistry.GetProfile "home"; MailboxRegistry.GetProfile "work"]
  ∧ settled.1 = Some mailboxes
  ∧ MailboxRegistry.pending_fetches settled.2 !! 1
    = Some (MailboxRegistry.cache_key accounts, accounts)
  ∧ MailboxRegistry.getMailboxes accounts 4000 settled.2
    = (MailboxRegistry.Cached mailboxes, settled.2).
Proof.
  apply (clearCache_keeps_fetch_under_way (λ _ : (), None) [("home", ()); ("work", ())]
           1000 2000 3000 4000 MailboxRegistry.empty_registry);
    [reflexivity | reflexivity | reflexivity].
Defined.

(** Within five minutes of the first answer the second lookup is
    served from the cache. *)
Lemma getMailboxes_cached_after_fetch_witness :
  let accounts := [("home", ()); ("work", ())] in
  let st1 := (MailboxRegistry.getMailboxes accounts 1000 MailboxRegistry.empty_registry).2 in
  let settled := MailboxRegistry.fetch_settles (λ _, None) 0 2000 st1 in
  let mailboxes := map (MailboxRegistry.mailbox_of (λ _, None)) accounts in
  settled.1 = Some mailboxes
  ∧ MailboxRegistry.getMailboxes accounts 3000 settled.2
    = (MailboxRegistry.Cached mailboxes, settled.2).
Proof.
  apply (getMailboxes_cached_after_fetch (λ _ : (), None) [("home", ()); ("work", ())]
           1000 2000 3000 MailboxRegistry.empty_registry);
    [reflexivity | reflexivity | reflexivity].
Defined.

(** ** Choosing the account of a request *)

Section AccountSelection.
Import MailboxRegistry BaseToolHandler MessageHandlers.

Context {Client : Type}.

Lemma map_get_Some (key : string) (client : Client) (accounts : list (string * Client)) :
  map_get key accounts = Some client → (key, client) ∈ accounts.
Proof.
  induction accounts as [| [k c] rest IH]; cbn; [done |].
  destruct (String.eqb_spec k key) as [-> | Hne].
  - intros [= ->]. apply elem_of_cons. by left.
  - intros Hrest. apply elem_of_cons. right. by apply IH.
Qed.

Lemma map_get_elem_of (key : string) (accounts : list (string * Client)) :
  key ∈ accounts.*1 → ∃ client, map_get key accounts = Some client.
Proof.
  induction accounts as [| [k c] rest IH]; cbn.
  - by intros ?%elem_of_nil.
  - intros [-> | Hrest]%elem_of_cons.
    + rewrite String.eqb_refl. eauto.
    + destruct (String.eqb k key); eauto.
Qed.

Lemma getClientForAccount_member (account : option string)
    (accounts : list (string * Client)) (client : Client) (accountId : string) :
  getClientForAccount account accounts = inr (client, accountId) →
  (accountId, client) ∈ accounts.
Proof.
  unfold getClientForAccount.
  destruct (length accounts =? 0)%nat; [done |].
  destruct (truthy_opt (JStr <$> account)).
  - destruct (Paths.validateAccountId _); try done.
    destruct (map_get _ accounts) as [c |] eqn:Hget; [| done].
    intros [= <- <-]. by apply map_get_Some.
  - destruct accounts as [| [accId c] [| ? ?]]; try done.
    intros [= <- <-]. apply elem_of_cons. by left.
Qed.

Lemma map_get_None (key : string) (accounts : list (string * Client)) :
  key ∉ accounts.*1 → map_get key accounts = None.
Proof.
  induction accounts as [| [k c] rest IH]; cbn; [done |].
  intros Hnot. apply not_elem_of_cons in Hnot as [Hne Hrest].
  destruct (String.eqb_spec k key) as [-> | _]; [done | by apply IH].
Qed.

Lemma map_get_unique (key : string) (client : Client) (accounts : list (string * Client)) :
  NoDup (accounts.*1) → (key, client) ∈ accounts → map_get key accounts = Some client.
Proof.
  induction accounts as [| [k c] rest IH]; cbn.
  - by intros _ ?%elem_of_nil.
  - intros [Hfresh Hrest]%NoDup_cons [[= -> ->] | Hin]%elem_of_cons.
    + by rewrite String.eqb_refl.
    + destruct (String.eqb_spec k key) as [-> | _]; [| by apply IH].
      destruct Hfresh. apply list_elem_of_fmap. by exists (key, client).
Qed.

Lemma map_get_map_set (key k : string) (client : Client)
    (result : list (string * Client)) :
  map_get key (map_set k client result)
  = if String.eqb k key then Some client else map_get key result.
Proof.
  induction result as [| [k' c'] rest IH]; cbn.
  - done.
  - destruct (String.eqb_spec k' k) as [-> | Hne]; cbn.
    + by destruct (String.eqb k key).
    + rewrite IH. destruct (String.eqb_spec k' key) as [-> | _]; [| done].
      by rewrite (proj2 (String.eqb_neq _ _)) by done.
Qed.

Lemma map_set_keys (k : string) (client : Client) (result : list (string * Client)) :
  NoDup (result.*1) →
  NoDup ((map_set k client result).*1)
  ∧ ∀ key, key ∈ (map_set k client result).*1 ↔ key = k ∨ key ∈ result.*1.
Proof.
  induction result as [| [k' c'] rest IH]; cbn.
  - intros _. split; [apply NoDup_singleton |].
    intros key. rewrite list_elem_of_singleton. split; [by left | by intros [? | ?%elem_of_nil]].
  - intros [Hfresh Hrest]%NoDup_cons.
    destruct (String.eqb_spec k' k) as [-> | Hne]; cbn.
    + split; [by apply NoDup_cons |]. intros key. rewrite elem_of_cons. tauto.
    + destruct (IH Hrest) as [Hnodup Hkeys]. split.
      * apply NoDup_cons. split; [| done]. rewrite Hkeys. intros [-> | Hin]; done.
      * intros key. rewrite !elem_of_cons, Hkeys. tauto.
Qed.

Lemma select_accounts_spec (ids : list string) (accounts result selected : list (string * Client)) :
  select_accounts ids accounts result = inr selected →
  NoDup (result.*1) →
  NoDup (selected.*1)
  ∧ ∀ key,
      map_get key selected =
        if bool_decide (key ∈ normalizeAccountId <$> ids) then map_get key accounts
        else map_get key result.
Proof.
  revert result. induction ids as [| id rest IH]; intros result; cbn.
  - intros [= <-] Hnodup. split; [done |]. intros key.
    rewrite bool_decide_eq_false_2; [done | apply not_elem_of_nil].
  - destruct (Paths.validateAccountId (normalizeAccountId id)); try done.
    destruct (map_get (normalizeAccountId id) accounts) as [client |] eqn:Hget; [| done].
    intros Hselect Hnodup.
    destruct (IH _ Hselect (proj1 (map_set_keys _ client _ Hnodup))) as [Hsel Hkeys].
    split; [done |]. intros key. rewrite Hkeys, map_get_map_set.
    destruct (decide (key ∈ normalizeAccountId <$> rest)) as [Hin | Hout].
    + rewrite !bool_decide_eq_true_2; [done | | done]. apply elem_of_cons. by right.
    + rewrite (bool_decide_eq_false_2 _ Hout).
      destruct (String.eqb_spec (normalizeAccountId id) key) as [<- | Hne].
      * rewrite bool_decide_eq_true_2; [done |]. apply elem_of_cons. by left.
      * rewrite bool_decide_eq_false_2; [done |].
        intros [-> | Hin]%elem_of_cons; done.
Qed.

(** X20.  When [getClientsForAccounts] is given at least one account id
    and succeeds, the map it returns has one entry for each requested id
    after lower-casing (duplicates collapse), every entry being the
    client that the map of authenticated accounts holds under that key,
    and nothing else. *)
Theorem getClientsForAccounts_selects (accountIds : account_arg)
    (accounts selected : list (string * Client)) :
  getClientsForAccounts accountIds accounts = inr selected →
  normalizeAccountIds accountIds ≠ [] →
  NoDup (selected.*1)
  ∧ (∀ key,
       map_get key selected =
         if bool_decide (key ∈ normalizeAccountId <$> normalizeAccountIds accountIds)
         then map_get key accounts else None)
  ∧ ∀ id, id ∈ normalizeAccountIds accountIds →
          ∃ client, map_get (normalizeAccountId id) selected = Some client.
Proof.
  unfold getClientsForAccounts. intros Hselected Hrequested.
  destruct (length accounts =? 0)%nat; [done |].
  destruct (normalizeAccountIds accountIds) as [| id0 ids] eqn:Hids; [done |].
  cbn [length Nat.eqb] in Hselected.
  destruct (select_accounts_spec _ _ _ _ Hselected
              (NoDup_nil_2 : NoDup ([] : list (string * Client)).*1))
    as [Hnodup Hkeys].
  split; [done |]. split; [exact Hkeys |].
  intros id Hid.
  assert (∀ wanted others result,
            select_accounts wanted accounts others = inr result →
            ∀ id, id ∈ wanted → is_Some (map_get (normalizeAccountId id) accounts))
    as Hknown.
  { induction wanted as [| r wanted IH]; intros others result; cbn.
    - by intros _ ? ?%elem_of_nil.
    - destruct (Paths.validateAccountId (normalizeAccountId r)); try done.
      destruct (map_get (normalizeAccountId r) accounts) as [c |] eqn:Hr; [| done].
      intros Hrest i [-> | Hi]%elem_of_cons; [by rewrite Hr | by eapply IH]. }
  destruct (Hknown _ _ _ Hselected id Hid) as [client Hclient].
  exists client. rewrite Hkeys, bool_decide_eq_true_2; [done |].
  apply list_elem_of_fmap. by exists id.
Qed.

Lemma string_le_refl (a : string) : MailboxRegistry.string_le a a.
Proof. by destruct (String.leb_total a a). Qed.

(** X21.  With no account named, [getClientForAccountOrFirst] answers
    with the entry whose id is least in the order of [sort()], whatever
    the order in which the map holds its entries: two maps with the same
    entries give the same client. *)
Theorem getClientForAccountOrFirst_least (accounts1 accounts2 : list (string * Client)) :
  accounts1 ≠ [] →
  NoDup (accounts1.*1) →
  accounts1 ≡ₚ accounts2 →
  ∃ client accountId,
    getClientForAccountOrFirst None accounts1 = inr (client, accountId)
    ∧ getClientForAccountOrFirst None accounts2 = inr (client, accountId)
    ∧ (accountId, client) ∈ accounts1
    ∧ ∀ other, other ∈ accounts1.*1 → MailboxRegistry.string_le accountId other.
Proof.
  intros Hsome Hnodup Hperm.
  assert (accounts2 ≠ []) as Hsome2.
  { intros ->. by apply Permutation_nil_r in Hperm. }
  assert (merge_sort MailboxRegistry.string_le (accounts2.*1)
          = merge_sort MailboxRegistry.string_le (accounts1.*1)) as Hsame.
  { apply (Sorted_unique MailboxRegistry.string_le).
    - apply (Sorted_merge_sort _).
    - apply (Sorted_merge_sort _).
    - by rewrite !merge_sort_Permutation, Hperm. }
  unfold getClientForAccountOrFirst.
  assert ((length accounts1 =? 0)%nat = false) as -> by by destruct accounts1.
  assert ((length accounts2 =? 0)%nat = false) as -> by by destruct accounts2.
  change (truthy_opt (JStr <$> None)) with false. cbv iota zeta.
  rewrite Hsame.
  pose proof (Sorted_merge_sort MailboxRegistry.string_le (accounts1.*1)) as Hsorted.
  pose proof (merge_sort_Permutation MailboxRegistry.string_le (accounts1.*1)) as Hkeys.
  destruct (merge_sort MailboxRegistry.string_le (accounts1.*1)) as [| first others].
  { apply Permutation_nil_l in Hkeys. by destruct accounts1. }
  assert (first ∈ accounts1.*1) as Hfirst.
  { rewrite <- Hkeys. apply elem_of_cons. by left. }
  destruct (map_get_elem_of first accounts1 Hfirst) as [client Hclient].
  exists client, first. rewrite Hclient.
  pose proof (map_get_Some _ _ _ Hclient) as Hentry.
  assert (map_get first accounts2 = Some client) as ->.
  { apply map_get_unique; [by rewrite <- Hperm | by rewrite <- Hperm]. }
  split; [done |]. split; [done |]. split; [done |].
  intros other Hother. rewrite <- Hkeys in Hother.
  apply elem_of_cons in Hother as [-> | Hother]; [apply string_le_refl |].
  apply Sorted_StronglySorted in Hsorted; [| apply _].
  apply StronglySorted_inv in Hsorted as [_ Hleast].
  by eapply Forall_forall in Hleast.
Qed.

Variable users_messages_get : Client → string → bool.

Lemma findAccountForMessage_member (messageId : string)
    (accounts : list (string * Client)) (st st' : @MailboxRegistry.registry Client)
    (entry : string * Client) :
  MailboxRegistry.findAccountForMessage users_messages_get messageId accounts st
  = (Some entry, st') →
  entry ∈ accounts.
Proof.
  unfold MailboxRegistry.findAccountForMessage.
  intros Hfound.
  assert (MailboxRegistry.probe_accounts users_messages_get messageId accounts st
          = (Some entry, st') → entry ∈ accounts) as Hprobe.
  { intros Hp. pose proof (probe_accounts_first users_messages_get messageId accounts st)
      as Hfirst.
    rewrite Hp in Hfirst. destruct Hfirst as (before & after & -> & _).
    apply elem_of_app. right. apply elem_of_cons. by left. }
  destruct accounts as [| e [| e' rest]]; [by apply Hprobe | | by apply Hprobe].
  injection Hfound as <- _. apply elem_of_cons. by left.
Qed.

(** X18.  The account that [DeleteEmailHandler], [ModifyEmailHandler]
    and [DownloadAttachmentHandler] send their request to is always an
    entry of the map of authenticated accounts; and when the caller
    names an account, it is the entry of the lower-cased name and no
    account is probed for the message. *)
Theorem resolveAccount_member (account : option string) (messageId : string)
    (accounts : list (string * Client)) (st st' : @MailboxRegistry.registry Client)
    (client : Client) (accountId : string) :
  resolveAccount users_messages_get account messageId accounts st
  = (inr (client, accountId), st') →
  (accountId, client) ∈ accounts
  ∧ (truthy_opt (JStr <$> account) = true →
     st' = st ∧ accountId = toLowerCase (default "" account)).
Proof.
  unfold resolveAccount.
  destruct (truthy_opt (JStr <$> account)) eqn:Hnamed.
  - intros [= Hget <-]. split; [by eapply getClientForAccount_member |].
    intros _. split; [done |].
    unfold getClientForAccount in Hget. rewrite Hnamed in Hget.
    destruct (length accounts =? 0)%nat; [done |].
    destruct (Paths.validateAccountId _); try done.
    destruct (map_get _ accounts); [| done]. by injection Hget as _ <-.
  - destruct (MailboxRegistry.findAccountForMessage _ _ _ _) as [[[id c] |] st1] eqn:Hfind.
    + intros [= <- <- <-]. split; [| done].
      by eapply findAccountForMessage_member.
    + intros [= Hget <-]. split; [| done]. by eapply getClientForAccount_member.
Qed.

(** X19.  With no account named and a message that none of several
    accounts holds, these handlers probe every account, in the order of
    the map, and then fail with [InvalidRequest]: no request to delete,
    modify or download is sent. *)
Theorem resolveAccount_message_nowhere (account : option string) (messageId : string)
    (accounts : list (string * Client)) (st : @MailboxRegistry.registry Client) :
  truthy_opt (JStr <$> account) = false →
  length accounts ≠ 1 →
  Forall (λ entry, users_messages_get entry.2 messageId = false) accounts →
  ∃ error st',
    resolveAccount users_messages_get account messageId accounts st = (inl error, st')
    ∧ code error = InvalidRequest
    ∧ MailboxRegistry.remote_calls st' =
        MailboxRegistry.remote_calls st ++ MailboxRegistry.probes messageId accounts.
Proof.
  intros Hunnamed Hsize Hnowhere. unfold resolveAccount. rewrite Hunnamed.
  assert (MailboxRegistry.findAccountForMessage users_messages_get messageId accounts st
          = MailboxRegistry.probe_accounts users_messages_get messageId accounts st) as ->.
  { destruct accounts as [| e [| e' rest]]; [done | | done]. by destruct Hsize. }
  pose proof (probe_accounts_first users_messages_get messageId accounts st) as Hfirst.
  destruct (MailboxRegistry.probe_accounts _ _ _ _) as [[entry |] st1].
  - destruct Hfirst as (before & after & -> & _ & Hentry & _).
    apply Forall_app in Hnowhere as [_ Hrest].
    apply Forall_cons in Hrest as [Hfalse _]. congruence.
  - destruct Hfirst as [_ Hcalls].
    destruct accounts as [| e [| e' rest]]; [| by destruct Hsize |].
    + eexists _, st1. by repeat split.
    + destruct e as [accId c]. eexists _, st1. by repeat split.
Qed.

End AccountSelection.

Lemma getClientsForAccounts_selects_witness :
  let accounts := [("home", 1); ("work", 2); ("club", 3)] in
  let selected := [("work", 2); ("home", 1)] in
  NoDup (selected.*1)
  ∧ (∀ key,
       BaseToolHandler.map_get key selected =
         if bool_decide (key ∈ BaseToolHandler.normalizeAccountId <$> ["Work"; "home"; "WORK"])
         then BaseToolHandler.map_get key accounts else None)
  ∧ ∀ id, id ∈ ["Work"; "home"; "WORK"] →
          ∃ client,
            BaseToolHandler.map_get (BaseToolHandler.normalizeAccountId id) selected
            = Some client.
Proof.
  apply (getClientsForAccounts_selects
           (BaseToolHandler.ManyAccounts ["Work"; "home"; "WORK"])
           [("home", 1); ("work", 2); ("club", 3)] [("work", 2); ("home", 1)]);
    [reflexivity | discriminate].
Defined.

Lemma getClientForAccountOrFirst_least_witness :
  ∃ client accountId,
    BaseToolHandler.getClientForAccountOrFirst None [("work", 2); ("home", 1)]
    = inr (client, accountId)
    ∧ BaseToolHandler.getClientForAccountOrFirst None [("home", 1); ("work", 2)]
      = inr (client, accountId)
    ∧ (accountId, client) ∈ [("work", 2); ("home", 1)]
    ∧ ∀ other, other ∈ ["work"; "home"] → MailboxRegistry.string_le accountId other.
Proof.
  apply (getClientForAccountOrFirst_least [("work", 2); ("home", 1)]
           [("home", 1); ("work", 2)]).
  - discriminate.
  - apply NoDup_cons. split; [| apply NoDup_singleton].
    intros Hin. apply list_elem_of_singleton in Hin. discriminate Hin.
  - apply Permutation_swap.
Defined.

Lemma resolveAccount_member_witness :
  ("work", 2) ∈ [("home", 1); ("work", 2)]
  ∧ (truthy_opt (JStr <$> Some "Work") = true →
     @MailboxRegistry.empty_registry nat = MailboxRegistry.empty_registry
     ∧ "work" = toLowerCase (default "" (Some "Work"))).
Proof.
  apply (resolveAccount_member (λ _ _, false) (Some "Work") "m1"
           [("home", 1); ("work", 2)] MailboxRegistry.empty_registry
           MailboxRegistry.empty_registry 2 "work").
  reflexivity.
Defined.

Lemma resolveAccount_message_nowhere_witness :
  ∃ error st',
    MessageHandlers.resolveAccount (λ _ _, false) None "m1" [("home", 1); ("work", 2)]
      MailboxRegistry.empty_registry = (inl error, st')
    ∧ BaseToolHandler.code error = BaseToolHandler.InvalidRequest
    ∧ MailboxRegistry.remote_calls st' =
        [MailboxRegistry.MessagesGet "home" "m1"; MailboxRegistry.MessagesGet "work" "m1"].
Proof.
  apply (resolveAccount_message_nowhere (λ _ _, false) None "m1"
           [("home", 1); ("work", 2)] MailboxRegistry.empty_registry).
  - reflexivity.
  - discriminate.
  - repeat constructor.
Defined.

(** ** Numbers

    The numbers of the batch loop are exact on the integers it meets:
    adding, comparing and truncating the numbers of two integers between
    0 and [2 ^ 53] is adding, comparing and keeping these integers. *)

Section Numbers.
Import SpecFloat MessageHandlers.
Local Open Scope Z_scope.

#[local] Abbreviation exact m := (Build_shr_record m false false).

(** The number that holds a positive integer below [2 ^ 53]. *)
#[local] Abbreviation normal p :=
  (S754_finite false (Z.to_pos (Z.pos p * 2 ^ (53 - Z.pos (digits2_pos p))))
     (Z.pos (digits2_pos p) - 53)).

Lemma digits2_pos_bounds (p : positive) :
  2 ^ (Z.pos (digits2_pos p) - 1) ≤ Z.pos p < 2 ^ Z.pos (digits2_pos p).
Proof.
  induction p as [p IH | p IH |]; cbn [digits2_pos].
  - rewrite Pos2Z.inj_succ.
    replace (Z.succ (Z.pos (digits2_pos p)) - 1) with (Z.succ (Z.pos (digits2_pos p) - 1))
      by lia.
    rewrite !Z.pow_succ_r by lia. lia.
  - rewrite Pos2Z.inj_succ.
    replace (Z.succ (Z.pos (digits2_pos p)) - 1) with (Z.succ (Z.pos (digits2_pos p) - 1))
      by lia.
    rewrite !Z.pow_succ_r by lia. lia.
  - cbn. lia.
Qed.

Lemma digits2_pos_unique (p : positive) (k : Z) :
  2 ^ (k - 1) ≤ Z.pos p < 2 ^ k → Z.pos (digits2_pos p) = k.
Proof.
  intros [Hlow Hhigh]. pose proof (digits2_pos_bounds p) as [Hl Hh].
  set (d := Z.pos (digits2_pos p)) in *.
  assert (0 < d) by (subst d; lia).
  destruct (Z.lt_trichotomy d k) as [Hlt | [Heq | Hgt]]; [| done |].
  - assert (2 ^ d ≤ 2 ^ (k - 1)) by (apply Z.pow_le_mono_r; lia). lia.
  - assert (0 ≤ k).
    { destruct (Z.lt_ge_cases k 0) as [Hneg |]; [| done].
      rewrite (Z.pow_neg_r 2 k) in Hhigh by done. lia. }
    assert (2 ^ k ≤ 2 ^ (d - 1)) by (apply Z.pow_le_mono_r; lia). lia.
Qed.

Lemma digits2_pos_shift (p q : positive) (n : Z) :
  0 ≤ n → Z.pos q = Z.pos p * 2 ^ n →
  Z.pos (digits2_pos q) = Z.pos (digits2_pos p) + n.
Proof.
  intros Hn Hq. apply digits2_pos_unique. rewrite Hq.
  pose proof (digits2_pos_bounds p) as [Hl Hh].
  replace (Z.pos (digits2_pos p) + n - 1) with (Z.pos (digits2_pos p) - 1 + n) by lia.
  rewrite !Z.pow_add_r by lia.
  assert (0 < 2 ^ n) by (apply Z.pow_pos_nonneg; lia).
  split; [apply Z.mul_le_mono_nonneg_r | apply Z.mul_lt_mono_pos_r]; lia.
Qed.

Lemma iter_pos_nat {A : Type} (f : A → A) (k : positive) (x : A) :
  iter_pos f k x = Nat.iter (Pos.to_nat k) f x.
Proof.
  revert x. induction k as [k IH | k IH |]; intros x; cbn [iter_pos].
  - rewrite !IH, Pos2Nat.inj_xI. cbn [Nat.iter Nat.mul].
    rewrite Nat.add_0_r, <- Nat.iter_add. by rewrite <- Nat.iter_succ_r.
  - rewrite !IH, Pos2Nat.inj_xO. cbn [Nat.mul].
    by rewrite Nat.add_0_r, <- Nat.iter_add.
  - reflexivity.
Qed.

Lemma shr_1_exact (n : nat) (M q : positive) :
  Z.pos M = Z.pos q * 2 ^ Z.of_nat n →
  Nat.iter n shr_1 (exact (Z.pos M)) = exact (Z.pos q).
Proof.
  revert M. induction n as [| n IH]; intros M HM.
  - cbn in *. f_equal. lia.
  - rewrite Nat.iter_succ_r. rewrite Nat2Z.inj_succ, Z.pow_succ_r in HM by lia.
    destruct M as [M | M |]; [lia | | ].
    + cbn [shr_1 orb]. apply IH. lia.
    + assert (0 < 2 ^ Z.of_nat n) by (apply Z.pow_pos_nonneg; lia). nia.
Qed.


Lemma shr_exact (M q : positive) (E n : Z) :
  0 ≤ n → Z.pos M = Z.pos q * 2 ^ n →
  shr (exact (Z.pos M)) E n = (exact (Z.pos q), E + n).
Proof.
  intros Hn HM. destruct n as [| k | k]; [| | lia].
  - cbn. rewrite Z.add_0_r. do 2 f_equal. rewrite Z.pow_0_r in HM. lia.
  - cbn [shr]. rewrite iter_pos_nat. rewrite (shr_1_exact _ M q); [done |].
    by rewrite positive_nat_Z.
Qed.

Lemma fexp_normal (e : Z) : -1074 ≤ e → fexp 53 1024 (53 + e) = e.
Proof. intros He. unfold fexp, emin. lia. Qed.

(** Rounding a value that a mantissa of 53 bits holds gives that
    mantissa. *)
Lemma binary_round_aux_exact (M q : positive) (E n : Z) :
  0 ≤ n → Z.pos M = Z.pos q * 2 ^ n → Z.pos (digits2_pos q) = 53 →
  -1074 ≤ E + n ≤ 971 →
  binary_round_aux 53 1024 false (Z.pos M) E loc_Exact = S754_finite false q (E + n).
Proof.
  intros Hn HM Hq Hrange.
  pose proof (digits2_pos_shift q M n Hn HM) as HdM.
  unfold binary_round_aux, shr_fexp. cbn [Zdigits2 shr_record_of_loc].
  rewrite HdM, Hq.
  replace (53 + n + E) with (53 + (E + n)) by lia. rewrite fexp_normal by lia.
  replace (E + n - E) with n by lia.
  rewrite (shr_exact M q E n Hn HM).
  cbn [shr_m loc_of_shr_record round_nearest_even Zdigits2 shr_record_of_loc].
  rewrite Hq, fexp_normal by lia. rewrite Z.sub_diag. cbn [shr shr_m].
  by rewrite (proj2 (Z.leb_le _ _)) by lia.
Qed.

Lemma binary_round_exact (M q : positive) (E n : Z) :
  0 ≤ n → Z.pos M = Z.pos q * 2 ^ n → Z.pos (digits2_pos q) = 53 →
  -1074 ≤ E + n ≤ 971 →
  binary_round 53 1024 false M E = S754_finite false q (E + n).
Proof.
  intros Hn HM Hq Hrange.
  pose proof (digits2_pos_shift q M n Hn HM) as HdM.
  unfold binary_round. rewrite HdM, Hq.
  replace (53 + n + E) with (53 + (E + n)) by lia. rewrite fexp_normal by lia.
  unfold shl_align. replace (E + n - E) with n by lia.
  destruct n as [| k | k]; [| | lia]; by apply binary_round_aux_exact.
Qed.

Lemma normal_mantissa (p : positive) :
  Z.pos (digits2_pos p) ≤ 53 →
  let q := Z.to_pos (Z.pos p * 2 ^ (53 - Z.pos (digits2_pos p))) in
  Z.pos q = Z.pos p * 2 ^ (53 - Z.pos (digits2_pos p))
  ∧ Z.pos (digits2_pos q) = 53.
Proof.
  intros Hd q.
  assert (0 < 2 ^ (53 - Z.pos (digits2_pos p))) by (apply Z.pow_pos_nonneg; lia).
  assert (Z.pos q = Z.pos p * 2 ^ (53 - Z.pos (digits2_pos p))) as Hq.
  { subst q. rewrite Z2Pos.id; [done | lia]. }
  split; [done |].
  rewrite (digits2_pos_shift p q (53 - Z.pos (digits2_pos p))); [lia | lia | done].
Qed.

Lemma number_of_Z_pos (p : positive) :
  Z.pos p < 2 ^ 53 → number_of_Z (Z.pos p) = normal p.
Proof.
  intros Hp.
  assert (Z.pos (digits2_pos p) ≤ 53) as Hd.
  { pose proof (digits2_pos_bounds p) as [Hl _].
    destruct (Z.le_gt_cases (Z.pos (digits2_pos p)) 53) as [| Hgt]; [done |].
    assert (2 ^ 53 ≤ 2 ^ (Z.pos (digits2_pos p) - 1)) by (apply Z.pow_le_mono_r; lia).
    lia. }
  destruct (normal_mantissa p Hd) as [Hq Hdq].
  unfold number_of_Z, binary_normalize, binary_round.
  set (d := Z.pos (digits2_pos p)) in *.
  set (q := Z.to_pos (Z.pos p * 2 ^ (53 - d))) in *.
  assert (0 < d) by (subst d; lia).
  rewrite Z.add_0_r. assert (fexp 53 1024 d = d - 53) as -> by (unfold fexp, emin; lia).
  unfold shl_align. rewrite Z.sub_0_r.
  destruct (d - 53) as [| k | k] eqn:Hk; [| lia |].
  - assert (q = p) as ->.
    { apply Pos2Z.inj. rewrite Hq. replace (53 - d) with 0 by lia. rewrite Z.pow_0_r. lia. }
    rewrite <- (Z.add_0_r 0) at 1.
    apply (binary_round_aux_exact p p 0 0); [lia | rewrite Z.pow_0_r; lia | | lia].
    subst d. lia.
  - assert (Pos.iter xO p k = q) as ->.
    { apply Pos2Z.inj. rewrite Hq. change (Pos.iter xO p k) with (shift_pos k p).
      rewrite shift_pos_correct. replace (53 - d) with (Z.pos k) by lia.
      rewrite Z.pow_pos_fold. lia. }
    rewrite <- (Z.add_0_r (Z.neg k)) at 2.
    apply (binary_round_aux_exact q q (Z.neg k) 0); [lia | rewrite Z.pow_0_r; lia | done | lia].
Qed.

Lemma number_of_Z_0 : number_of_Z 0 = S754_zero false.
Proof. reflexivity. Qed.


Lemma digits2_pos_below (p : positive) :
  Z.pos p < 2 ^ 53 → Z.pos (digits2_pos p) ≤ 53.
Proof.
  intros Hp. pose proof (digits2_pos_bounds p) as [Hl _].
  destruct (Z.le_gt_cases (Z.pos (digits2_pos p)) 53) as [| Hgt]; [done |].
  assert (2 ^ 53 ≤ 2 ^ (Z.pos (digits2_pos p) - 1)) by (apply Z.pow_le_mono_r; lia).
  lia.
Qed.

Lemma digits2_pos_mono (p q : positive) :
  Z.pos p ≤ Z.pos q → Z.pos (digits2_pos p) ≤ Z.pos (digits2_pos q).
Proof.
  intros Hle. pose proof (digits2_pos_bounds p) as [Hl _].
  pose proof (digits2_pos_bounds q) as [_ Hh].
  destruct (Z.le_gt_cases (Z.pos (digits2_pos p)) (Z.pos (digits2_pos q))) as [| Hgt];
    [done |].
  assert (2 ^ Z.pos (digits2_pos q) ≤ 2 ^ (Z.pos (digits2_pos p) - 1))
    by (apply Z.pow_le_mono_r; lia).
  lia.
Qed.

Lemma shl_align_value (m : positive) (e e' : Z) :
  e' ≤ e → Z.pos (fst (shl_align m e e')) = Z.pos m * 2 ^ (e - e').
Proof.
  intros Hle. unfold shl_align. destruct (e' - e) as [| k | k] eqn:Hk; [| lia |].
  - replace (e - e') with 0 by lia. cbn. lia.
  - cbn [fst]. change (Pos.iter xO m k) with (shift_pos k m).
    rewrite shift_pos_correct, Z.pow_pos_fold. replace (e - e') with (Z.pos k) by lia.
    lia.
Qed.

Lemma number_add_normal (a b : positive) :
  Z.pos a + Z.pos b < 2 ^ 53 →
  number_add (normal a) (normal b) = normal (a + b).
Proof.
  intros Hsum.
  assert (Z.pos (digits2_pos (a + b)) ≤ 53) as Hd by (apply digits2_pos_below; lia).
  assert (Z.pos (digits2_pos a) ≤ Z.pos (digits2_pos (a + b))) as Hda
    by (apply digits2_pos_mono; lia).
  assert (Z.pos (digits2_pos b) ≤ Z.pos (digits2_pos (a + b))) as Hdb
    by (apply digits2_pos_mono; lia).
  destruct (normal_mantissa a) as [Hqa _]; [lia |].
  destruct (normal_mantissa b) as [Hqb _]; [lia |].
  destruct (normal_mantissa (a + b)%positive Hd) as [Hq Hdq].
  unfold number_add, SFadd.
  set (da := Z.pos (digits2_pos a)) in *. set (db := Z.pos (digits2_pos b)) in *.
  set (d := Z.pos (digits2_pos (a + b))) in *.
  set (qa := Z.to_pos (Z.pos a * 2 ^ (53 - da))) in *.
  set (qb := Z.to_pos (Z.pos b * 2 ^ (53 - db))) in *.
  set (q := Z.to_pos (Z.pos (a + b) * 2 ^ (53 - d))) in *.
  set (ez := Z.min (da - 53) (db - 53)).
  assert (0 < da ∧ 0 < db) as [? ?] by (subst da db; lia).
  cbn [cond_Zopp].
  pose proof (shl_align_value qa (da - 53) ez ltac:(lia)) as HA.
  pose proof (shl_align_value qb (db - 53) ez ltac:(lia)) as HB.
  set (A := fst (shl_align qa (da - 53) ez)) in *.
  set (B := fst (shl_align qb (db - 53) ez)) in *.
  change (Z.pos A + Z.pos B) with (Z.pos (A + B)). cbn [binary_normalize].
  replace (d - 53) with (ez + (d - 53 - ez)) by lia.
  apply binary_round_exact; [lia | | done | lia].
  rewrite Pos2Z.inj_add, HA, HB, Hqa, Hqb, Hq, Pos2Z.inj_add.
  rewrite <- !Z.mul_assoc, <- !Z.pow_add_r by lia.
  replace (53 - da + (da - 53 - ez)) with (- ez) by lia.
  replace (53 - db + (db - 53 - ez)) with (- ez) by lia.
  replace (53 - d + (d - 53 - ez)) with (- ez) by lia.
  lia.
Qed.

Lemma number_lessThan_normal (a b : positive) :
  Z.pos a < 2 ^ 53 → Z.pos b < 2 ^ 53 →
  number_lessThan (normal a) (normal b) = (Z.pos a <? Z.pos b).
Proof.
  intros Ha Hb.
  destruct (normal_mantissa a (digits2_pos_below a Ha)) as [Hqa _].
  destruct (normal_mantissa b (digits2_pos_below b Hb)) as [Hqb _].
  pose proof (digits2_pos_bounds a) as [Hla Hha].
  pose proof (digits2_pos_bounds b) as [Hlb Hhb].
  pose proof (digits2_pos_below a Ha) as Hda.
  pose proof (digits2_pos_below b Hb) as Hdb.
  unfold number_lessThan, SFltb, SFcompare.
  set (da := Z.pos (digits2_pos a)) in *. set (db := Z.pos (digits2_pos b)) in *.
  set (qa := Z.to_pos (Z.pos a * 2 ^ (53 - da))) in *.
  set (qb := Z.to_pos (Z.pos b * 2 ^ (53 - db))) in *.
  destruct (Z.compare_spec (da - 53) (db - 53)) as [Heq | Hlt | Hgt].
  - assert (da = db) as Hsame by lia.
    change (Pos.compare_cont Eq qa qb) with (Z.pos qa ?= Z.pos qb).
    assert (0 < 2 ^ (53 - db)) by (apply Z.pow_pos_nonneg; lia).
    destruct (Z.compare_spec (Z.pos qa) (Z.pos qb)) as [Hq | Hq | Hq];
      rewrite Hqa, Hqb, Hsame in Hq; symmetry;
      [apply Z.ltb_ge | apply Z.ltb_lt | apply Z.ltb_ge]; nia.
  - symmetry. apply Z.ltb_lt.
    assert (2 ^ da ≤ 2 ^ (db - 1)) by (apply Z.pow_le_mono_r; lia). lia.
  - symmetry. apply Z.ltb_ge.
    assert (2 ^ db ≤ 2 ^ (da - 1)) by (apply Z.pow_le_mono_r; lia). lia.
Qed.

Lemma ToIntegerOrInfinity_normal (a : positive) :
  Z.pos a < 2 ^ 53 → ToIntegerOrInfinity (normal a) = Integer (Z.pos a).
Proof.
  intros Ha. destruct (normal_mantissa a (digits2_pos_below a Ha)) as [Hqa _].
  pose proof (digits2_pos_below a Ha) as Hd.
  unfold ToIntegerOrInfinity. cbn [cond_Zopp]. f_equal.
  rewrite Hqa. set (d := Z.pos (digits2_pos a)) in *.
  rewrite Z.shiftl_div_pow2 by lia. replace (- (d - 53)) with (53 - d) by lia.
  apply Z.div_mul. apply Z.pow_nonzero; lia.
Qed.

(** On the integers from 0 to [2 ^ 53] the numbers are exact. *)
Lemma number_add_exact (a b : Z) :
  0 ≤ a → 0 ≤ b → a + b < 2 ^ 53 →
  number_add (number_of_Z a) (number_of_Z b) = number_of_Z (a + b).
Proof.
  intros Ha Hb Hsum. destruct a as [| a | a]; [| | lia]; destruct b as [| b | b]; try lia.
  - reflexivity.
  - rewrite Z.add_0_l. rewrite number_of_Z_pos by lia. reflexivity.
  - rewrite Z.add_0_r. rewrite number_of_Z_pos by lia. reflexivity.
  - change (Z.pos a + Z.pos b) with (Z.pos (a + b)) in *.
    rewrite !number_of_Z_pos by lia. apply number_add_normal. lia.
Qed.

Lemma number_lessThan_exact (a b : Z) :
  0 ≤ a < 2 ^ 53 → 0 ≤ b < 2 ^ 53 →
  number_lessThan (number_of_Z a) (number_of_Z b) = (a <? b).
Proof.
  intros Ha Hb. destruct a as [| a | a]; [| | lia]; destruct b as [| b | b]; try lia.
  - reflexivity.
  - rewrite number_of_Z_pos by lia. reflexivity.
  - rewrite number_of_Z_pos by lia. reflexivity.
  - rewrite !number_of_Z_pos by lia. apply number_lessThan_normal; lia.
Qed.

Lemma ToIntegerOrInfinity_exact (a : Z) :
  0 ≤ a < 2 ^ 53 → ToIntegerOrInfinity (number_of_Z a) = Integer a.
Proof.
  intros Ha. destruct a as [| a | a]; [reflexivity | | lia].
  rewrite number_of_Z_pos by lia. apply ToIntegerOrInfinity_normal. lia.
Qed.


(** Rounding keeps the sign it is given: the result is a zero, a finite
    number or an infinity of that sign. *)
Lemma shr_1_nonneg (mrs : shr_record) : 0 ≤ shr_m mrs → 0 ≤ shr_m (shr_1 mrs).
Proof. destruct mrs as [[| [m | m |] | m] r s]; cbn; lia. Qed.

Lemma shr_fexp_nonneg (m e : Z) (l : location) :
  0 ≤ m → 0 ≤ shr_m (shr_fexp 53 1024 m e l).1.
Proof.
  intros Hm. unfold shr_fexp, shr.
  assert (0 ≤ shr_m (shr_record_of_loc m l)) as Hrecord by (by destruct l as [| []]).
  destruct (fexp 53 1024 (Zdigits2 m + e) - e) as [| k | k]; [done | | done].
  cbn [fst]. rewrite iter_pos_nat.
  induction (Pos.to_nat k) as [| n IH]; [done |]. cbn [Nat.iter]. by apply shr_1_nonneg.
Qed.

Lemma binary_round_aux_sign (sx : bool) (mx ex : Z) (lx : location) :
  0 ≤ mx →
  match binary_round_aux 53 1024 sx mx ex lx with
  | S754_nan => False
  | S754_zero s | S754_infinity s | S754_finite s _ _ => s = sx
  end.
Proof.
  intros Hmx. unfold binary_round_aux.
  pose proof (shr_fexp_nonneg mx ex lx Hmx) as Hfirst.
  destruct (shr_fexp 53 1024 mx ex lx) as [mrs' e']. cbn [fst] in Hfirst.
  assert (0 ≤ round_nearest_even (shr_m mrs') (loc_of_shr_record mrs')) as Hround.
  { unfold round_nearest_even.
    destruct (loc_of_shr_record mrs') as [| []]; [done | | done | lia].
    destruct (Z.even (shr_m mrs')); lia. }
  pose proof (shr_fexp_nonneg _ e' loc_Exact Hround) as Hsecond.
  destruct (shr_fexp 53 1024 _ e' loc_Exact) as [mrs'' e'']. cbn [fst] in Hsecond.
  destruct (shr_m mrs'') as [| m | m]; [done | | lia].
  by destruct (e'' <=? 1024 - 53).
Qed.

(** A number that is a zero, negative or minus infinity. *)
#[local] Abbreviation at_most_zero x :=
  (match x with
   | S754_zero _ | S754_finite true _ _ | S754_infinity true => True
   | _ => False
   end).

Lemma number_lessThan_0 (x : number) :
  number_lessThan x (number_of_Z 0) = true →
  match x with
  | S754_finite true _ _ | S754_infinity true => True
  | _ => False
  end.
Proof. by destruct x as [[] | [] | | [] m e]. Qed.

Lemma number_add_downward (i batchSize : number) :
  at_most_zero i → number_lessThan batchSize (number_of_Z 0) = true →
  at_most_zero (number_add i batchSize).
Proof.
  intros Hi Hb. apply number_lessThan_0 in Hb.
  destruct i as [si | [] | | [] mi ei]; try done;
    destruct batchSize as [sb | [] | | [] mb eb]; try done.
  unfold number_add, SFadd. cbn [cond_Zopp].
  set (ez := Z.min ei eb).
  set (A := fst (shl_align mi ei ez)). set (B := fst (shl_align mb eb ez)).
  change (- Z.pos A + - Z.pos B) with (Z.neg (A + B)).
  cbn [binary_normalize]. unfold binary_round.
  destruct (shl_align (A + B) ez _) as [mz ez'].
  pose proof (binary_round_aux_sign true (Z.pos mz) ez' loc_Exact ltac:(lia)) as Hsign.
  destruct (binary_round_aux 53 1024 true (Z.pos mz) ez' loc_Exact)
    as [s | s | | s m e]; try done; by subst s.
Qed.

Lemma number_lessThan_length (i : number) (len : Z) :
  at_most_zero i → 0 < len < 2 ^ 53 →
  number_lessThan i (number_of_Z len) = true.
Proof.
  intros Hi Hlen. destruct len as [| p | p]; [lia | | lia].
  rewrite number_of_Z_pos by lia.
  by destruct i as [si | [] | | [] mi ei].
Qed.

End Numbers.

(** ** Deleting in batches *)

Section BatchDelete.
Import BaseToolHandler MessageHandlers.

Context {Client : Type}.
Variable users_messages_delete : Client → string → option string.

Lemma slice_forward {A : Type} (array : list A) (i batchSize : Z) :
  (0 ≤ i)%Z → (0 < batchSize)%Z → (i + batchSize < 2 ^ 53)%Z →
  slice array (number_of_Z i) (number_of_Z (i + batchSize))
  = take (Z.to_nat batchSize) (drop (Z.to_nat i) array).
Proof.
  intros Hi Hb Hbound. unfold slice.
  rewrite !ToIntegerOrInfinity_exact by lia. cbn [relative_index].
  rewrite (proj2 (Z.ltb_ge _ _)) by lia. rewrite (proj2 (Z.ltb_ge _ _)) by lia.
  destruct (Z.le_gt_cases (Z.of_nat (length array)) i) as [Hout | Hin].
  - rewrite (Z.min_r (i + batchSize)) by lia. rewrite (Z.min_r i) by lia.
    rewrite (drop_ge array (Z.to_nat i)) by lia.
    rewrite (drop_ge array (Z.to_nat (Z.of_nat (length array)))) by lia.
    by rewrite !take_nil.
  - rewrite (Z.min_l i) by lia.
    destruct (Z.le_gt_cases (i + batchSize) (Z.of_nat (length array))) as [Hfull | Hlast].
    + rewrite (Z.min_l (i + batchSize)) by lia. f_equal. lia.
    + rewrite (Z.min_r (i + batchSize)) by lia.
      rewrite !take_ge; [done | |]; rewrite length_drop; lia.
Qed.

Lemma delete_batch_spec (client : Client) (batch : list string) (so_far : progress) :
  let after := delete_batch users_messages_delete client batch so_far in
  requested after = requested so_far ++ batch
  ∧ length (successes after) + length (failed after)
    = length (successes so_far) + length (failed so_far) + length batch.
Proof.
  unfold delete_batch. revert so_far.
  induction batch as [| messageId batch IH]; intros so_far; cbn.
  - rewrite app_nil_r. split; [done | lia].
  - destruct (IH (match users_messages_delete client messageId with
                  | None =>
                      mkProgress (requested so_far ++ [messageId])
                        (successes so_far ++ [messageId]) (failed so_far)
                  | Some error =>
                      mkProgress (requested so_far ++ [messageId]) (successes so_far)
                        (failed so_far ++ [(messageId, error)])
                  end)) as [Hrequested Hcount].
    cbn zeta in Hrequested, Hcount. rewrite Hrequested, Hcount.
    destruct (users_messages_delete client messageId); cbn;
      rewrite <- ?app_assoc, ?length_app; cbn; split; (done || lia).
Qed.

(** The loop with a step that is a positive integer, from an index that
    is an integer [i ≥ 0], all below [2 ^ 53]: it ends within
    [length messageIds - i + 1] turns, having requested the ids from
    [i] on. *)
Lemma delete_batches_forward (client : Client) (messageIds : list string)
    (batchSize : Z) (n fuel : nat) (i : Z) (so_far : progress) :
  (0 < batchSize)%Z → (Z.of_nat (length messageIds) + batchSize < 2 ^ 53)%Z →
  (0 ≤ i ≤ Z.of_nat (length messageIds) + batchSize)%Z →
  (Z.of_nat (length messageIds) - i ≤ Z.of_nat n)%Z → n < fuel →
  ∃ final,
    delete_batches users_messages_delete fuel client messageIds (number_of_Z batchSize)
      (number_of_Z i) so_far
    = (true, final)
    ∧ requested final = requested so_far ++ drop (Z.to_nat i) messageIds
    ∧ length (successes final) + length (failed final)
      = length (successes so_far) + length (failed so_far)
        + length (drop (Z.to_nat i) messageIds).
Proof.
  intros Hb Hbound. revert fuel i so_far.
  induction n as [| n IH]; intros fuel i so_far Hi Hleft Hfuel;
    (destruct fuel as [| fuel]; [lia |]); cbn [delete_batches];
    rewrite number_lessThan_exact by lia.
  - rewrite (proj2 (Z.ltb_ge _ _)) by lia.
    exists so_far. rewrite drop_ge by lia. rewrite app_nil_r. cbn. split; [done |].
    split; [done | lia].
  - destruct (Z.ltb_spec i (Z.of_nat (length messageIds))) as [Hin | Hout].
    + rewrite number_add_exact by lia. rewrite slice_forward by lia.
      destruct (delete_batch_spec client
                  (take (Z.to_nat batchSize) (drop (Z.to_nat i) messageIds)) so_far)
        as [Hrequested Hcount].
      destruct (IH fuel (i + batchSize)%Z
                  (delete_batch users_messages_delete client
                     (take (Z.to_nat batchSize) (drop (Z.to_nat i) messageIds)) so_far))
        as (final & Hrun & Hfinal & Hfinalcount); [lia | lia | lia |].
      exists final. split; [exact Hrun |].
      assert (drop (Z.to_nat (i + batchSize)) messageIds
              = drop (Z.to_nat batchSize) (drop (Z.to_nat i) messageIds)) as Hdrop.
      { rewrite drop_drop. f_equal. lia. }
      rewrite Hfinal, Hfinalcount, Hrequested, Hcount, Hdrop. split.
      * by rewrite <- app_assoc, take_drop.
      * rewrite <- (take_drop (Z.to_nat batchSize) (drop (Z.to_nat i) messageIds)) at 3.
        rewrite length_app. lia.
    + exists so_far. rewrite drop_ge by lia. rewrite app_nil_r. cbn. split; [done |].
      split; [done | lia].
Qed.

(** The loop with a negative step, from an index that is a zero,
    negative or minus infinity: the index stays so, and no turn ends the
    loop. *)
Lemma delete_batches_downward (client : Client) (messageIds : list string)
    (batchSize : number) (fuel : nat) (i : number) (so_far : progress) :
  messageIds ≠ [] → (Z.of_nat (length messageIds) < 2 ^ 53)%Z →
  number_lessThan batchSize (number_of_Z 0) = true →
  match i with
  | SpecFloat.S754_zero _ | SpecFloat.S754_finite true _ _
  | SpecFloat.S754_infinity true => True
  | _ => False
  end →
  (delete_batches users_messages_delete fuel client messageIds batchSize i so_far).1
  = false.
Proof.
  intros Hsome Hbound Hb. revert i so_far.
  induction fuel as [| fuel IH]; intros i so_far Hi; cbn [delete_batches]; [done |].
  rewrite number_lessThan_length; [| done |].
  - apply IH. by apply number_add_downward.
  - destruct messageIds; [done | cbn [length] in *; lia].
Qed.

(** X22.  With a batch size that is a positive integer (or none, a zero
    or [NaN], which all stand for 50) and ids few enough for the index
    to stay below [2 ^ 53], [BatchDeleteEmailsHandler] ends after at most
    one turn per message: the deletion of every id is requested exactly
    once, in the order of [messageIds], the two counts add up to the
    number of ids, and [success] holds exactly when nothing failed. *)
Theorem batchDelete_requests_each_once (account : option string)
    (messageIds : list string) (batchSize : option number) (size : Z)
    (accounts : list (string * Client)) (client : Client) (accountId : string) :
  getClientForAccount account accounts = inr (client, accountId) →
  effective_batchSize batchSize = number_of_Z size →
  (0 < size)%Z →
  (Z.of_nat (length messageIds) + size < 2 ^ 53)%Z →
  ∃ result,
    BatchDeleteEmailsHandler_runTool users_messages_delete (S (length messageIds)) account
      messageIds batchSize accounts
    = Some (inr (result, messageIds))
    ∧ successCount result + failureCount result = length messageIds
    ∧ batch_success result = bool_decide (failureCount result = 0)
    ∧ batch_accountId result = accountId.
Proof.
  intros Hclient Hsize Hpositive Hbound.
  unfold BatchDeleteEmailsHandler_runTool. rewrite Hclient, Hsize.
  destruct (delete_batches_forward client messageIds size
              (length messageIds) (S (length messageIds)) 0 (mkProgress [] [] []))
    as (final & -> & Hrequested & Hcount); [done | done | lia | lia | lia |].
  cbn in Hrequested, Hcount. change (Z.to_nat 0) with 0 in Hrequested, Hcount.
  rewrite drop_0 in Hrequested, Hcount. rewrite Hrequested.
  eexists. split; [reflexivity |]. cbn. split; [lia |]. split; [| done].
  by destruct (length (failed final)).
Qed.

(** X23.  With a negative batch size, whole or fractional or minus
    infinity, and at least one message, [BatchDeleteEmailsHandler] never
    answers: the index starts at 0 and only moves away from
    [messageIds.length], so no number of turns ends the loop. *)
Theorem batchDelete_negative_batchSize (fuel : nat) (account : option string)
    (messageIds : list string) (batchSize : number)
    (accounts : list (string * Client)) (client : Client) (accountId : string) :
  getClientForAccount account accounts = inr (client, accountId) →
  messageIds ≠ [] →
  (Z.of_nat (length messageIds) < 2 ^ 53)%Z →
  number_lessThan batchSize (number_of_Z 0) = true →
  BatchDeleteEmailsHandler_runTool users_messages_delete fuel account messageIds
    (Some batchSize) accounts
  = None.
Proof.
  intros Hclient Hsome Hbound Hsize.
  unfold BatchDeleteEmailsHandler_runTool. rewrite Hclient.
  assert (effective_batchSize (Some batchSize) = batchSize) as ->.
  { apply number_lessThan_0 in Hsize. by destruct batchSize as [| [] | | [] m e]. }
  pose proof (delete_batches_downward client messageIds batchSize fuel (number_of_Z 0)
                (mkProgress [] [] []) Hsome Hbound Hsize I) as Hloop.
  destruct (delete_batches _ _ _ _ _ _ _) as [[] final]; [discriminate Hloop | done].
Qed.

End BatchDelete.

Lemma batchDelete_requests_each_once_witness :
  ∃ result,
    MessageHandlers.BatchDeleteEmailsHandler_runTool
      (λ (_ : nat) messageId, if String.eqb messageId "m2" then Some "Not Found" else None)
      4 None ["m1"; "m2"; "m3"] (Some (MessageHandlers.number_of_Z 2)) [("home", 1)]
    = Some (inr (result, ["m1"; "m2"; "m3"]))
    ∧ MessageHandlers.successCount result + MessageHandlers.failureCount result = 3
    ∧ MessageHandlers.batch_success result
      = bool_decide (MessageHandlers.failureCount result = 0)
    ∧ MessageHandlers.batch_accountId result = "home".
Proof.
  apply (batchDelete_requests_each_once
           (λ (_ : nat) messageId, if String.eqb messageId "m2" then Some "Not Found" else None)
           None ["m1"; "m2"; "m3"] (Some (MessageHandlers.number_of_Z 2)) 2
           [("home", 1)] 1 "home");
    [reflexivity | reflexivity | reflexivity | reflexivity].
Defined.

(** The batch size [-0.5]. *)
Lemma batchDelete_negative_batchSize_witness :
  MessageHandlers.BatchDeleteEmailsHandler_runTool (λ (_ : nat) _, None) 1000 None
    ["m1"; "m2"; "m3"] (Some (SpecFloat.S754_finite true 4503599627370496 (-53)))
    [("home", 1)]
  = None.
Proof.
  apply (batchDelete_negative_batchSize (λ (_ : nat) _, None) 1000 None
           ["m1"; "m2"; "m3"] (SpecFloat.S754_finite true 4503599627370496 (-53))
           [("home", 1)] 1 "home");
    [reflexivity | discriminate | reflexivity | reflexivity].
Defined.

(** Fractional batch sizes.  With [0.5] the index takes two turns per
    message, and every other turn requests nothing: two ids need four
    turns, more than one per message.  With [-0.5] the first turn
    requests [slice(0, -0.5)], nothing, and the second [slice(-0.5, -1)],
    all ids but the last. *)
Example batchDelete_half_batchSize :
  MessageHandlers.BatchDeleteEmailsHandler_runTool (λ (_ : nat) _, None) 3 None
    ["m1"; "m2"] (Some (SpecFloat.S754_finite false 4503599627370496 (-53)))
    [("home", 1)]
  = None
  ∧ ∃ result,
      MessageHandlers.BatchDeleteEmailsHandler_runTool (λ (_ : nat) _, None) 5 None
        ["m1"; "m2"] (Some (SpecFloat.S754_finite false 4503599627370496 (-53)))
        [("home", 1)]
      = Some (inr (result, ["m1"; "m2"])).
Proof. split; [reflexivity |]. eexists. reflexivity. Qed.

Example batchDelete_minus_half_batchSize :
  MessageHandlers.requested
    (MessageHandlers.delete_batches (λ (_ : nat) _, None) 1 1 ["m1"; "m2"; "m3"]
       (SpecFloat.S754_finite true 4503599627370496 (-53)) (MessageHandlers.number_of_Z 0)
       (MessageHandlers.mkProgress [] [] [])).2
  = []
  ∧ MessageHandlers.requested
      (MessageHandlers.delete_batches (λ (_ : nat) _, None) 2 1 ["m1"; "m2"; "m3"]
         (SpecFloat.S754_finite true 4503599627370496 (-53)) (MessageHandlers.number_of_Z 0)
         (MessageHandlers.mkProgress [] [] [])).2
    = ["m1"; "m2"]
  ∧ MessageHandlers.requested
      (MessageHandlers.delete_batches (λ (_ : nat) _, None) 50 1 ["m1"; "m2"; "m3"]
         (SpecFloat.S754_finite true 4503599627370496 (-53)) (MessageHandlers.number_of_Z 0)
         (MessageHandlers.mkProgress [] [] [])).2
    = ["m1"; "m2"].
Proof. repeat split; reflexivity. Qed.

(** ** Attachments *)

Section Attachments.
Import MessageHandlers.

Lemma GmailMessagePart_parts_ind (P : GmailMessagePart → Prop) :
  (∀ mimeType filename body, P (Part mimeType filename body None)) →
  (∀ mimeType filename body subparts,
     Forall P subparts → P (Part mimeType filename body (Some subparts))) →
  ∀ part, P part.
Proof.
  intros Hleaf Hnode. fix IH 1. intros [mimeType filename body [subparts |]].
  - apply Hnode. induction subparts as [| subpart rest IHrest]; constructor.
    + apply IH.
    + exact IHrest.
  - apply Hleaf.
Qed.

Lemma string_or_nonempty (s : option string) (fallback : string) :
  fallback ≠ "" → string_or s fallback ≠ "".
Proof.
  intros Hfallback. unfold string_or. destruct s as [text |]; [| done].
  by destruct (String.eqb_spec text "").
Qed.

Lemma attachment_fallback_nonempty (id : string) : "attachment-" +:+ id ≠ "".
Proof. done. Qed.

Lemma own_attachment_named (mimeType filename : option string) (body : option part_body)
    (attachment : EmailAttachment) :
  attachment ∈ own_attachment mimeType filename body →
  attachment_id attachment ≠ ""
  ∧ attachment_filename attachment ≠ ""
  ∧ attachment_mimeType attachment ≠ "".
Proof.
  unfold own_attachment. destruct body as [b |]; [| by intros ?%elem_of_nil].
  destruct (attachmentId b) as [id |]; [| by intros ?%elem_of_nil].
  destruct (String.eqb_spec id "") as [-> | Hid]; [by intros ?%elem_of_nil |].
  intros ->%list_elem_of_singleton. cbn. split; [done |].
  split; by apply string_or_nonempty.
Qed.

Lemma processAttachmentParts_named (part : GmailMessagePart)
    (attachment : EmailAttachment) :
  attachment ∈ processAttachmentParts part →
  attachment_id attachment ≠ ""
  ∧ attachment_filename attachment ≠ ""
  ∧ attachment_mimeType attachment ≠ "".
Proof.
  revert attachment. induction part as [mimeType filename body
                                       | mimeType filename body subparts IH]
    using GmailMessagePart_parts_ind; intros attachment; cbn.
  - rewrite app_nil_r. apply own_attachment_named.
  - intros [Hown | Hsub]%elem_of_app; [by eapply own_attachment_named |].
    apply list_elem_of_In, in_concat in Hsub as (listed & Hlisted & Hin).
    apply in_map_iff in Hlisted as (subpart & <- & Hsubpart).
    apply list_elem_of_In in Hsubpart. apply list_elem_of_In in Hin.
    eapply Forall_forall in IH; [| exact Hsubpart]. by apply IH.
Qed.

(** X24.  Every attachment that [ReadEmailHandler] lists has a
    non-empty id, a non-empty file name and a non-empty MIME type,
    whatever the message looks like. *)
Theorem extractAttachments_named (payload : option GmailMessagePart)
    (attachment : EmailAttachment) :
  attachment ∈ extractAttachments payload →
  attachment_id attachment ≠ ""
  ∧ attachment_filename attachment ≠ ""
  ∧ attachment_mimeType attachment ≠ "".
Proof.
  destruct payload as [part |]; cbn; [| by intros ?%elem_of_nil].
  apply processAttachmentParts_named.
Qed.

Lemma head_filter_app {A : Type} (P : A → Prop) `{!∀ x, Decision (P x)} (l1 l2 : list A) :
  head (filter P (l1 ++ l2))
  = match head (filter P l1) with
    | Some x => Some x
    | None => head (filter P l2)
    end.
Proof.
  rewrite filter_app. by destruct (filter P l1).
Qed.

(** X25.  The file name that [DownloadAttachmentHandler] derives for an
    attachment id is the one under which [ReadEmailHandler] lists the
    first attachment with that id; it finds none exactly when the
    listing has no such attachment.  (The id asked for is not empty.) *)
Theorem findAttachment_matches_listing (wanted : string) (part : GmailMessagePart) :
  wanted ≠ "" →
  findAttachment wanted part
  = attachment_filename
      <$> head (filter (λ a, attachment_id a = wanted) (extractAttachments (Some part))).
Proof.
  intros Hwanted. cbn [extractAttachments].
  induction part as [mimeType filename body | mimeType filename body subparts IH]
    using GmailMessagePart_parts_ind; cbn [findAttachment processAttachmentParts].
  - rewrite app_nil_r. unfold own_attachment.
    destruct body as [b |]; [| done].
    destruct (attachmentId b) as [id |]; [| done].
    destruct (String.eqb_spec id wanted) as [-> | Hne].
    + rewrite (proj2 (String.eqb_neq _ _)) by done.
      rewrite filter_cons_True by done. done.
    + destruct (String.eqb id ""); [done |].
      rewrite filter_cons_False by done. done.
  - rewrite head_filter_app.
    assert ((fix first_found (subparts : list GmailMessagePart) : option string :=
               match subparts with
               | [] => None
               | subpart :: rest =>
                   match findAttachment wanted subpart with
                   | Some found =>
                       if String.eqb found "" then first_found rest else Some found
                   | None => first_found rest
                   end
               end) subparts
            = attachment_filename
                <$> head (filter (λ a, attachment_id a = wanted)
                            (concat (map processAttachmentParts subparts)))) as Hsub.
    { induction subparts as [| subpart rest IHrest]; [done |].
      apply Forall_cons in IH as [Hfirst Hrest]. cbn [map concat].
      rewrite head_filter_app, Hfirst, (IHrest Hrest).
      destruct (head (filter _ (processAttachmentParts subpart))) as [a |] eqn:Ha; [| done].
      cbn. apply head_Some_elem_of in Ha. apply list_elem_of_filter in Ha as [_ Ha].
      destruct (processAttachmentParts_named subpart a Ha) as (_ & Hname & _).
      by rewrite (proj2 (String.eqb_neq _ _)) by done. }
    unfold own_attachment.
    destruct body as [b |]; [| exact Hsub].
    destruct (attachmentId b) as [id |]; [| exact Hsub].
    destruct (String.eqb_spec id wanted) as [-> | Hne].
    + rewrite (proj2 (String.eqb_neq _ _)) by done.
      rewrite filter_cons_True by done. done.
    + destruct (String.eqb id ""); [exact Hsub |].
      rewrite filter_cons_False by done. exact Hsub.
Qed.

End Attachments.

Lemma extractAttachments_named_witness :
  let attachment :=
    MessageHandlers.mkAttachment "att-1" "attachment-att-1" "application/pdf" 1024 in
  MessageHandlers.attachment_id attachment ≠ ""
  ∧ MessageHandlers.attachment_filename attachment ≠ ""
  ∧ MessageHandlers.attachment_mimeType attachment ≠ "".
Proof.
  apply (extractAttachments_named (Some Examples.message_with_attachment)).
  apply list_elem_of_singleton. reflexivity.
Defined.

Lemma findAttachment_matches_listing_witness :
  MessageHandlers.findAttachment "att-1" Examples.message_with_attachment
  = Some "attachment-att-1".
Proof.
  rewrite (findAttachment_matches_listing "att-1" Examples.message_with_attachment);
    [reflexivity | discriminate].
Defined.

(** ** Validating the tokens of an account *)

Section TokenValidation.
Import TokenManager.

Variable now : Z.
Variable string_to_number : string → option Z.
Variable refreshAccessToken : json → outcome json.
Variable invalid_grant : js_error → bool.

#[local] Arguments truthy_opt : simpl never.
#[local] Arguments to_number : simpl never.

#[local] Abbreviation refresh :=
  (refreshTokensIfNeeded now string_to_number refreshAccessToken invalid_grant).
#[local] Abbreviation validate :=
  (validateTokens now string_to_number refreshAccessToken invalid_grant).

(** Property reads on a value either all succeed or all throw. *)
Lemma getProp_cases (v : json) :
  (v = JNull ∧ ∀ key, ∃ e, getProp v key = Throw e)
  ∨ (v ≠ JNull ∧ ∀ key, getProp v key = Ok (stored_under v key)).
Proof.
  destruct v; [left; split; [done | eauto] | right ..]; split; try done;
    intros key; unfold stored_under; cbn; by try destruct (String.eqb _ _).
Qed.

Lemma getProp_never_hangs (v : json) (key : string) : getProp v key ≠ Hang.
Proof. destruct v; cbn; try done. by destruct (String.eqb _ _). Qed.

(** [refreshTokensIfNeeded] touches the client's credentials and
    [stderr] only. *)
Lemma refreshTokensIfNeeded_frame (st : tm) :
  accountMode (refresh st).2 = accountMode st
  ∧ token_file (refresh st).2 = token_file st
  ∧ ((refresh st).1 = Hang → refreshAccessToken (oauth2Client st) = Hang).
Proof.
  unfold refreshTokensIfNeeded. run.
  destruct (getProp_cases (oauth2Client st)) as [[-> _] | [_ Hread]]; [done |].
  rewrite !Hread. cbn.
  repeat match goal with
         | |- context [if ?b then _ else _] => destruct b eqn:?; cbn
         | |- context [match ?o with Ok _ => _ | Throw _ => _ | Hang => _ end] =>
             destruct o eqn:?; cbn
         | |- context [match ?o with Some _ => _ | None => _ end] =>
             destruct o eqn:?; cbn
         end; repeat split; try done;
    try (intros _; exfalso; eapply getProp_never_hangs; eassumption).
Qed.

#[local] Arguments loadSavedTokens : simpl never.
#[local] Arguments refreshTokensIfNeeded : simpl never.
#[local] Arguments lacks_access_token : simpl never.

#[local] Abbreviation validate_here :=
  (validate_current now string_to_number refreshAccessToken invalid_grant).

(** The [try] block keeps the account mode, and settles when the
    refresh request does. *)
Lemma validate_current_frame (st : tm) :
  accountMode (validate_here st).2 = accountMode st
  ∧ ((∀ credentials, refreshAccessToken credentials ≠ Hang) →
     (validate_here st).1 ≠ Hang).
Proof.
  unfold validate_current, gets, mbind, M_bind, mret, M_ret. cbn.
  destruct (lacks_access_token (oauth2Client st)).
  - destruct (start_up_settles st) as (loaded & Hloaded & Hmode & _).
    destruct (loadSavedTokens st) as [o s1]. cbn in Hloaded, Hmode. subst o.
    destruct loaded; cbn; [| done].
    destruct (lacks_access_token (oauth2Client s1)); [done |].
    destruct (refreshTokensIfNeeded_frame s1) as (Hmode' & _ & Hhang).
    split; [congruence |]. intros Hsettles Hstuck. by eapply Hsettles, Hhang.
  - destruct (refreshTokensIfNeeded_frame st) as (Hmode' & _ & Hhang).
    split; [done |]. intros Hsettles Hstuck. by eapply Hsettles, Hhang.
Qed.

#[local] Arguments validate_current : simpl never.

(** [validateTokens] is its [try] block, run in the account to
    validate, followed by the return to the current account. *)
Lemma validateTokens_run (requested : option string) (st : tm) :
  let modeToValidate :=
    if truthy_opt (JStr <$> requested) then default "" requested else accountMode st in
  let started :=
    if String.eqb modeToValidate (accountMode st) then st
    else with_accountMode modeToValidate st in
  validate requested st =
    match (validate_here started).1 with
    | Hang => (Hang, (validate_here started).2)
    | o =>
        (o, if String.eqb modeToValidate (accountMode st) then (validate_here started).2
            else with_accountMode (accountMode st) (validate_here started).2)
    end.
Proof.
  cbn zeta. unfold validateTokens, try_finally, setAccountMode, modify, gets,
    mbind, M_bind, mret, M_ret. cbn.
  destruct (String.eqb _ (accountMode st)); cbn.
  - destruct (validate_here st) as [[result | e |] s1]; done.
  - destruct (validate_here _) as [[result | e |] s1]; done.
Qed.

(** X26.  As long as the refresh request settles, [validateTokens]
    settles too and hands the manager back in the account mode it was
    called in, whichever account it was asked to validate and whether it
    answers or rejects. *)
Theorem validateTokens_restores_account_mode (requested : option string) (st : tm) :
  (∀ credentials, refreshAccessToken credentials ≠ Hang) →
  (validate requested st).1 ≠ Hang
  ∧ accountMode (validate requested st).2 = accountMode st.
Proof.
  intros Hsettles. rewrite validateTokens_run. cbn zeta.
  set (modeToValidate :=
         if truthy_opt (JStr <$> requested) then default "" requested else accountMode st).
  destruct (String.eqb_spec modeToValidate (accountMode st)) as [Hsame | Hother].
  - destruct (validate_current_frame st) as [Hmode Hnohang].
    specialize (Hnohang Hsettles).
    destruct (validate_here st) as [[result | e |] s1]; cbn in *; done.
  - destruct (validate_current_frame (with_accountMode modeToValidate st))
      as [Hmode Hnohang].
    specialize (Hnohang Hsettles).
    destruct (validate_here _) as [[result | e |] s1]; cbn in *; done.
Qed.

(** The account mode only shows in what [refreshTokensIfNeeded] writes
    to [stderr]. *)
Lemma refreshTokensIfNeeded_any_mode (mode : string) (st : tm) :
  (refreshTokensIfNeeded now string_to_number refreshAccessToken invalid_grant
     (with_accountMode mode st)).1 = (refresh st).1
  ∧ oauth2Client
      (refreshTokensIfNeeded now string_to_number refreshAccessToken invalid_grant
         (with_accountMode mode st)).2 = oauth2Client (refresh st).2.
Proof.
  unfold refreshTokensIfNeeded. run.
  destruct (getProp_cases (oauth2Client st)) as [[-> _] | [_ Hread]]; [done |].
  rewrite !Hread. cbn.
  repeat match goal with
         | |- context [if ?b then _ else _] => destruct b eqn:?; cbn
         | |- context [match ?o with Ok _ => _ | Throw _ => _ | Hang => _ end] =>
             destruct o eqn:?; cbn
         | |- context [match ?o with Some _ => _ | None => _ end] =>
             destruct o eqn:?; cbn
         end; repeat split; try done.
Qed.

(** X27.  When the client already holds an access token,
    [validateTokens] neither switches credentials nor reads the store:
    for whatever account it is asked, it answers as it does for the
    current account, from the credentials the client has. *)
Theorem validateTokens_ignores_requested_account (requested : option string) (st : tm) :
  lacks_access_token (oauth2Client st) = false →
  (validate requested st).1 = (refresh st).1
  ∧ oauth2Client (validate requested st).2 = oauth2Client (refresh st).2
  ∧ token_file (validate requested st).2 = token_file st.
Proof.
  intros Hheld. rewrite validateTokens_run. cbn zeta.
  set (modeToValidate :=
         if truthy_opt (JStr <$> requested) then default "" requested else accountMode st).
  destruct (refreshTokensIfNeeded_frame st) as (_ & Hfile & _).
  destruct (String.eqb modeToValidate (accountMode st)).
  - unfold validate_current, gets, mbind, M_bind. cbn. rewrite Hheld.
    destruct (refresh st) as [[result | e |] s1]; done.
  - unfold validate_current, gets, mbind, M_bind. cbn. rewrite Hheld.
    destruct (refreshTokensIfNeeded_any_mode modeToValidate st) as [Hresult Hclient].
    destruct (refreshTokensIfNeeded_frame (with_accountMode modeToValidate st))
      as (_ & Hfile' & _).
    destruct (refreshTokensIfNeeded now string_to_number refreshAccessToken invalid_grant
                (with_accountMode modeToValidate st)) as [o s1].
    cbn in Hresult, Hclient, Hfile'. rewrite <- Hresult, <- Hclient.
    destruct o as [result | e |]; cbn; by rewrite ?Hfile'.
Qed.

#[local] Arguments legacy_shape : simpl never.

Lemma loadSavedTokens_finds_record (fields record : gmap string json) (st : tm) :
  token_file st = FContent (JsonText (JObj fields)) →
  legacy_shape (JObj fields) = Ok false →
  fields !! accountMode st = Some (JObj record) →
  (loadSavedTokens st).1 = Ok true
  ∧ oauth2Client (loadSavedTokens st).2 = JObj record
  ∧ accountMode (loadSavedTokens st).2 = accountMode st.
Proof.
  intros Hfile Hshape Hrecord.
  unfold loadSavedTokens. run. rewrite Hfile. cbn. rewrite Hfile. cbn.
  rewrite Hshape. cbn. rewrite Hrecord. unfold truthy_opt. cbn. done.
Qed.

(** Credentials with a truthy access token and no expiry date need no
    refresh. *)
Lemma refreshTokensIfNeeded_not_needed (record : gmap string json) (st : tm) :
  oauth2Client st = JObj record →
  truthy_opt (record !! "access_token") = true →
  record !! "expiry_date" = None →
  refresh st = (Ok true, st).
Proof.
  intros Hclient Haccess Hexpiry.
  unfold refreshTokensIfNeeded. run. rewrite Hclient. cbn.
  rewrite Hexpiry. change (truthy_opt None) with false. cbn.
  rewrite !Haccess. cbn. done.
Qed.

(** X28.  Validating another account changes whose credentials the
    client holds.  When the client has no access token and the store
    has a record with an access token (and no expiry date) for the
    requested account, [validateTokens] answers [true] and returns to
    the current account mode, but leaves the requested account's record
    as the credentials of the shared client.  (The requested account is
    not [__proto__].) *)
Theorem validateTokens_installs_other_account (requested : string)
    (fields record : gmap string json) (st : tm) :
  requested ≠ "" → requested ≠ accountMode st → requested ≠ "__proto__" →
  lacks_access_token (oauth2Client st) = true →
  token_file st = FContent (JsonText (JObj fields)) →
  legacy_shape (JObj fields) = Ok false →
  fields !! requested = Some (JObj record) →
  truthy_opt (record !! "access_token") = true →
  record !! "expiry_date" = None →
  (validate (Some requested) st).1 = Ok true
  ∧ accountMode (validate (Some requested) st).2 = accountMode st
  ∧ oauth2Client (validate (Some requested) st).2 = JObj record.
Proof.
  intros Hnamed Hother _ Hlacks Hfile Hshape Hrecord Haccess Hexpiry.
  rewrite validateTokens_run. cbn zeta.
  assert (truthy_opt (JStr <$> Some requested) = true) as ->.
  { unfold truthy_opt. cbn. by destruct requested. }
  change (default "" (Some requested)) with requested.
  rewrite (proj2 (String.eqb_neq _ _) Hother).
  destruct (loadSavedTokens_finds_record fields record (with_accountMode requested st)
              Hfile Hshape Hrecord) as (Hloaded & Hclient & Hmode).
  unfold validate_current, gets, mbind, M_bind, mret, M_ret. cbn. rewrite Hlacks.
  destruct (loadSavedTokens (with_accountMode requested st)) as [o s1].
  cbn in Hloaded, Hclient, Hmode. subst o. cbn.
  assert (lacks_access_token (oauth2Client s1) = false) as ->.
  { rewrite Hclient. unfold lacks_access_token, stored_under. cbn. by rewrite Haccess. }
  rewrite (refreshTokensIfNeeded_not_needed record s1 Hclient Haccess Hexpiry). cbn.
  done.
Qed.

(** X29.  [refreshTokensIfNeeded] vouches for an access token that has
    expired when there is no refresh token to renew it with: it answers
    [true], sends no refresh request and leaves everything as it was. *)
Theorem refreshTokensIfNeeded_expired_without_refresh_token
    (record : gmap string json) (expiry : Z) (st : tm) :
  oauth2Client st = JObj record →
  record !! "expiry_date" = Some (JNum expiry) →
  expiry ≠ 0%Z →
  (expiry - 5 * 60 * 1000 ≤ now)%Z →
  truthy_opt (record !! "access_token") = true →
  truthy_opt (record !! "refresh_token") = false →
  refresh st = (Ok true, st).
Proof.
  intros Hclient Hexpiry Hnonzero Hexpired Haccess Hrefresh.
  unfold refreshTokensIfNeeded. run. rewrite Hclient. cbn.
  rewrite Hexpiry. unfold truthy_opt at 1. cbn.
  rewrite (proj2 (Z.eqb_neq _ _) Hnonzero). cbn.
  rewrite Hrefresh, Haccess. rewrite andb_false_r. cbn. done.
Qed.

End TokenValidation.

Section ValidationExamples.
Import TokenManager.

Lemma validateTokens_restores_account_mode_witness :
  (validateTokens 0 (λ _, None) (λ _, Throw (Error "offline")) (λ _, false)
     (Some "work") Examples.two_accounts).1 ≠ Hang
  ∧ accountMode
      (validateTokens 0 (λ _, None) (λ _, Throw (Error "offline")) (λ _, false)
         (Some "work") Examples.two_accounts).2 = "normal".
Proof.
  apply (validateTokens_restores_account_mode 0 (λ _, None)
           (λ _, Throw (Error "offline")) (λ _, false) (Some "work")
           Examples.two_accounts).
  intros credentials. discriminate.
Defined.

Lemma validateTokens_ignores_requested_account_witness :
  let signed_in := (loadSavedTokens Examples.two_accounts).2 in
  (validateTokens 0 (λ _, None) (λ _, Throw (Error "offline")) (λ _, false)
     (Some "work") signed_in).1
  = (refreshTokensIfNeeded 0 (λ _, None) (λ _, Throw (Error "offline")) (λ _, false)
       signed_in).1
  ∧ oauth2Client
      (validateTokens 0 (λ _, None) (λ _, Throw (Error "offline")) (λ _, false)
         (Some "work") signed_in).2
    = oauth2Client
        (refreshTokensIfNeeded 0 (λ _, None) (λ _, Throw (Error "offline")) (λ _, false)
           signed_in).2
  ∧ token_file
      (validateTokens 0 (λ _, None) (λ _, Throw (Error "offline")) (λ _, false)
         (Some "work") signed_in).2
    = token_file signed_in.
Proof.
  apply (validateTokens_ignores_requested_account 0 (λ _, None)
           (λ _, Throw (Error "offline")) (λ _, false) (Some "work")
           (loadSavedTokens Examples.two_accounts).2).
  reflexivity.
Defined.

Lemma validateTokens_installs_other_account_witness :
  (validateTokens 0 (λ _, None) (λ _, Throw (Error "offline")) (λ _, false)
     (Some "work") Examples.two_accounts).1 = Ok true
  ∧ accountMode
      (validateTokens 0 (λ _, None) (λ _, Throw (Error "offline")) (λ _, false)
         (Some "work") Examples.two_accounts).2 = "normal"
  ∧ oauth2Client
      (validateTokens 0 (λ _, None) (λ _, Throw (Error "offline")) (λ _, false)
         (Some "work") Examples.two_accounts).2
    = JObj {[ "access_token" := JStr "ya29.work" ]}.
Proof.
  apply (validateTokens_installs_other_account 0 (λ _, None)
           (λ _, Throw (Error "offline")) (λ _, false) "work"
           {[ "normal" := Examples.full_record;
              "work" := JObj {[ "access_token" := JStr "ya29.work" ]} ]}
           {[ "access_token" := JStr "ya29.work" ]} Examples.two_accounts);
    [discriminate | discriminate | discriminate | reflexivity | reflexivity
    | reflexivity | reflexivity | reflexivity | reflexivity].
Defined.

Lemma refreshTokensIfNeeded_expired_without_refresh_token_witness :
  let expired :=
    with_oauth2Client
      (JObj {[ "access_token" := JStr "ya29.old"; "expiry_date" := JNum 1000 ]})
      Examples.one_account in
  refreshTokensIfNeeded 2000 (λ _, None) (λ _, Throw (Error "offline")) (λ _, false)
    expired
  = (Ok true, expired).
Proof.
  apply (refreshTokensIfNeeded_expired_without_refresh_token 2000 (λ _, None)
           (λ _, Throw (Error "offline")) (λ _, false)
           {[ "access_token" := JStr "ya29.old"; "expiry_date" := JNum 1000 ]} 1000);
    [reflexivity | reflexivity | discriminate | discriminate | reflexivity | reflexivity].
Defined.

End ValidationExamples.

(** ** The account mode of the process *)

(** X30.  Whatever the environment holds, the account mode that
    [getAccountMode] returns is a valid account id; it throws only for a
    [GMAIL_ACCOUNT_MODE] that is set and is not one, the empty string
    included, with the error of [validateAccountId]. *)
Theorem getAccountMode_valid (env : Paths.environment) :
  match Paths.getAccountMode env with
  | Ok mode => Paths.validateAccountId mode = Ok mode
  | Throw e =>
      ∃ explicitMode,
        Paths.GMAIL_ACCOUNT_MODE env = Some explicitMode
        ∧ Paths.validateAccountId explicitMode = Throw e
  | Hang => False
  end.
Proof.
  unfold Paths.getAccountMode.
  destruct (Paths.GMAIL_ACCOUNT_MODE env) as [explicitMode |].
  - destruct (Paths.validateAccountId explicitMode) as [mode | e |] eqn:Hvalid.
    + pose proof (validateAccountId_Ok _ _ Hvalid) as [-> _]. exact Hvalid.
    + by exists explicitMode.
    + rewrite validateAccountId_spec in Hvalid. by destruct (_ && _).
  - destruct (Paths.NODE_ENV env) as [node_env |]; [| reflexivity].
    destruct (String.eqb node_env "test"); reflexivity.
Qed.
